(** * solartoolbox.signalproc: a shallow embedding and its properties

    The module [signalproc] of solartoolbox estimates, builds and applies
    frequency-domain transfer functions.  This development embeds its
    functions as Rocq definitions and proves properties about them.

    Conventions of the embedding.
    - A Python/NumPy float is a real number ([R]); NumPy's arithmetic is
      the exact field arithmetic.  Where NumPy would produce a non-finite
      value ([inf] or [nan], e.g. a division by zero), also as an
      intermediate value, the embedding does not follow the computation
      further: it stops with the outcome [NonFinite] (or [None] for one
      array element).
    - A complex number is a pair of reals.
    - A raised Python exception is the outcome [Raise].
    - A pandas Series is a record of an index list and a value list.
    - Objects that are mutated in place live in a heap indexed by
      references. *)

From Stdlib Require Import Reals Lra Lia ZArith List Bool String Ascii.
From stdpp Require Import base list gmap sorting.

Open Scope R_scope.

(** ** Outcomes of a call *)

Inductive exn : Type :=
| IndexError
| ZeroDivisionError
| KeyError
| ValueError (msg : string).

Inductive result (A : Type) : Type :=
| Ok (a : A)
| Raise (e : exn)
| NonFinite.

Arguments Ok {A} a.
Arguments Raise {A} e.
Arguments NonFinite {A}.

Definition bind {A B : Type} (m : result A) (k : A -> result B) : result B :=
  match m with
  | Ok a => k a
  | Raise e => Raise e
  | NonFinite => NonFinite
  end.

Notation "'do' x <- m ; k" := (bind m (fun x => k))
  (at level 10, x name, m at level 100, k at level 200).

(** ** pandas Series *)

Record Series (K V : Type) : Type := mkSeries {
  index : list K;
  values : list V
}.

Arguments mkSeries {K V} index values.
Arguments index {K V} s.
Arguments values {K V} s.

(** ** cleanfreq

    Index labels of the spectrum handed to [cleanfreq] are frequencies;
    the null marker the function writes is [None]. *)

Abbreviation loc := nat (only parsing).

Inductive pyval : Type :=
| PyNone
| PyRef (l : loc).

Abbreviation label := (option R) (only parsing).
Abbreviation heap V := (gmap nat (Series (option R) V)) (only parsing).

Section Cleanfreq.
Context {V : Type}.

(** [idxlist[i] = v] on a Python list: IndexError out of range. *)
Definition list_setitem {A : Type} (l : list A) (i : nat) (v : A)
  : result (list A) :=
  if decide (i < length l)%nat then Ok (<[i := v]> l) else Raise IndexError.

(** [cleanfreq(sig)]: the body has no return statement, so the value of
    the call is None; the Series object [sig] refers to is updated in
    the heap.  A Python reference always denotes a live object: the
    branch for a reference absent from the heap is never taken by a
    well-formed call. *)
Definition cleanfreq (sig : loc) (h : heap V) : result (pyval * heap V) :=
  match h !! sig with
  | None => Raise KeyError
  | Some s =>
      let idxlist := index s in
      do idxlist' <- list_setitem idxlist (length (index s) / 2)%nat None;
      Ok (PyNone, <[sig := mkSeries idxlist' (values s)]> h)
  end.
End Cleanfreq.

(** ** Comparisons and integer parts of floats *)

Definition Rge_b (x y : R) : bool := if Rge_dec x y then true else false.
Definition Rlt_b (x y : R) : bool := if Rlt_dec x y then true else false.
Definition Rgt_b (x y : R) : bool := if Rgt_dec x y then true else false.

(** [x // 2]: Python's floor division. *)
Definition floordiv2 (x : R) : R := IZR (Zfloor (x / 2)).

(** ** NumPy: array construction, masks *)

(** [np.arange(start, stop, step)]: ceil((stop - start) / step) values
    start + i * step; a zero step is an error. *)
Definition arange (start stop step : R) : result (list R) :=
  if Req_dec_T step 0 then Raise ZeroDivisionError
  else Ok (map (fun i : nat => start + INR i * step)
               (seq 0 (Z.to_nat (Zceil ((stop - start) / step))))).

(** [l[inds]] for a boolean mask. *)
Fixpoint compress {A : Type} (inds : list bool) (l : list A) : list A :=
  match inds, l with
  | true :: inds', a :: l' => a :: compress inds' l'
  | false :: inds', _ :: l' => compress inds' l'
  | _, _ => []
  end.

(** [plant[inds] = v] for a scalar. *)
Fixpoint setmask_scalar (plant : list R) (inds : list bool) (v : R) : list R :=
  match plant, inds with
  | p :: plant', b :: inds' =>
      (if b then v else p) :: setmask_scalar plant' inds' v
  | _, _ => plant
  end.

(** [plant[inds] = rhs] for an array with one value per selected cell. *)
Fixpoint setmask (plant : list R) (inds : list bool) (rhs : list R) : list R :=
  match plant, inds with
  | p :: plant', true :: inds' =>
      match rhs with
      | v :: rhs' => v :: setmask plant' inds' rhs'
      | [] => plant
      end
  | p :: plant', false :: inds' => p :: setmask plant' inds' rhs
  | _, _ => plant
  end.

(** A loop whose body can fail. *)
Fixpoint for_each {A B : Type} (body : A -> B -> result A) (l : list B) (a : A)
  : result A :=
  match l with
  | [] => Ok a
  | b :: l' => do a' <- body a b; for_each body l' a'
  end.

(** ** Strings *)

Definition lower_ascii (c : ascii) : ascii :=
  let n := nat_of_ascii c in
  if (65 <=? n)%nat && (n <=? 90)%nat then ascii_of_nat (n + 32) else c.

Fixpoint lower (s : string) : string :=
  match s with
  | EmptyString => EmptyString
  | String c s' => String (lower_ascii c) (lower s')
  end.

(** ** get_1d_plant *)

(** [np.bitwise_and(x_vec >= (center - w / 2), x_vec < (center + w / 2))] *)
Definition span_mask (x_vec : list R) (center w : R) : list bool :=
  map (fun x => Rge_b x (center - w / 2) && Rlt_b x (center + w / 2)) x_vec.

Definition square_step (x_vec : list R) (w : R) (plant : list R) (center : R)
  : list R :=
  let inds := span_mask x_vec center w in
  setmask_scalar plant inds 1.

Definition triangle_step (x_vec : list R) (w : R) (plant : list R) (center : R)
  : list R :=
  let inds := span_mask x_vec center w in
  setmask plant inds (map (fun x => x - center + w / 2) (compress inds x_vec)).

(** [plant += np.exp(-(x_vec-center)**2/(2*(w/2.355)**2))] *)
Definition gaussian_step (x_vec : list R) (w : R) (plant : list R) (center : R)
  : result (list R) :=
  if Req_dec_T (2 * (w / 2.355) ^ 2) 0 then NonFinite
  else Ok (zip_with Rplus plant
             (map (fun x => exp (- (x - center) ^ 2 / (2 * (w / 2.355) ^ 2)))
                  x_vec)).

Definition no_info_msg (shape : string) : string :=
  String.append "No info for plant shape: " shape.

Definition get_1d_plant (centers : list R) (ref_center : R) (width : option R)
    (shape : string) (dx xmax : R) : result (list R * list R) :=
  let w := match width with None => dx | Some wd => wd end in
  let centers := map (fun c => c - ref_center) centers in
  do x_vec <- arange (floordiv2 (- xmax)) (floordiv2 xmax) dx;
  let plant := repeat 0 (length x_vec) in
  if String.eqb (lower shape) "square" then
    Ok (fold_left (square_step x_vec w) centers plant, x_vec)
  else if String.eqb (lower shape) "triangle" then
    Ok (fold_left (triangle_step x_vec w) centers plant, x_vec)
  else if String.eqb (lower shape) "gaussian" then
    do plant' <- for_each (gaussian_step x_vec w) centers plant;
    Ok (plant', x_vec)
  else Raise (ValueError (no_info_msg shape)).

(** *** The footprint rules in the words of the specification *)

Definition in_span (w center x : R) : Prop :=
  center - w / 2 <= x < center + w / 2.

Definition in_span_b (w center x : R) : bool :=
  Rge_b x (center - w / 2) && Rlt_b x (center + w / 2).

(** The site placed last among those whose span holds [x]. *)
Definition last_placed (w x : R) (centers : list R) : option R :=
  find (fun c => in_span_b w c x) (rev centers).

Definition square_value (w x : R) (centers : list R) : R :=
  match last_placed w x centers with Some _ => 1 | None => 0 end.

Definition triangle_value (w x : R) (centers : list R) : R :=
  match last_placed w x centers with
  | Some c => x - c + w / 2
  | None => 0
  end.

Definition gaussian_bump (w c x : R) : R :=
  let sigma := w / 2.355 in
  exp (- (x - c) ^ 2 / (2 * sigma ^ 2)).

Definition gaussian_value (w x : R) (centers : list R) : R :=
  fold_right Rplus 0 (map (fun c => gaussian_bump w c x) centers).

Definition plant_width (width : option R) (dx : R) : R :=
  match width with None => dx | Some wd => wd end.

Definition plant_grid (dx xmax : R) : list R :=
  map (fun i : nat => floordiv2 (- xmax) + INR i * dx)
      (seq 0 (Z.to_nat (Zceil ((floordiv2 xmax - floordiv2 (- xmax)) / dx)))).

(** ** Complex numbers *)

Definition C : Type := (R * R)%type.

Definition Cre (z : C) : R := fst z.
Definition Cim (z : C) : R := snd z.
Definition RtoC (x : R) : C := (x, 0).
Definition Czero : C := (0, 0).
Definition Cone : C := (1, 0).
(** [1j] *)
Definition Ci : C := (0, 1).

Definition Cadd (z w : C) : C := (Cre z + Cre w, Cim z + Cim w).
Definition Cmul (z w : C) : C :=
  (Cre z * Cre w - Cim z * Cim w, Cre z * Cim w + Cim z * Cre w).
Definition Cconj (z : C) : C := (Cre z, - Cim z).
(** A complex number times, and divided by, a real scalar. *)
Definition Cmulr (z : C) (r : R) : C := (Cre z * r, Cim z * r).
Definition Cdivr (z : C) (r : R) : C := (Cre z / r, Cim z / r).
Definition Cdiv (z w : C) : C :=
  let d := Cre w * Cre w + Cim w * Cim w in
  ((Cre z * Cre w + Cim z * Cim w) / d, (Cim z * Cre w - Cre z * Cim w) / d).

(** [np.abs] *)
Definition Cmod (z : C) : R := sqrt (Cre z * Cre z + Cim z * Cim z).

(** exp(i theta) *)
Definition cis (theta : R) : C := (cos theta, sin theta).

(** [np.exp] *)
Definition Cexp (z : C) : C := Cmulr (cis (Cim z)) (exp (Cre z)).

(** [np.arctan2] and [np.angle] *)
Definition atan2 (y x : R) : R :=
  if Rlt_dec 0 x then atan (y / x)
  else if Rlt_dec x 0 then
         if Rle_dec 0 y then atan (y / x) + PI else atan (y / x) - PI
  else if Rlt_dec 0 y then PI / 2
  else if Rlt_dec y 0 then - (PI / 2)
  else 0.

Definition Carg (z : C) : R := atan2 (Cim z) (Cre z).

(** ** NumPy: reductions, item access *)

(** [l[i]]: IndexError out of range. *)
Definition getitem {A : Type} (l : list A) (i : nat) : result A :=
  match l !! i with
  | Some a => Ok a
  | None => Raise IndexError
  end.

Definition zero_size_msg : string :=
  "zero-size array to reduction operation which has no identity".

Definition np_max (l : list R) : result R :=
  match l with
  | [] => Raise (ValueError zero_size_msg)
  | x :: l' => Ok (fold_left Rmax l' x)
  end.

Definition np_min (l : list R) : result R :=
  match l with
  | [] => Raise (ValueError zero_size_msg)
  | x :: l' => Ok (fold_left Rmin l' x)
  end.

Definition np_sum (l : list R) : R := fold_left Rplus l 0.

(** [np.linspace(start, stop, num)] *)
Definition linspace (start stop : R) (num : nat) : list R :=
  let step := (stop - start) / INR (num - 1) in
  map (fun i : nat => INR i * step + start) (seq 0 num).

(** ** NumPy: the discrete Fourier transform *)

Fixpoint Csum (f : nat -> C) (n : nat) : C :=
  match n with
  | O => Czero
  | S n' => Cadd (Csum f n') (f n')
  end.

(** [np.fft.fft]: A_k = sum_m a_m exp(-2 pi i m k / n). *)
Definition fft (a : list C) : list C :=
  let n := length a in
  map (fun k : nat =>
         Csum (fun m : nat =>
                 Cmul (nth m a Czero)
                      (cis (- (2 * PI * INR m * INR k / INR n)))) n)
      (seq 0 n).

(** [np.fft.ifft]: a_m = (1/n) sum_k A_k exp(2 pi i m k / n). *)
Definition ifft (A : list C) : list C :=
  let n := length A in
  map (fun m : nat =>
         Cdivr (Csum (fun k : nat =>
                        Cmul (nth k A Czero)
                             (cis (2 * PI * INR m * INR k / INR n))) n)
               (INR n))
      (seq 0 n).

(** [np.fft.fftfreq(n, d)] for n >= 1 and n * d nonzero: the bins
    0, 1, ..., (n-1)//2, -(n//2), ..., -1, each times 1/(n d). *)
Definition fftfreq (n : nat) (d : R) : list R :=
  let val := 1 / (INR n * d) in
  let N := ((n - 1) / 2 + 1)%nat in
  map (fun k : Z => IZR k * val)
      (map Z.of_nat (seq 0 N) ++
       map (fun j : nat => (Z.of_nat j - Z.of_nat (n / 2))%Z) (seq 0 (n / 2))).

(** ** NumPy: sorting, phase unwrapping *)

(** Insert the pair before the first pair whose key is not smaller. *)
Fixpoint insert_key (k : R) (i : nat) (l : list (R * nat)) : list (R * nat) :=
  match l with
  | [] => [(k, i)]
  | (k', i') :: l' =>
      if Rle_dec k k' then (k, i) :: l else (k', i') :: insert_key k i l'
  end.

Definition sort_keys (l : list (R * nat)) : list (R * nat) :=
  fold_right (fun ki acc => insert_key (fst ki) (snd ki) acc) [] l.

(** [argsort]: the positions of the elements in ascending (stable) order. *)
Definition argsort (l : list R) : list nat :=
  map snd (sort_keys (zip l (seq 0 (length l)))).

(** [l[inds]] for an index array. *)
Definition take_inds {A : Type} (d : A) (l : list A) (inds : list nat) : list A :=
  map (fun i => nth i l d) inds.

(** [np.mod(x, p)] for p > 0. *)
Definition Rmod (x p : R) : R := x - IZR (Zfloor (x / p)) * p.

(** The correction [np.unwrap] adds for one phase increment [dd]. *)
Definition ph_correct (dd : R) : R :=
  if Rlt_dec (Rabs dd) PI then 0
  else
    let ddmod0 := Rmod (dd + PI) (2 * PI) - PI in
    let ddmod :=
      if Req_dec_T ddmod0 (- PI) then (if Rlt_dec 0 dd then PI else ddmod0)
      else ddmod0 in
    ddmod - dd.

(** [prev] is the raw phase before, [acc] the corrections summed so far. *)
Fixpoint unwrap_from (prev acc : R) (p : list R) : list R :=
  match p with
  | [] => []
  | ph :: p' =>
      let acc' := acc + ph_correct (ph - prev) in
      (ph + acc') :: unwrap_from ph acc' p'
  end.

(** [np.unwrap] *)
Definition unwrap (p : list R) : list R :=
  match p with
  | [] => []
  | ph :: p' => ph :: unwrap_from ph 0 p'
  end.

(** ** SciPy: interp1d (linear, bounds_error=True) *)

(** [np.searchsorted(x, v)] on a sorted array: the first position whose
    element is not below [v]. *)
Fixpoint searchsorted (x : list R) (v : R) : nat :=
  match x with
  | [] => O
  | a :: x' => if Rlt_dec a v then S (searchsorted x' v) else O
  end.

Definition clip (i lo hi : nat) : nat := Nat.min (Nat.max i lo) hi.

Definition below_msg : string :=
  "A value in x_new is below the interpolation range.".
Definition above_msg : string :=
  "A value in x_new is above the interpolation range.".
Definition entries_msg : string :=
  "x and y arrays must have at least 1 entries".
Definition length_msg : string :=
  "x and y arrays must be equal in length along interpolation axis.".

(** One value of the piecewise-linear interpolant. *)
Definition interp_linear (x y : list R) (x_new : R) : result R :=
  let hi := clip (searchsorted x x_new) 1 (length x - 1) in
  let lo := (hi - 1)%nat in
  let x_lo := nth lo x 0 in
  let x_hi := nth hi x 0 in
  let y_lo := nth lo y 0 in
  let y_hi := nth hi y 0 in
  if Req_dec_T (x_hi - x_lo) 0 then NonFinite
  else
    let slope := (y_hi - y_lo) / (x_hi - x_lo) in
    Ok (slope * (x_new - x_lo) + y_lo).

Fixpoint map_result {A B : Type} (f : A -> result B) (l : list A)
  : result (list B) :=
  match l with
  | [] => Ok []
  | a :: l' => do b <- f a; do bs <- map_result f l'; Ok (b :: bs)
  end.

(** [interp1d(x, y, axis=0)(x_new)] for one column [y]. *)
Definition interp1d (x y : list R) (x_new : list R) : result (list R) :=
  if negb (length x =? length y)%nat then Raise (ValueError length_msg)
  else
    let ind := argsort x in
    let x := take_inds 0 x ind in
    let y := take_inds 0 y ind in
    match x with
    | [] => Raise (ValueError entries_msg)
    | x_first :: _ =>
        let x_last := List.last x 0 in
        if existsb (fun v => Rlt_b v x_first) x_new
        then Raise (ValueError below_msg)
        else if existsb (fun v => Rgt_b v x_last) x_new
        then Raise (ValueError above_msg)
        else map_result (interp_linear x y) x_new
    end.

(** ** interp_tf

    The transfer function is a Series (one channel). *)

Definition interp_tf (new_freq : list R) (input_tf : Series R C)
  : result (Series R C) :=
  let sortinds := argsort (index input_tf) in
  let freq_sorted := take_inds 0 (index input_tf) sortinds in
  let use_tf := take_inds Czero (values input_tf) sortinds in
  do interp_mag <- interp1d freq_sorted (map Cmod use_tf) new_freq;
  do interp_phase <-
       interp1d freq_sorted (unwrap (map Carg use_tf)) new_freq;
  let interp_filt :=
    zip_with (fun mag phase => Cmul (RtoC mag) (Cexp (Cmul Ci (RtoC phase))))
             interp_mag interp_phase in
  Ok (mkSeries new_freq interp_filt).

(** ** apply_filter

    The index of the time signal holds the timestamps in seconds. *)

Definition coverage_msg : string :=
  "Error: the TF to apply does not cover the entire frequency axis needed for the signal. Please provide a TF with a higher maximum frequency.".

(** The inverse transform of the filtered spectrum, before [np.real]. *)
Definition apply_filter_complex (input_tsig : Series R R)
    (comp_filt : Series R C) : result (list C) :=
  do t1 <- getitem (index input_tsig) 1;
  do t0 <- getitem (index input_tsig) 0;
  let dt := t1 - t0 in
  let n := length (values input_tsig) in
  let input_fft :=
    map (fun z => Cdivr (Cmulr z 2) (INR n))
        (fft (map RtoC (values input_tsig))) in
  if Req_dec_T (INR n * dt) 0 then Raise ZeroDivisionError
  else
    let f_vec := fftfreq n dt in
    do f_max <- np_max f_vec;
    do filt_max <- np_max (index comp_filt);
    if Rgt_dec f_max filt_max then Raise (ValueError coverage_msg)
    else
      do interp_filt <- interp_tf f_vec comp_filt;
      let filtered_fft := zip_with Cmul input_fft (values interp_filt) in
      Ok (ifft (map (fun z => Cdivr (Cmulr z (INR n)) 2) filtered_fft)).

Definition apply_filter (input_tsig : Series R R) (comp_filt : Series R C)
  : result (Series R R) :=
  do filtered_sig <- apply_filter_complex input_tsig comp_filt;
  let filtered_sig := map Cre filtered_sig in
  Ok (mkSeries (index input_tsig) filtered_sig).

(** ** plant1d_to_camfilter *)

Definition plant1d_to_camfilter (plant x_plant : list R) (cloud_speed : R)
  : result (Series R C) :=
  do x1 <- getitem x_plant 1;
  do x0 <- getitem x_plant 0;
  let dx := x1 - x0 in
  if Req_dec_T (np_sum plant) 0 then NonFinite
  else
    let plant := map (fun p => p / np_sum plant) plant in
    let camfilt := fft (map RtoC plant) in
    if Req_dec_T (Rabs cloud_speed) 0 then NonFinite
    else
      let spatialdt := dx / Rabs cloud_speed in
      if Req_dec_T (INR (length plant) * spatialdt) 0 then NonFinite
      else
        let camfreq := fftfreq (length plant) spatialdt in
        do x_min <- np_min x_plant;
        let t_delay := x_min / cloud_speed in
        let shift (delay : R) (z : C) (f : R) : C :=
          Cmul z (Cexp (Cmul (Cmul (Cmul Ci (RtoC f)) (RtoC (2 * PI)))
                             (RtoC delay))) in
        let camfilt :=
          if Rgt_dec cloud_speed 0
          then zip_with (shift t_delay) camfilt camfreq
          else map Cconj (zip_with (shift (- t_delay)) camfilt camfreq) in
        Ok (mkSeries camfreq camfilt).

(** ** get_marcosfilter

    The conversion of a value to NumPy's complex64 is a parameter. *)

Section Marcos.
Variable to_complex64 : C -> C.

Definition get_marcosfilter (s : R) (freq : option (list R))
  : result (Series R C) :=
  let freq :=
    match freq with
    | None => linspace 0 0.5 100
    | Some freq => freq
    end in
  let k := 1 in
  if Rle_dec s 0 then NonFinite
  else
    let fc := 0.02 / sqrt s in
    let filt :=
      map (fun f => Cdiv (RtoC k)
                         (Cadd (Cdivr (Cmul Ci (RtoC f)) fc) (RtoC 1)))
          freq in
    Ok (mkSeries freq (map to_complex64 filt)).
End Marcos.

(** ** SciPy: averaged spectral estimates

    [get_window] resolves a window name to its samples and [detrend_func]
    removes the trend of the named type from one segment; both are
    parameters of the embedding. *)

(** [int(x)]: truncation toward zero. *)
Definition py_int (x : R) : Z := if Rle_dec 0 x then Zfloor x else Zceil x.

(** A float division whose outcome may be non-finite. *)
Definition fdiv (a b : R) : option R :=
  if Req_dec_T b 0 then None else Some (a / b).

(** A complex number divided by a float. *)
Definition cdiv (z : C) (b : R) : option C :=
  if Req_dec_T b 0 then None else Some (Cdivr z b).

(** [np.fft.rfft] of a real array: the bins 0 .. n//2. *)
Definition rfft (x : list R) : list C :=
  firstn (length x / 2 + 1) (fft (map RtoC x)).

(** [np.fft.rfftfreq(n, d)] *)
Definition rfftfreq (n : nat) (d : R) : list R :=
  map (fun k : nat => INR k * (1 / (INR n * d))) (seq 0 (n / 2 + 1)).

(** The windows of [nperseg] samples that start every [nstep] samples. *)
Definition segments (x : list R) (nperseg nstep : nat) : list (list R) :=
  map (fun s : nat => firstn nperseg (skipn (s * nstep) x))
      (seq 0 ((length x - nperseg) / nstep + 1)).

(** The factor of the one-sided spectrum at bin [k]: every bin but the
    first, and but the last when [nfft] is even, is doubled. *)
Definition onesided_factor (nfft k : nat) : R :=
  if (k =? 0)%nat then 1
  else if Nat.even nfft && (k =? nfft / 2)%nat then 1
  else 2.

Definition nperseg_msg : string := "nperseg must be a positive integer".
Definition noverlap_msg : string := "noverlap must be less than nperseg.".
Definition scaling_msg : string := "Unknown scaling".

(** The DataFrame with the columns 'tf' and 'coh'. *)
Record TFFrame : Type := mkTFFrame {
  tf_index : list R;
  tf : list (option C);
  coh : list (option R)
}.

Section Spectral.
Variable get_window : string -> nat -> result (list R).
Variable detrend_func : string -> list R -> result (list R).

(** Detrended, windowed and transformed segments of [x]. *)
Definition fft_helper (x win : list R) (detrend : string)
    (nperseg nstep : nat) : result (list (list C)) :=
  map_result
    (fun seg => do d <- detrend_func detrend seg;
                Ok (rfft (zip_with Rmult win d)))
    (segments x nperseg nstep).

(** The frequencies and, for every segment, the scaled one-sided cross
    spectrum conj(X) * Y. *)
Definition spectral_helper (x y : list R) (fs : R) (window : string)
    (nperseg noverlap : Z) (detrend scaling : string)
  : result (list R * list (list C)) :=
  match x, y with
  | [], _ | _, [] => Ok ([], [])
  | _, _ =>
      let n := Nat.max (length x) (length y) in
      let x := x ++ repeat 0 (n - length x) in
      let y := y ++ repeat 0 (n - length y) in
      if (nperseg <? 1)%Z then Raise (ValueError nperseg_msg)
      else
        let nperseg := Nat.min (Z.to_nat nperseg) n in
        do win <- get_window window nperseg;
        if (Z.of_nat nperseg <=? noverlap)%Z
        then Raise (ValueError noverlap_msg)
        else
          let nstep := Z.to_nat (Z.of_nat nperseg - noverlap) in
          do scale <-
               (if String.eqb scaling "density" then
                  let d := fs * np_sum (zip_with Rmult win win) in
                  if Req_dec_T d 0 then NonFinite else Ok (1 / d)
                else if String.eqb scaling "spectrum" then
                  let d := np_sum win ^ 2 in
                  if Req_dec_T d 0 then NonFinite else Ok (1 / d)
                else Raise (ValueError scaling_msg));
          let freqs := rfftfreq nperseg (1 / fs) in
          do result_x <- fft_helper x win detrend nperseg nstep;
          do result_y <- fft_helper y win detrend nperseg nstep;
          let cross (sx sy : list C) : list C :=
            imap (fun k z => Cmulr (Cmulr z scale)
                                   (onesided_factor nperseg k))
                 (zip_with (fun a b => Cmul (Cconj a) b) sx sy) in
          Ok (freqs, zip_with cross result_x result_y)
  end.

(** The mean over the segments, bin by bin. *)
Definition segment_mean (nfreq : nat) (P : list (list C)) : list C :=
  match P with
  | [] => []
  | [p] => p
  | _ =>
      map (fun k : nat =>
             Cdivr (Csum (fun s => nth k (nth s P []) Czero) (length P))
                   (INR (length P)))
          (seq 0 nfreq)
  end.

(** [scipy.signal.csd] *)
Definition csd (x y : list R) (fs : R) (window : string)
    (nperseg noverlap : Z) (detrend scaling : string)
  : result (list R * list C) :=
  do fP <- spectral_helper x y fs window nperseg noverlap detrend scaling;
  Ok (fst fP, segment_mean (length (fst fP)) (snd fP)).

(** [scipy.signal.welch] *)
Definition welch (x : list R) (fs : R) (window : string)
    (nperseg noverlap : Z) (detrend scaling : string)
  : result (list R * list R) :=
  do fP <- csd x x fs window nperseg noverlap detrend scaling;
  Ok (fst fP, map Cre (snd fP)).

(** [scipy.signal.coherence] *)
Definition coherence (x y : list R) (fs : R) (window : string)
    (nperseg noverlap : Z) (detrend : string)
  : result (list R * list (option R)) :=
  do fPxx <- welch x fs window nperseg noverlap detrend "density";
  do fPyy <- welch y fs window nperseg noverlap detrend "density";
  do fPxy <- csd x y fs window nperseg noverlap detrend "density";
  let Cxy :=
    zip_with (fun pxy pp =>
                match fdiv (Cmod pxy ^ 2) (fst pp) with
                | Some q => fdiv q (snd pp)
                | None => None
                end)
             (snd fPxy) (zip (snd fPxx) (snd fPyy)) in
  Ok (fst fPxx, Cxy).

(** ** averaged_psd, averaged_tf *)

Definition averaged_psd (input_tsig : Series R R) (navgs : Z)
    (overlap : R) (window detrend scaling : string)
  : result (Series R R) :=
  do t1 <- getitem (index input_tsig) 1;
  do t0 <- getitem (index input_tsig) 0;
  let dt := t1 - t0 in
  if Req_dec_T dt 0 then Raise ZeroDivisionError
  else
    let fs := 1 / dt in
    if (navgs =? 0)%Z then Raise ZeroDivisionError
    else
      let nperseg := (Z.of_nat (length (values input_tsig)) / navgs)%Z in
      let noverlap := py_int (IZR nperseg * overlap) in
      do fp <- welch (values input_tsig) fs window nperseg noverlap
                     detrend scaling;
      Ok (mkSeries (fst fp) (snd fp)).

Definition averaged_tf (input_tsig output_tsig : Series R R) (navgs : Z)
    (overlap : R) (window detrend : string) : result TFFrame :=
  do t1 <- getitem (index input_tsig) 1;
  do t0 <- getitem (index input_tsig) 0;
  let dt := t1 - t0 in
  if Req_dec_T dt 0 then Raise ZeroDivisionError
  else
    let fs := 1 / dt in
    if (navgs =? 0)%Z then Raise ZeroDivisionError
    else
      let nperseg := (Z.of_nat (length (values input_tsig)) / navgs)%Z in
      let noverlap := py_int (IZR nperseg * overlap) in
      do psdxx <- averaged_psd input_tsig navgs overlap window detrend
                               "density";
      do csdxy <- csd (values input_tsig) (values output_tsig) fs window
                      nperseg noverlap detrend "density";
      let tf := zip_with cdiv (snd csdxy) (values psdxx) in
      do fcoh <- coherence (values input_tsig) (values output_tsig) fs
                           window nperseg noverlap detrend;
      Ok (mkTFFrame (index psdxx) tf (snd fcoh)).
End Spectral.

(** One bin of the scaled one-sided spectrum of a segment against
    itself. *)
Definition self_bin (scale : R) (nperseg k : nat) (z : C) : C :=
  Cmulr (Cmulr (Cmul (Cconj z) z) scale) (onesided_factor nperseg k).

(** ** Maxima in the words of the specification *)

(** [m] is the largest element of [l]. *)
Definition is_max (m : R) (l : list R) : Prop :=
  In m l /\ Forall (fun x => x <= m) l.

(** [m] is the smallest element of [l]. *)
Definition is_min (m : R) (l : list R) : Prop :=
  In m l /\ Forall (fun x => m <= x) l.

(** ** Order of the sorted pairs *)

Definition key_le (a b : R * nat) : Prop := fst a <= fst b.

(** ** Example data *)

Definition spectrum3 : Series label R :=
  mkSeries [Some 0; Some (1/4); Some (-(1/4))] [1; 2; 3].

Definition empty_spectrum : Series label R := mkSeries [] [].

Definition nonempty_heap : heap R := {[ 0%nat := spectrum3 ]}.
Definition empty_index_heap : heap R := {[ 0%nat := empty_spectrum ]}.

(** Four samples one second apart. *)
Definition sig4 : Series R R := mkSeries [0; 1; 2; 3] [0; 0; 0; 0].

(** Unity filters on the frequency ranges [-10, 0.1] and [-0.3, 0.3]. *)
Definition filt_wide : Series R C := mkSeries [-10; 0.1] [Cone; Cone].
Definition filt_narrow : Series R C := mkSeries [-0.3; 0.3] [Cone; Cone].

(** A density with all its mass (3 units) in the second of four cells. *)
Definition point_plant : list R := [0; 3; 0; 0].
Definition point_x : list R := [-2; -1; 0; 1].

(** A unity filter on the frequencies -1/2, 0, 1/2. *)
Definition filt_unity : Series R C :=
  mkSeries [-(1 / 2); 0; 1 / 2] [Cone; Cone; Cone].

(** Four samples one second apart. *)
Definition sig4_ramp : Series R R := mkSeries [0; 1; 2; 3] [5; 7; 6; 2].

(** SciPy's [get_window] on the name "boxcar" (all ones), and SciPy's
    [detrend] of type "constant" (the mean is removed); other names are
    not covered by these two instances. *)
Definition boxcar_window (window : string) (nx : nat) : result (list R) :=
  if String.eqb window "boxcar" then Ok (repeat 1 nx)
  else Raise (ValueError "Unknown window type.").

Definition constant_detrend (type : string) (seg : list R)
  : result (list R) :=
  if String.eqb type "constant"
  then Ok (map (fun v => v - np_sum seg / INR (length seg)) seg)
  else Raise (ValueError "Trend type must be 'linear' or 'constant'.").

(** The phase shift plant1d_to_camfilter applies to one bin. *)
Definition cam_shift (delay : R) (z : C) (f : R) : C :=
  Cmul z (Cexp (Cmul (Cmul (Cmul Ci (RtoC f)) (RtoC (2 * PI))) (RtoC delay))).

(** * Properties *)

(** ** cleanfreq *)

Section CleanfreqFacts.
Context {V : Type}.
Implicit Types (h : heap V) (s : Series label V).

Lemma half_lt_length (n : nat) : (0 < n)%nat -> (n / 2 < n)%nat.
Proof. intros Hn. apply Nat.div_lt; lia. Qed.

Lemma cleanfreq_nonempty h sig s :
  h !! sig = Some s ->
  (0 < length (index s))%nat ->
  cleanfreq sig h =
    Ok (PyNone,
        <[sig := mkSeries (<[(length (index s) / 2)%nat := None]> (index s))
                          (values s)]> h).
Proof.
  intros Hs Hn. unfold cleanfreq, list_setitem. rewrite Hs. simpl.
  destruct (decide _) as [|Hge]; [reflexivity|].
  exfalso. apply Hge. now apply half_lt_length.
Qed.

Lemma cleanfreq_empty h sig s :
  h !! sig = Some s ->
  index s = [] ->
  cleanfreq sig h = Raise IndexError.
Proof.
  intros Hs He. unfold cleanfreq, list_setitem. rewrite Hs, He. reflexivity.
Qed.
End CleanfreqFacts.

(** C9 (as stated) fails on a spectrum with an empty index: the item
    assignment [idxlist[0] = None] raises IndexError, so the call
    completes with no adjusted spectrum at all. *)
Lemma cleanfreq_C9_empty_index_raises :
  cleanfreq 0%nat empty_index_heap = Raise IndexError
  /\ ~ (exists v h', cleanfreq 0%nat empty_index_heap
                     = Ok (v, h')).
Proof.
  assert (E : cleanfreq 0%nat empty_index_heap
              = Raise IndexError).
  { apply (cleanfreq_empty _ _ empty_spectrum); [|reflexivity].
    apply lookup_singleton_eq. }
  split; [exact E|]. intros (v & h' & H). rewrite E in H. discriminate.
Qed.

(** C9 (amended): for a spectrum whose frequency index has length N >= 1,
    cleanfreq completes; afterwards the index still has length N, its
    element at position N//2 is the null marker, every other index
    element is the one that was there before, and the data values are
    those of the input. *)
Theorem cleanfreq_C9_axis_cleanup {V : Type} (h : heap V) sig s :
  h !! sig = Some s ->
  (0 < length (index s))%nat ->
  exists v h' s',
    cleanfreq sig h = Ok (v, h') /\
    h' !! sig = Some s' /\
    length (index s') = length (index s) /\
    index s' !! (length (index s) / 2)%nat = Some None /\
    (forall i, i <> (length (index s) / 2)%nat ->
               index s' !! i = index s !! i) /\
    values s' = values s.
Proof.
  intros Hs Hn.
  eexists _, _, _. split; [apply (cleanfreq_nonempty h sig s Hs Hn)|].
  split; [apply lookup_insert_eq|]. simpl.
  split; [apply length_insert|].
  split; [apply list_lookup_insert_eq; now apply half_lt_length|].
  split; [|reflexivity].
  intros i Hi. apply list_lookup_insert_ne. congruence.
Qed.

Lemma cleanfreq_C9_axis_cleanup_witness :
  exists v h' s',
    cleanfreq 0%nat nonempty_heap = Ok (v, h') /\
    h' !! 0%nat = Some s' /\
    length (index s') = length (index spectrum3) /\
    index s' !! (length (index spectrum3) / 2)%nat = Some None /\
    (forall i, i <> (length (index spectrum3) / 2)%nat ->
               index s' !! i = index spectrum3 !! i) /\
    values s' = values spectrum3.
Proof.
  apply (cleanfreq_C9_axis_cleanup _ 0%nat spectrum3).
  - apply lookup_singleton_eq.
  - simpl. lia.
Defined.

(** C10 (as stated) fails on a spectrum with an empty index: the call
    raises IndexError, it does not return None. *)
Lemma cleanfreq_C10_empty_does_not_return :
  (exists e, cleanfreq 0%nat empty_index_heap = Raise e) /\
  ~ (exists h', cleanfreq 0%nat empty_index_heap = Ok (PyNone, h')).
Proof.
  assert (E : cleanfreq 0%nat empty_index_heap = Raise IndexError).
  { apply (cleanfreq_empty empty_index_heap 0%nat empty_spectrum).
    - apply lookup_singleton_eq.
    - reflexivity. }
  split; [now exists IndexError|].
  intros [h' H]. rewrite E in H. discriminate.
Qed.

(** C10 (amended): for every spectrum with a non-empty index, cleanfreq
    returns None, never a reference to a spectrum; the adjusted spectrum
    is the object its argument refers to, updated in the heap, so every
    alias of the argument sees it; no other object changes. *)
Theorem cleanfreq_C10_in_place {V : Type} (h : heap V) sig s :
  h !! sig = Some s ->
  (0 < length (index s))%nat ->
  exists h',
    cleanfreq sig h = Ok (PyNone, h') /\
    (forall alias, alias = sig ->
       h' !! alias =
         Some (mkSeries (<[(length (index s) / 2)%nat := None]> (index s))
                        (values s))) /\
    (forall other, other <> sig -> h' !! other = h !! other) /\
    (forall v h'', cleanfreq sig h = Ok (v, h'') -> v <> PyRef sig).
Proof.
  intros Hs Hn. pose proof (cleanfreq_nonempty h sig s Hs Hn) as E.
  eexists. split; [exact E|]. split; [|split].
  - intros alias ->. apply lookup_insert_eq.
  - intros other Ho. apply lookup_insert_ne. congruence.
  - intros v h'' H. rewrite E in H. inversion H. discriminate.
Qed.

Lemma cleanfreq_C10_in_place_witness :
  exists h',
    cleanfreq 0%nat nonempty_heap = Ok (PyNone, h') /\
    (forall alias, alias = 0%nat ->
       h' !! alias =
         Some (mkSeries (<[(length (index spectrum3) / 2)%nat := None]>
                           (index spectrum3))
                        (values spectrum3))) /\
    (forall other, other <> 0%nat -> h' !! other = nonempty_heap !! other) /\
    (forall v h'', cleanfreq 0%nat nonempty_heap = Ok (v, h'') ->
                   v <> PyRef 0%nat).
Proof.
  apply (cleanfreq_C10_in_place nonempty_heap 0%nat spectrum3).
  - apply lookup_singleton_eq.
  - simpl. lia.
Defined.

(** ** Comparisons *)

Lemma Rge_b_true x y : Rge_b x y = true <-> y <= x.
Proof.
  unfold Rge_b. destruct (Rge_dec x y); split; intros; try easy; try lra.
Qed.

Lemma Rlt_b_true x y : Rlt_b x y = true <-> x < y.
Proof.
  unfold Rlt_b. destruct (Rlt_dec x y); split; intros; try easy; try lra.
Qed.

Lemma in_span_b_true w c x : in_span_b w c x = true <-> in_span w c x.
Proof.
  unfold in_span_b, in_span.
  rewrite andb_true_iff, Rge_b_true, Rlt_b_true. tauto.
Qed.

Lemma in_span_b_false w c x : in_span_b w c x = false <-> ~ in_span w c x.
Proof.
  rewrite <- in_span_b_true. destruct (in_span_b w c x); split; congruence.
Qed.

(** ** arange *)

Lemma lookup_map_seq {A : Type} (f : nat -> A) (n i : nat) :
  map f (seq 0 n) !! i = if decide (i < n)%nat then Some (f i) else None.
Proof.
  change (map f (seq 0 n)) with (f <$> seq 0 n).
  rewrite list_lookup_fmap.
  destruct (decide (i < n)%nat) as [Hi|Hi].
  - rewrite lookup_seq_lt by exact Hi. reflexivity.
  - rewrite lookup_seq_ge by lia. reflexivity.
Qed.

Lemma arange_nonzero start stop step :
  step <> 0 ->
  arange start stop step =
    Ok (map (fun i : nat => start + INR i * step)
            (seq 0 (Z.to_nat (Zceil ((stop - start) / step))))).
Proof.
  intros Hs. unfold arange. destruct (Req_dec_T step 0); [contradiction|].
  reflexivity.
Qed.

(** The number of values of [arange]: the indices whose value lies
    strictly below [stop]. *)
Lemma arange_count start stop step (i : nat) :
  0 < step ->
  (i < Z.to_nat (Zceil ((stop - start) / step)))%nat <->
  start + INR i * step < stop.
Proof.
  intros Hs.
  set (q := (stop - start) / step).
  assert (Hq : start + INR i * step < stop <-> INR i < q).
  { unfold q. split; intros H.
    - apply Rmult_lt_reg_r with step; [exact Hs|].
      unfold Rdiv. rewrite Rmult_assoc, Rinv_l by lra. lra.
    - apply Rmult_lt_compat_r with (r := step) in H; [|exact Hs].
      unfold Rdiv in H. rewrite Rmult_assoc, Rinv_l in H by lra. lra. }
  rewrite Hq. destruct (Zceil_bound q) as [Hlo Hhi].
  rewrite INR_IZR_INZ. split; intros H.
  - assert (Hz : (Z.of_nat i <= Zceil q - 1)%Z) by lia.
    apply IZR_le in Hz. rewrite minus_IZR in Hz. lra.
  - assert (Hz : (Z.of_nat i < Zceil q)%Z).
    { apply lt_IZR. lra. }
    lia.
Qed.

(** ** Masked assignment *)

Lemma setmask_scalar_length plant inds v :
  length (setmask_scalar plant inds v) = length plant.
Proof.
  revert inds. induction plant as [|p plant IH]; intros [|b inds]; simpl;
    try reflexivity. now rewrite IH.
Qed.

Lemma setmask_scalar_lookup (plant : list R) (inds : list bool) v (i : nat)
    (p : R) (b : bool) :
  plant !! i = Some p -> inds !! i = Some b ->
  setmask_scalar plant inds v !! i = Some (if b then v else p).
Proof.
  revert inds i. induction plant as [|p0 plant IH]; intros [|b0 inds] [|i];
    simpl; intros Hp Hb; try discriminate.
  - now inversion Hp; inversion Hb.
  - now apply IH.
Qed.

(** Assigning [g(x_vec[inds])] under the mask [inds = m(x_vec)] writes
    [g x] in the cells where [m x] holds and keeps the others. *)
Lemma setmask_compress_length (m : R -> bool) (g : R -> R) x_vec plant :
  length (setmask plant (map m x_vec) (map g (compress (map m x_vec) x_vec)))
  = length plant.
Proof.
  revert plant. induction x_vec as [|x x_vec IH]; intros [|p plant]; simpl;
    try reflexivity.
  destruct (m x); simpl; now rewrite IH.
Qed.

Lemma setmask_compress_lookup (m : R -> bool) (g : R -> R)
    (x_vec plant : list R) (i : nat) (p x : R) :
  plant !! i = Some p -> x_vec !! i = Some x ->
  setmask plant (map m x_vec) (map g (compress (map m x_vec) x_vec)) !! i
  = Some (if m x then g x else p).
Proof.
  revert plant i. induction x_vec as [|x0 x_vec IH]; intros [|p0 plant] [|i];
    simpl; intros Hp Hx; try discriminate.
  - inversion Hp; inversion Hx; subst. now destruct (m x).
  - destruct (m x0); simpl; now apply IH.
Qed.

Lemma span_mask_lookup (x_vec : list R) c w (i : nat) (x : R) :
  x_vec !! i = Some x -> span_mask x_vec c w !! i = Some (in_span_b w c x).
Proof.
  intros Hx. unfold span_mask.
  change (map ?f x_vec) with (f <$> x_vec).
  rewrite list_lookup_fmap, Hx. reflexivity.
Qed.

(** ** One site placed on the grid *)

Lemma square_step_length x_vec w plant c :
  length (square_step x_vec w plant c) = length plant.
Proof. apply setmask_scalar_length. Qed.

Lemma square_step_lookup (x_vec : list R) w (plant : list R) c (i : nat)
    (p x : R) :
  plant !! i = Some p -> x_vec !! i = Some x ->
  square_step x_vec w plant c !! i = Some (if in_span_b w c x then 1 else p).
Proof.
  intros Hp Hx. unfold square_step.
  apply setmask_scalar_lookup; [exact Hp|]. now apply span_mask_lookup.
Qed.

Lemma triangle_step_length x_vec w plant c :
  length (triangle_step x_vec w plant c) = length plant.
Proof. apply setmask_compress_length. Qed.

Lemma triangle_step_lookup (x_vec : list R) w (plant : list R) c (i : nat)
    (p x : R) :
  plant !! i = Some p -> x_vec !! i = Some x ->
  triangle_step x_vec w plant c !! i
  = Some (if in_span_b w c x then x - c + w / 2 else p).
Proof.
  intros Hp Hx. unfold triangle_step, span_mask.
  apply (setmask_compress_lookup
           (fun x => Rge_b x (c - w / 2) && Rlt_b x (c + w / 2))
           (fun x => x - c + w / 2) x_vec plant i p x Hp Hx).
Qed.

Lemma gaussian_step_ok x_vec w plant c :
  w <> 0 ->
  gaussian_step x_vec w plant c =
    Ok (zip_with Rplus plant (map (gaussian_bump w c) x_vec)).
Proof.
  intros Hw. unfold gaussian_step.
  destruct (Req_dec_T _ _) as [E|_]; [|reflexivity].
  exfalso. assert (H : w / 2.355 <> 0).
  { unfold Rdiv. apply Rmult_integral_contrapositive. split; [exact Hw|].
    apply Rinv_neq_0_compat. lra. }
  assert (0 < (w / 2.355) ^ 2) by (apply pow_nonzero with (n := 2%nat) in H;
    pose proof (pow2_ge_0 (w / 2.355)); lra). lra.
Qed.

Lemma last_placed_snoc w x cs c :
  last_placed w x (cs ++ [c]) =
    if in_span_b w c x then Some c else last_placed w x cs.
Proof. unfold last_placed. rewrite rev_unit. reflexivity. Qed.

(** ** All sites placed: overwriting shapes *)

Lemma lookup_repeat_zero (n i : nat) :
  (i < n)%nat -> repeat 0 n !! i = Some 0.
Proof.
  revert i. induction n as [|n IH]; intros [|i] Hi; simpl; try lia;
    [reflexivity|]. apply IH. lia.
Qed.

Lemma fold_square_lookup (x_vec : list R) w cs (plant : list R) (i : nat)
    (p x : R) :
  plant !! i = Some p -> x_vec !! i = Some x ->
  fold_left (square_step x_vec w) cs plant !! i
  = Some (match last_placed w x cs with Some _ => 1 | None => p end).
Proof.
  intros Hp Hx. induction cs as [|c cs IH] using rev_ind; [exact Hp|].
  rewrite fold_left_app, last_placed_snoc. simpl.
  rewrite (square_step_lookup _ _ _ _ _ _ _ IH Hx).
  destruct (in_span_b w c x); [reflexivity|].
  destruct (last_placed w x cs); reflexivity.
Qed.

Lemma fold_square_length x_vec w cs plant :
  length (fold_left (square_step x_vec w) cs plant) = length plant.
Proof.
  revert plant. induction cs as [|c cs IH]; intros plant; simpl;
    [reflexivity|]. rewrite IH. apply square_step_length.
Qed.

Lemma fold_triangle_lookup (x_vec : list R) w cs (plant : list R) (i : nat)
    (p x : R) :
  plant !! i = Some p -> x_vec !! i = Some x ->
  fold_left (triangle_step x_vec w) cs plant !! i
  = Some (match last_placed w x cs with
          | Some c => x - c + w / 2
          | None => p
          end).
Proof.
  intros Hp Hx. induction cs as [|c cs IH] using rev_ind; [exact Hp|].
  rewrite fold_left_app, last_placed_snoc. simpl.
  rewrite (triangle_step_lookup _ _ _ _ _ _ _ IH Hx).
  destruct (in_span_b w c x); reflexivity.
Qed.

Lemma fold_triangle_length x_vec w cs plant :
  length (fold_left (triangle_step x_vec w) cs plant) = length plant.
Proof.
  revert plant. induction cs as [|c cs IH]; intros plant; simpl;
    [reflexivity|]. rewrite IH. apply triangle_step_length.
Qed.

(** ** All sites placed: the accumulating shape *)

Lemma zip_plus_lookup (plant : list R) (g : R -> R) (x_vec : list R)
    (i : nat) (p x : R) :
  plant !! i = Some p -> x_vec !! i = Some x ->
  zip_with Rplus plant (map g x_vec) !! i = Some (p + g x).
Proof.
  intros Hp Hx. rewrite lookup_zip_with, Hp. simpl.
  change (map g x_vec) with (g <$> x_vec).
  rewrite list_lookup_fmap, Hx. reflexivity.
Qed.

Lemma zip_plus_length (plant : list R) (g : R -> R) x_vec :
  length plant = length x_vec ->
  length (zip_with Rplus plant (map g x_vec)) = length x_vec.
Proof.
  intros Hl. rewrite length_zip_with, length_map. lia.
Qed.

Lemma for_each_gaussian (x_vec : list R) w cs (plant : list R) :
  w <> 0 -> length plant = length x_vec ->
  exists plant',
    for_each (gaussian_step x_vec w) cs plant = Ok plant' /\
    length plant' = length x_vec /\
    forall (i : nat) (p x : R),
      plant !! i = Some p -> x_vec !! i = Some x ->
      plant' !! i = Some (p + gaussian_value w x cs).
Proof.
  intros Hw. revert plant. induction cs as [|c cs IH]; intros plant Hl.
  - exists plant. split; [reflexivity|]. split; [exact Hl|].
    intros i p x Hp _. rewrite Hp. unfold gaussian_value. simpl.
    f_equal. lra.
  - simpl. rewrite (gaussian_step_ok _ _ _ _ Hw). simpl.
    destruct (IH (zip_with Rplus plant (map (gaussian_bump w c) x_vec)))
      as (plant' & E & Hlen & Hval).
    { now apply zip_plus_length. }
    exists plant'. split; [exact E|]. split; [exact Hlen|].
    intros i p x Hp Hx.
    rewrite (Hval i _ x (zip_plus_lookup _ _ _ _ _ _ Hp Hx) Hx).
    unfold gaussian_value. simpl. f_equal. lra.
Qed.

(** ** get_1d_plant as a whole *)

Lemma get_1d_plant_square centers ref_center width shape dx xmax :
  dx <> 0 -> lower shape = "square"%string ->
  get_1d_plant centers ref_center width shape dx xmax =
    Ok (fold_left (square_step (plant_grid dx xmax) (plant_width width dx))
                  (map (fun c => c - ref_center) centers)
                  (repeat 0 (length (plant_grid dx xmax))),
        plant_grid dx xmax).
Proof.
  intros Hdx Hs. unfold get_1d_plant.
  rewrite (arange_nonzero _ _ _ Hdx). simpl. rewrite Hs. reflexivity.
Qed.

Lemma get_1d_plant_triangle centers ref_center width shape dx xmax :
  dx <> 0 -> lower shape = "triangle"%string ->
  get_1d_plant centers ref_center width shape dx xmax =
    Ok (fold_left (triangle_step (plant_grid dx xmax) (plant_width width dx))
                  (map (fun c => c - ref_center) centers)
                  (repeat 0 (length (plant_grid dx xmax))),
        plant_grid dx xmax).
Proof.
  intros Hdx Hs. unfold get_1d_plant.
  rewrite (arange_nonzero _ _ _ Hdx). simpl. rewrite Hs. reflexivity.
Qed.

Lemma get_1d_plant_gaussian centers ref_center width shape dx xmax :
  dx <> 0 -> lower shape = "gaussian"%string ->
  get_1d_plant centers ref_center width shape dx xmax =
    (do plant' <- for_each
                    (gaussian_step (plant_grid dx xmax) (plant_width width dx))
                    (map (fun c => c - ref_center) centers)
                    (repeat 0 (length (plant_grid dx xmax)));
     Ok (plant', plant_grid dx xmax)).
Proof.
  intros Hdx Hs. unfold get_1d_plant.
  rewrite (arange_nonzero _ _ _ Hdx). simpl. rewrite Hs. reflexivity.
Qed.

Lemma plant_grid_lookup dx xmax (i : nat) (v : R) :
  0 < dx ->
  plant_grid dx xmax !! i = Some v <->
  v = floordiv2 (- xmax) + INR i * dx /\ v < floordiv2 xmax.
Proof.
  intros Hdx. unfold plant_grid. rewrite lookup_map_seq.
  destruct (decide _) as [Hi|Hi]; rewrite arange_count in Hi by exact Hdx.
  - split.
    + intros H. inversion H. subst v. split; [reflexivity|exact Hi].
    + intros [-> _]. reflexivity.
  - split; [discriminate|]. intros [-> H]. contradiction.
Qed.

Lemma repeat_zero_at_grid (x_vec : list R) (i : nat) (x : R) :
  x_vec !! i = Some x -> repeat 0 (length x_vec) !! i = Some 0.
Proof. intros H. apply lookup_repeat_zero. now apply lookup_lt_Some in H. Qed.

Lemma floordiv2_even (k : Z) : floordiv2 (IZR (2 * k)) = IZR k.
Proof.
  unfold floordiv2. f_equal. apply Zfloor_eq. rewrite mult_IZR. lra.
Qed.

Lemma floordiv2_odd (k : Z) : floordiv2 (IZR (2 * k + 1)) = IZR k.
Proof.
  unfold floordiv2. f_equal. apply Zfloor_eq.
  rewrite plus_IZR, mult_IZR. lra.
Qed.

(** C8 (as stated) fails for an odd extent: with xmax = 5 and dx = 1 the
    grid is -3, -2, -1, 0, 1.  It starts at -3, not at -5/2, and the
    value 2 of the progression, though strictly below +5/2, is absent. *)
Lemma get_1d_plant_C8_odd_extent :
  exists plant x_vec,
    get_1d_plant [] 0 None "square" 1 5 = Ok (plant, x_vec) /\
    x_vec !! 0%nat = Some (-3) /\
    -3 <> - (5 / 2) /\
    -3 + INR 5 * 1 < 5 / 2 /\
    (forall i : nat, x_vec !! i <> Some (-3 + INR 5 * 1)).
Proof.
  assert (Hlo : floordiv2 (Ropp 5) = -3).
  { rewrite <- opp_IZR. exact (floordiv2_odd (-3)). }
  assert (Hhi : floordiv2 5 = 2).
  { exact (floordiv2_odd 2). }
  eexists _, _. split.
  { apply get_1d_plant_square; [lra|reflexivity]. }
  split; [|split; [|split]].
  - apply plant_grid_lookup; [lra|]. rewrite Hlo, Hhi. simpl. lra.
  - lra.
  - simpl. lra.
  - intros i H. apply plant_grid_lookup in H; [|lra].
    rewrite Hhi in H. simpl in H. lra.
Qed.

(** C8 (amended): for every extent xmax and step dx > 0 (and a supported
    shape), the position grid of get_1d_plant starts at floor(-xmax/2),
    advances in uniform steps of dx, and contains exactly the values of
    that progression strictly below floor(xmax/2); the two bounds are
    -xmax/2 and +xmax/2 when xmax is an even integer. *)
Theorem get_1d_plant_C8_grid centers ref_center width shape dx xmax :
  0 < dx ->
  lower shape = "square"%string \/ lower shape = "triangle"%string \/
    (lower shape = "gaussian"%string /\ plant_width width dx <> 0) ->
  exists plant x_vec,
    get_1d_plant centers ref_center width shape dx xmax = Ok (plant, x_vec) /\
    (forall (i : nat) (v : R),
        x_vec !! i = Some v <->
        v = floordiv2 (- xmax) + INR i * dx /\ v < floordiv2 xmax) /\
    (forall k : Z, xmax = IZR (2 * k) ->
        floordiv2 (- xmax) = - (xmax / 2) /\ floordiv2 xmax = xmax / 2).
Proof.
  intros Hdx Hshape.
  assert (Hdx0 : dx <> 0) by lra.
  assert (Heven : forall k : Z, xmax = IZR (2 * k) ->
            floordiv2 (- xmax) = - (xmax / 2) /\ floordiv2 xmax = xmax / 2).
  { intros k ->. split.
    - rewrite <- opp_IZR. replace (- (2 * k))%Z with (2 * (- k))%Z by lia.
      rewrite floordiv2_even, opp_IZR, !mult_IZR. lra.
    - rewrite floordiv2_even, mult_IZR. lra. }
  destruct Hshape as [Hs|[Hs|[Hs Hw]]].
  - eexists _, _. split; [now apply get_1d_plant_square|].
    split; [|exact Heven]. intros i v. now apply plant_grid_lookup.
  - eexists _, _. split; [now apply get_1d_plant_triangle|].
    split; [|exact Heven]. intros i v. now apply plant_grid_lookup.
  - destruct (for_each_gaussian (plant_grid dx xmax) (plant_width width dx)
                (map (fun c => c - ref_center) centers)
                (repeat 0 (length (plant_grid dx xmax))) Hw)
      as (plant' & E & _).
    { apply repeat_length. }
    exists plant', (plant_grid dx xmax). split.
    + rewrite get_1d_plant_gaussian by assumption. rewrite E. reflexivity.
    + split; [|exact Heven]. intros i v. now apply plant_grid_lookup.
Qed.

Lemma get_1d_plant_C8_grid_witness :
  exists plant x_vec,
    get_1d_plant [0] 0 None "square" 1 100 = Ok (plant, x_vec) /\
    (forall (i : nat) (v : R),
        x_vec !! i = Some v <->
        v = floordiv2 (- 100) + INR i * 1 /\ v < floordiv2 100) /\
    (forall k : Z, 100 = IZR (2 * k) ->
        floordiv2 (- 100) = - (100 / 2) /\ floordiv2 100 = 100 / 2).
Proof.
  apply (get_1d_plant_C8_grid [0] 0 None "square" 1 100).
  - lra.
  - left. reflexivity.
Defined.

(** C6: with a single center at 0 (reference 0), width w, shape Square,
    dx = 1 and xmax = 100, the grid is -50, -49, ..., 49 and the density
    is exactly 1 at every grid position in [-w/2, w/2) and exactly 0 at
    every other grid position. *)
Theorem get_1d_plant_C6_single_square (w : R) :
  exists plant x_vec,
    get_1d_plant [0] 0 (Some w) "square" 1 100 = Ok (plant, x_vec) /\
    length plant = length x_vec /\
    (forall (i : nat) (x : R),
        x_vec !! i = Some x <-> (i < 100)%nat /\ x = -50 + INR i) /\
    (forall (i : nat) (x : R),
        x_vec !! i = Some x ->
        (- (w / 2) <= x < w / 2 -> plant !! i = Some 1) /\
        (~ (- (w / 2) <= x < w / 2) -> plant !! i = Some 0)).
Proof.
  assert (Hlo : floordiv2 (Ropp 100) = -50).
  { rewrite <- opp_IZR. exact (floordiv2_even (-50)). }
  assert (Hhi : floordiv2 100 = 50) by exact (floordiv2_even 50).
  eexists _, _. split.
  { apply get_1d_plant_square; [lra|reflexivity]. }
  split; [|split].
  - rewrite fold_square_length. apply repeat_length.
  - intros i x. rewrite plant_grid_lookup by lra. rewrite Hlo, Hhi.
    split.
    + intros [-> H]. split; [|lra].
      assert (Hi : INR i < INR 100).
      { replace (INR 100) with 100 by (rewrite INR_IZR_INZ; reflexivity).
        lra. }
      now apply INR_lt in Hi.
    + intros [Hi ->]. apply lt_INR in Hi.
      replace (INR 100) with 100 in Hi
        by (rewrite INR_IZR_INZ; reflexivity).
      lra.
  - intros i x Hx.
    rewrite (fold_square_lookup _ _ _ _ i 0 x
               (repeat_zero_at_grid _ _ _ Hx) Hx).
    unfold last_placed. simpl.
    destruct (in_span_b w (0 - 0) x) eqn:E.
    + apply in_span_b_true in E. unfold in_span in E.
      split; [reflexivity|]. intros H. exfalso. apply H. lra.
    + apply in_span_b_false in E. unfold in_span in E.
      split; [|reflexivity]. intros H. exfalso. apply E. lra.
Qed.

(** C7: for every list of site centers (overlapping footprints included),
    on the position grid that starts at floor(-xmax/2) and advances in
    steps of dx below floor(xmax/2): with shape Square or Triangle the
    density at a grid position is the footprint of the site placed last
    among those whose half-open span holds the position (0 where no span
    does), so each site overwrites what was placed before it; with shape
    Gaussian the density is the sum over all sites of
    exp(-(x-center)^2/(2 sigma^2)), sigma = w/2.355. *)
Theorem get_1d_plant_C7_overlap centers ref_center width dx xmax :
  let w := plant_width width dx in
  let cs := map (fun c => c - ref_center) centers in
  dx <> 0 ->
  (forall shape, lower shape = "square"%string ->
     exists plant x_vec,
       get_1d_plant centers ref_center width shape dx xmax
         = Ok (plant, x_vec) /\
       x_vec = plant_grid dx xmax /\
       (0 < dx -> forall (i : nat) (v : R),
          x_vec !! i = Some v <->
          v = floordiv2 (- xmax) + INR i * dx /\ v < floordiv2 xmax) /\
       length plant = length x_vec /\
       forall (i : nat) (x : R), x_vec !! i = Some x ->
         plant !! i = Some (square_value w x cs)) /\
  (forall shape, lower shape = "triangle"%string ->
     exists plant x_vec,
       get_1d_plant centers ref_center width shape dx xmax
         = Ok (plant, x_vec) /\
       x_vec = plant_grid dx xmax /\
       (0 < dx -> forall (i : nat) (v : R),
          x_vec !! i = Some v <->
          v = floordiv2 (- xmax) + INR i * dx /\ v < floordiv2 xmax) /\
       length plant = length x_vec /\
       forall (i : nat) (x : R), x_vec !! i = Some x ->
         plant !! i = Some (triangle_value w x cs)) /\
  (forall shape, lower shape = "gaussian"%string -> w <> 0 ->
     exists plant x_vec,
       get_1d_plant centers ref_center width shape dx xmax
         = Ok (plant, x_vec) /\
       x_vec = plant_grid dx xmax /\
       (0 < dx -> forall (i : nat) (v : R),
          x_vec !! i = Some v <->
          v = floordiv2 (- xmax) + INR i * dx /\ v < floordiv2 xmax) /\
       length plant = length x_vec /\
       forall (i : nat) (x : R), x_vec !! i = Some x ->
         plant !! i = Some (gaussian_value w x cs)).
Proof.
  intros w cs Hdx.
  assert (Hgrid : 0 < dx -> forall (i : nat) (v : R),
            plant_grid dx xmax !! i = Some v <->
            v = floordiv2 (- xmax) + INR i * dx /\ v < floordiv2 xmax).
  { intros Hpos i v. now apply plant_grid_lookup. }
  split; [|split].
  - intros shape Hs. eexists _, _.
    split; [now apply get_1d_plant_square|].
    split; [reflexivity|]. split; [exact Hgrid|]. split.
    + rewrite fold_square_length. apply repeat_length.
    + intros i x Hx.
      rewrite (fold_square_lookup _ _ _ _ i 0 x
                 (repeat_zero_at_grid _ _ _ Hx) Hx).
      reflexivity.
  - intros shape Hs. eexists _, _.
    split; [now apply get_1d_plant_triangle|].
    split; [reflexivity|]. split; [exact Hgrid|]. split.
    + rewrite fold_triangle_length. apply repeat_length.
    + intros i x Hx.
      rewrite (fold_triangle_lookup _ _ _ _ i 0 x
                 (repeat_zero_at_grid _ _ _ Hx) Hx).
      reflexivity.
  - intros shape Hs Hw.
    destruct (for_each_gaussian (plant_grid dx xmax) w cs
                (repeat 0 (length (plant_grid dx xmax))) Hw)
      as (plant' & E & Hlen & Hval).
    { apply repeat_length. }
    exists plant', (plant_grid dx xmax). split; [|split; [|split; [|split]]].
    + rewrite get_1d_plant_gaussian by assumption.
      fold w cs. rewrite E. reflexivity.
    + reflexivity.
    + exact Hgrid.
    + exact Hlen.
    + intros i x Hx.
      rewrite (Hval i 0 x (repeat_zero_at_grid _ _ _ Hx) Hx).
      f_equal. lra.
Qed.

Lemma get_1d_plant_C7_overlap_witness :
  let w := plant_width (Some 4) 1 in
  let cs := map (fun c => c - 0) [0; 1] in
  (forall shape, lower shape = "square"%string ->
     exists plant x_vec,
       get_1d_plant [0; 1] 0 (Some 4) shape 1 100 = Ok (plant, x_vec) /\
       x_vec = plant_grid 1 100 /\
       (0 < 1 -> forall (i : nat) (v : R),
          x_vec !! i = Some v <->
          v = floordiv2 (- 100) + INR i * 1 /\ v < floordiv2 100) /\
       length plant = length x_vec /\
       forall (i : nat) (x : R), x_vec !! i = Some x ->
         plant !! i = Some (square_value w x cs)) /\
  (forall shape, lower shape = "triangle"%string ->
     exists plant x_vec,
       get_1d_plant [0; 1] 0 (Some 4) shape 1 100 = Ok (plant, x_vec) /\
       x_vec = plant_grid 1 100 /\
       (0 < 1 -> forall (i : nat) (v : R),
          x_vec !! i = Some v <->
          v = floordiv2 (- 100) + INR i * 1 /\ v < floordiv2 100) /\
       length plant = length x_vec /\
       forall (i : nat) (x : R), x_vec !! i = Some x ->
         plant !! i = Some (triangle_value w x cs)) /\
  (forall shape, lower shape = "gaussian"%string -> w <> 0 ->
     exists plant x_vec,
       get_1d_plant [0; 1] 0 (Some 4) shape 1 100 = Ok (plant, x_vec) /\
       x_vec = plant_grid 1 100 /\
       (0 < 1 -> forall (i : nat) (v : R),
          x_vec !! i = Some v <->
          v = floordiv2 (- 100) + INR i * 1 /\ v < floordiv2 100) /\
       length plant = length x_vec /\
       forall (i : nat) (x : R), x_vec !! i = Some x ->
         plant !! i = Some (gaussian_value w x cs)).
Proof.
  apply (get_1d_plant_C7_overlap [0; 1] 0 (Some 4) 1 100). lra.
Defined.

(** ** Complex arithmetic *)

Lemma C_eq (z w : C) : Cre z = Cre w -> Cim z = Cim w -> z = w.
Proof. destruct z, w. simpl. intros -> ->. reflexivity. Qed.

Ltac cunfold :=
  unfold Cdiv, Cdivr, Cmulr, Cmul, Cadd, Cconj, RtoC, Ci, Cone, Czero,
    Cre, Cim in *; simpl fst in *; simpl snd in *.

Lemma Cmul_comm (z w : C) : Cmul z w = Cmul w z.
Proof. apply C_eq; cunfold; ring. Qed.

Lemma Cmul_assoc (u z w : C) : Cmul u (Cmul z w) = Cmul (Cmul u z) w.
Proof. apply C_eq; cunfold; ring. Qed.

Lemma Cmul_one_r (z : C) : Cmul z Cone = z.
Proof. apply C_eq; cunfold; ring. Qed.

Lemma Cmul_one_l (z : C) : Cmul Cone z = z.
Proof. apply C_eq; cunfold; ring. Qed.

Lemma Cmul_zero_l (z : C) : Cmul Czero z = Czero.
Proof. apply C_eq; cunfold; ring. Qed.

Lemma Cmul_zero_r (z : C) : Cmul z Czero = Czero.
Proof. apply C_eq; cunfold; ring. Qed.

Lemma Cadd_zero_l (z : C) : Cadd Czero z = z.
Proof. apply C_eq; cunfold; ring. Qed.

Lemma Cadd_zero_r (z : C) : Cadd z Czero = z.
Proof. apply C_eq; cunfold; ring. Qed.

Lemma Cadd_comm (z w : C) : Cadd z w = Cadd w z.
Proof. apply C_eq; cunfold; ring. Qed.

Lemma Cadd_assoc (u z w : C) : Cadd u (Cadd z w) = Cadd (Cadd u z) w.
Proof. apply C_eq; cunfold; ring. Qed.

Lemma Cmul_add_distr_l (u z w : C) :
  Cmul u (Cadd z w) = Cadd (Cmul u z) (Cmul u w).
Proof. apply C_eq; cunfold; ring. Qed.

Lemma Cmul_add_distr_r (u z w : C) :
  Cmul (Cadd z w) u = Cadd (Cmul z u) (Cmul w u).
Proof. apply C_eq; cunfold; ring. Qed.

(** ** get_marcosfilter *)

Lemma linspace_lookup start stop (num i : nat) :
  (i < num)%nat ->
  linspace start stop num !! i
  = Some (INR i * ((stop - start) / INR (num - 1)) + start).
Proof.
  intros Hi. unfold linspace. rewrite lookup_map_seq.
  destruct (decide _); [reflexivity|contradiction].
Qed.

Lemma linspace_length start stop num : length (linspace start stop num) = num.
Proof. unfold linspace. now rewrite length_map, length_seq. Qed.

Lemma marcos_cutoff_pos (s : R) : 0 < s -> 0 < 0.02 / sqrt s.
Proof.
  intros Hs. apply Rdiv_lt_0_compat; [lra|]. now apply sqrt_lt_R0.
Qed.

(** The single-pole value: 1 / (1 + i a) = (1 - i a) / (1 + a^2). *)
Lemma marcos_value (f fc : R) :
  fc <> 0 ->
  Cdiv (RtoC 1) (Cadd (Cdivr (Cmul Ci (RtoC f)) fc) (RtoC 1))
  = (1 / (1 + (f / fc) ^ 2), - (f / fc) / (1 + (f / fc) ^ 2)).
Proof.
  intros Hfc.
  assert (Hd : 1 + (f / fc) ^ 2 <> 0).
  { pose proof (pow2_ge_0 (f / fc)). lra. }
  assert (Hd' : fc ^ 2 + f ^ 2 <> 0).
  { assert (0 < fc ^ 2).
    { pose proof (pow2_ge_0 fc). pose proof (pow_nonzero fc 2 Hfc). lra. }
    pose proof (pow2_ge_0 f). lra. }
  apply C_eq; cunfold; field; repeat split; try assumption;
    try (intros E; apply Hd'; rewrite <- E; ring); lra.
Qed.

Lemma marcos_pole (a : R) :
  Cmul (1 / (1 + a ^ 2), - a / (1 + a ^ 2)) (Cadd Cone (Cmul Ci (RtoC a)))
  = Cone.
Proof.
  apply C_eq; cunfold; field; nra.
Qed.

(** C5: for every plant area s > 0, get_marcosfilter returns a spectrum
    indexed by its frequency grid (by default 100 linearly spaced points
    from 0 to 0.5) whose value at each frequency f is the complex64
    conversion of 1/(1 + i f/fc), with cutoff fc = 0.02/sqrt(s). *)
Theorem get_marcosfilter_C5 (to_complex64 : C -> C) (s : R)
    (freq : option (list R)) :
  0 < s ->
  let fc := 0.02 / sqrt s in
  let grid := match freq with None => linspace 0 0.5 100 | Some g => g end in
  exists filt,
    get_marcosfilter to_complex64 s freq = Ok filt /\
    index filt = grid /\
    length (values filt) = length grid /\
    0 < fc /\ fc * sqrt s = 0.02 /\
    (forall (i : nat) (f : R), grid !! i = Some f ->
       exists v,
         values filt !! i = Some (to_complex64 v) /\
         v = (1 / (1 + (f / fc) ^ 2), - (f / fc) / (1 + (f / fc) ^ 2)) /\
         Cmul v (Cadd Cone (Cmul Ci (RtoC (f / fc)))) = Cone) /\
    (freq = None ->
       length grid = 100%nat /\
       grid !! 0%nat = Some 0 /\ grid !! 99%nat = Some 0.5 /\
       forall i : nat, (i < 100)%nat -> grid !! i = Some (INR i * (0.5 / 99))).
Proof.
  intros Hs fc grid.
  assert (Hfc : 0 < fc) by now apply marcos_cutoff_pos.
  assert (Hsq : 0 < sqrt s) by now apply sqrt_lt_R0.
  eexists. split.
  { unfold get_marcosfilter.
    destruct (Rle_dec s 0) as [Hle|_]; [exfalso; clear - Hs Hle; lra|].
    reflexivity. }
  cbn [index values]. fold grid fc.
  split; [reflexivity|]. split; [now rewrite !length_map|].
  split; [exact Hfc|]. split; [unfold fc; field; lra|]. split.
  - intros i f Hf. eexists. split; [|split].
    + change (map ?g (map ?h grid)) with (g <$> (h <$> grid)).
      rewrite !list_lookup_fmap, Hf. simpl. reflexivity.
    + apply marcos_value. lra.
    + rewrite marcos_value by lra. apply marcos_pole.
  - intros ->. unfold grid.
    assert (H99 : INR (100 - 1) = 99).
    { rewrite INR_IZR_INZ. reflexivity. }
    split; [apply linspace_length|].
    split; [|split].
    + rewrite linspace_lookup by lia. f_equal. simpl. lra.
    + rewrite linspace_lookup by lia. f_equal. rewrite H99.
      replace (INR 99) with 99 by (rewrite INR_IZR_INZ; reflexivity). lra.
    + intros i Hi. rewrite linspace_lookup by exact Hi. f_equal.
      rewrite H99. lra.
Qed.

Lemma get_marcosfilter_C5_witness :
  let fc := 0.02 / sqrt 4 in
  let grid := linspace 0 0.5 100 in
  exists filt,
    get_marcosfilter (fun z => z) 4 None = Ok filt /\
    index filt = grid /\
    length (values filt) = length grid /\
    0 < fc /\ fc * sqrt 4 = 0.02 /\
    (forall (i : nat) (f : R), grid !! i = Some f ->
       exists v,
         values filt !! i = Some v /\
         v = (1 / (1 + (f / fc) ^ 2), - (f / fc) / (1 + (f / fc) ^ 2)) /\
         Cmul v (Cadd Cone (Cmul Ci (RtoC (f / fc)))) = Cone) /\
    (@None (list R) = None ->
       length grid = 100%nat /\
       grid !! 0%nat = Some 0 /\ grid !! 99%nat = Some 0.5 /\
       forall i : nat, (i < 100)%nat -> grid !! i = Some (INR i * (0.5 / 99))).
Proof.
  apply (get_marcosfilter_C5 (fun z => z) 4 None). lra.
Defined.

(** ** Reductions *)

Lemma fold_left_Rmax_spec (l : list R) (x : R) :
  is_max (fold_left Rmax l x) (x :: l).
Proof.
  revert x. induction l as [|a l IH]; intros x; simpl.
  - split; [now left|]. constructor; [lra|constructor].
  - destruct (IH (Rmax x a)) as [Hin Hall]. split.
    + destruct Hin as [E|Hin]; [|now right; right].
      rewrite <- E. unfold Rmax. destruct (Rle_dec x a); [right|]; now left.
    + inversion Hall as [|? ? Hm Hl]; subst.
      pose proof (Rmax_l x a). pose proof (Rmax_r x a).
      constructor; [lra|]. constructor; [lra|exact Hl].
Qed.

Lemma fold_left_Rmin_spec (l : list R) (x : R) :
  is_min (fold_left Rmin l x) (x :: l).
Proof.
  revert x. induction l as [|a l IH]; intros x; simpl.
  - split; [now left|]. constructor; [lra|constructor].
  - destruct (IH (Rmin x a)) as [Hin Hall]. split.
    + destruct Hin as [E|Hin]; [|now right; right].
      rewrite <- E. unfold Rmin. destruct (Rle_dec x a); [|right]; now left.
    + inversion Hall as [|? ? Hm Hl]; subst.
      pose proof (Rmin_l x a). pose proof (Rmin_r x a).
      constructor; [lra|]. constructor; [lra|exact Hl].
Qed.

Lemma is_max_unique (l : list R) (m m' : R) :
  is_max m l -> is_max m' l -> m = m'.
Proof.
  intros [Hin Hall] [Hin' Hall']. rewrite List.Forall_forall in Hall, Hall'.
  apply Hall' in Hin. apply Hall in Hin'. lra.
Qed.

Lemma np_max_is_max (l : list R) (m : R) : is_max m l -> np_max l = Ok m.
Proof.
  intros Hm. destruct l as [|x l]; [now destruct Hm|].
  simpl. f_equal. apply (is_max_unique (x :: l)); [|exact Hm].
  apply fold_left_Rmax_spec.
Qed.

Lemma np_min_nonempty (l : list R) :
  l <> [] -> exists m, np_min l = Ok m /\ is_min m l.
Proof.
  destruct l as [|x l]; [congruence|]. intros _.
  exists (fold_left Rmin l x). split; [reflexivity|].
  apply fold_left_Rmin_spec.
Qed.

Lemma getitem_lookup {A : Type} (l : list A) (i : nat) (a : A) :
  l !! i = Some a -> getitem l i = Ok a.
Proof. intros H. unfold getitem. now rewrite H. Qed.

(** ** Interpolation raises only its own errors *)

Lemma map_result_interp_linear_no_raise x y x_new e :
  map_result (interp_linear x y) x_new <> Raise e.
Proof.
  induction x_new as [|v x_new IH]; simpl; [discriminate|].
  unfold interp_linear at 1.
  destruct (Req_dec_T _ _); simpl; [discriminate|].
  destruct (map_result (interp_linear x y) x_new); simpl;
    congruence.
Qed.

Lemma interp1d_raise x y x_new e :
  interp1d x y x_new = Raise e ->
  e = ValueError length_msg \/ e = ValueError entries_msg \/
  e = ValueError below_msg \/ e = ValueError above_msg.
Proof.
  unfold interp1d. destruct (negb _); [intros H; inversion H; tauto|].
  destruct (take_inds 0 x (argsort x)) as [|x_first xs];
    [intros H; inversion H; tauto|].
  destruct (existsb _ x_new); [intros H; inversion H; tauto|].
  destruct (existsb _ x_new); [intros H; inversion H; tauto|].
  intros H. now apply map_result_interp_linear_no_raise in H.
Qed.

Lemma interp_tf_raise new_freq input_tf e :
  interp_tf new_freq input_tf = Raise e -> e <> ValueError coverage_msg.
Proof.
  unfold interp_tf.
  destruct (interp1d _ (map Cmod _) new_freq) as [mag|e1|] eqn:E1; simpl.
  - destruct (interp1d _ (unwrap _) new_freq) as [ph|e2|] eqn:E2; simpl;
      try discriminate.
    intros H. inversion H; subst e2.
    apply interp1d_raise in E2.
    destruct E2 as [-> | [-> | [-> | ->]]]; discriminate.
  - intros H. inversion H; subst e1.
    apply interp1d_raise in E1.
    destruct E1 as [-> | [-> | [-> | ->]]]; discriminate.
  - discriminate.
Qed.

(** ** apply_filter: the steps before the interpolation *)

Lemma apply_filter_complex_steps input_tsig comp_filt t0 t1 f_max filt_max :
  index input_tsig !! 0%nat = Some t0 ->
  index input_tsig !! 1%nat = Some t1 ->
  INR (length (values input_tsig)) * (t1 - t0) <> 0 ->
  is_max f_max (fftfreq (length (values input_tsig)) (t1 - t0)) ->
  is_max filt_max (index comp_filt) ->
  apply_filter_complex input_tsig comp_filt =
    if Rgt_dec f_max filt_max then Raise (ValueError coverage_msg)
    else
      do interp_filt <-
           interp_tf (fftfreq (length (values input_tsig)) (t1 - t0))
                     comp_filt;
      Ok (ifft (map (fun z => Cdivr (Cmulr z (INR (length (values input_tsig))))
                                    2)
                    (zip_with Cmul
                       (map (fun z => Cdivr (Cmulr z 2)
                                        (INR (length (values input_tsig))))
                            (fft (map RtoC (values input_tsig))))
                       (values interp_filt)))).
Proof.
  intros H0 H1 Hnd Hf Hc. unfold apply_filter_complex.
  rewrite (getitem_lookup _ _ _ H1), (getitem_lookup _ _ _ H0). simpl.
  destruct (Req_dec_T _ _) as [E|_]; [contradiction|].
  rewrite (np_max_is_max _ _ Hf), (np_max_is_max _ _ Hc). reflexivity.
Qed.

(** ** apply_filter: the coverage check *)

Ltac rdec :=
  repeat match goal with
    | |- context [Rle_dec ?a ?b] =>
        destruct (Rle_dec a b); try (exfalso; lra)
    | |- context [Rlt_dec ?a ?b] =>
        destruct (Rlt_dec a b); try (exfalso; lra)
    | |- context [Rgt_dec ?a ?b] =>
        destruct (Rgt_dec a b); try (exfalso; lra)
    | |- context [Rge_dec ?a ?b] =>
        destruct (Rge_dec a b); try (exfalso; lra)
    | |- context [Req_dec_T ?a ?b] =>
        destruct (Req_dec_T a b); try (exfalso; lra)
    end.

Lemma fftfreq_4_1 : fftfreq 4 (1 - 0) = [0; 1 / 4; - (1 / 2); - (1 / 4)].
Proof.
  unfold fftfreq.
  change (map Z.of_nat (seq 0 ((4 - 1) / 2 + 1)) ++
          map (fun j : nat => (Z.of_nat j - Z.of_nat (4 / 2))%Z)
              (seq 0 (4 / 2)))
    with [0; 1; -2; -1]%Z.
  simpl. repeat (f_equal; try lra).
Qed.

Lemma sig4_bins_nonzero : INR (length (values sig4)) * (1 - 0) <> 0.
Proof. simpl. lra. Qed.

Lemma sig4_max_bin : is_max (1 / 4) (fftfreq (length (values sig4)) (1 - 0)).
Proof.
  simpl length. rewrite fftfreq_4_1. split.
  - right. now left.
  - repeat constructor; lra.
Qed.

Lemma apply_filter_coverage_iff input_tsig comp_filt t0 t1 f_max filt_max :
  index input_tsig !! 0%nat = Some t0 ->
  index input_tsig !! 1%nat = Some t1 ->
  INR (length (values input_tsig)) * (t1 - t0) <> 0 ->
  is_max f_max (fftfreq (length (values input_tsig)) (t1 - t0)) ->
  is_max filt_max (index comp_filt) ->
  apply_filter input_tsig comp_filt = Raise (ValueError coverage_msg)
  <-> filt_max < f_max.
Proof.
  intros H0 H1 Hnd Hf Hc. unfold apply_filter.
  rewrite (apply_filter_complex_steps _ _ _ _ _ _ H0 H1 Hnd Hf Hc).
  destruct (Rgt_dec f_max filt_max) as [Hgt|Hle]; simpl.
  - split; [intros _; lra|reflexivity].
  - split; [|intros; lra].
    destruct (interp_tf _ comp_filt) as [fl|e|] eqn:E; simpl;
      try discriminate.
    intros H. inversion H; subst e. now apply interp_tf_raise in E.
Qed.

(** C2 (as stated) fails in both directions.  For four samples one
    second apart the FFT bins are 0, 1/4, -1/2, -1/4.  A filter on
    [-10, 0.1] has maximum frequency magnitude 10, not less than the
    signal's 1/2, yet the coverage error is raised.  A filter on
    [-0.3, 0.3] has maximum magnitude 0.3 < 1/2, yet no coverage error is
    raised: the call fails later, inside the interpolation. *)
Lemma apply_filter_C2_signed_maximum :
  is_max (1 / 2) (map Rabs (fftfreq (length (values sig4)) (1 - 0))) /\
  (is_max 10 (map Rabs (index filt_wide)) /\
   apply_filter sig4 filt_wide = Raise (ValueError coverage_msg)) /\
  (is_max 0.3 (map Rabs (index filt_narrow)) /\
   apply_filter sig4 filt_narrow = Raise (ValueError below_msg) /\
   apply_filter sig4 filt_narrow <> Raise (ValueError coverage_msg)).
Proof.
  assert (Habs : forall x, 0 <= x -> Rabs x = x /\ Rabs (- x) = x).
  { intros x Hx. split; [now apply Rabs_pos_eq|].
    rewrite Rabs_Ropp. now apply Rabs_pos_eq. }
  split; [|split].
  - simpl length. rewrite fftfreq_4_1. simpl.
    destruct (Habs 0), (Habs (1 / 4)), (Habs (1 / 2)); try lra.
    replace (Rabs 0) with 0 by lra. replace (Rabs (1 / 4)) with (1 / 4) by lra.
    replace (Rabs (- (1 / 2))) with (1 / 2) by lra.
    replace (Rabs (- (1 / 4))) with (1 / 4) by lra.
    split; [right; right; now left|repeat constructor; lra].
  - split.
    + simpl. destruct (Habs 10), (Habs 0.1); try lra.
      replace (-10) with (- (10)) by lra.
      replace (Rabs (- (10))) with 10 by lra.
      replace (Rabs 0.1) with 0.1 by lra.
      split; [now left|repeat constructor; lra].
    + apply (apply_filter_coverage_iff sig4 filt_wide 0 1 (1 / 4) 0.1);
        try reflexivity.
      * apply sig4_bins_nonzero.
      * apply sig4_max_bin.
      * simpl. split; [right; now left|repeat constructor; lra].
      * lra.
  - assert (E : apply_filter sig4 filt_narrow = Raise (ValueError below_msg)).
    { unfold apply_filter.
      rewrite (apply_filter_complex_steps sig4 filt_narrow 0 1 (1 / 4) 0.3);
        try reflexivity.
      - rdec. simpl length. rewrite fftfreq_4_1.
        unfold interp_tf, interp1d, argsort, sort_keys, take_inds, Rlt_b.
        do 4 (simpl; rdec). reflexivity.
      - apply sig4_bins_nonzero.
      - apply sig4_max_bin.
      - simpl. split; [right; now left|repeat constructor; lra]. }
    split; [|split; [exact E|rewrite E; discriminate]].
    simpl. destruct (Habs 0.3); try lra.
    replace (-0.3) with (- (0.3)) by lra.
    replace (Rabs (- (0.3))) with 0.3 by lra.
    replace (Rabs 0.3) with 0.3 by lra.
    split; [now left|repeat constructor; lra].
Qed.

(** C2 (amended): for a signal with at least two samples and a nonzero
    sampling interval, apply_filter fails with the explicit coverage
    error if and only if the largest frequency of the filter's index is
    less than the largest FFT-bin frequency of the signal (signed values,
    not magnitudes); the failure is decided before any interpolation or
    multiplication: it does not depend on the filter's values. *)
Theorem apply_filter_C2_coverage input_tsig comp_filt t0 t1 f_max filt_max :
  index input_tsig !! 0%nat = Some t0 ->
  index input_tsig !! 1%nat = Some t1 ->
  INR (length (values input_tsig)) * (t1 - t0) <> 0 ->
  is_max f_max (fftfreq (length (values input_tsig)) (t1 - t0)) ->
  is_max filt_max (index comp_filt) ->
  (apply_filter input_tsig comp_filt = Raise (ValueError coverage_msg)
   <-> filt_max < f_max) /\
  (filt_max < f_max ->
   forall filter_values,
     apply_filter input_tsig (mkSeries (index comp_filt) filter_values)
     = Raise (ValueError coverage_msg)).
Proof.
  intros H0 H1 Hnd Hf Hc. split.
  - now apply (apply_filter_coverage_iff _ _ t0 t1 f_max filt_max).
  - intros Hlt filter_values.
    now apply (apply_filter_coverage_iff _ _ t0 t1 f_max filt_max).
Qed.

Lemma apply_filter_C2_coverage_witness :
  (apply_filter sig4 filt_wide = Raise (ValueError coverage_msg)
   <-> 0.1 < 1 / 4) /\
  (0.1 < 1 / 4 ->
   forall filter_values,
     apply_filter sig4 (mkSeries (index filt_wide) filter_values)
     = Raise (ValueError coverage_msg)).
Proof.
  apply (apply_filter_C2_coverage sig4 filt_wide 0 1 (1 / 4) 0.1).
  - reflexivity.
  - reflexivity.
  - apply sig4_bins_nonzero.
  - apply sig4_max_bin.
  - simpl. split; [right; now left|repeat constructor; lra].
Defined.

(** ** Modulus and complex exponential *)

Lemma cos_sin_unit (theta : R) : cos theta * cos theta + sin theta * sin theta = 1.
Proof. pose proof (sin2_cos2 theta) as H. unfold Rsqr in H. lra. Qed.

Lemma Cmod_cis (theta : R) : Cmod (cis theta) = 1.
Proof.
  unfold Cmod, cis, Cre, Cim. simpl. rewrite cos_sin_unit. apply sqrt_1.
Qed.

Lemma Cmod_mul (z w : C) : Cmod (Cmul z w) = Cmod z * Cmod w.
Proof.
  unfold Cmod. destruct z as [a b], w as [c d]. cunfold.
  rewrite <- sqrt_mult by nra. f_equal. ring.
Qed.

Lemma Cmod_conj (z : C) : Cmod (Cconj z) = Cmod z.
Proof. unfold Cmod. destruct z as [a b]. cunfold. f_equal. ring. Qed.

Lemma Cmod_one : Cmod Cone = 1.
Proof.
  unfold Cmod. cunfold. replace (1 * 1 + 0 * 0) with 1 by ring. apply sqrt_1.
Qed.

Lemma cis_0 : cis 0 = Cone.
Proof. unfold cis. now rewrite cos_0, sin_0. Qed.

Lemma cis_add (a b : R) : cis (a + b) = Cmul (cis a) (cis b).
Proof.
  unfold cis. apply C_eq; cunfold; [apply cos_plus|].
  rewrite sin_plus. ring.
Qed.

(** [np.exp(1j * f * a * b)] is exp(i f a b). *)
Lemma Cexp_imag (f a b : R) :
  Cexp (Cmul (Cmul (Cmul Ci (RtoC f)) (RtoC a)) (RtoC b)) = cis (f * a * b).
Proof.
  unfold Cexp.
  assert (Hre : Cre (Cmul (Cmul (Cmul Ci (RtoC f)) (RtoC a)) (RtoC b)) = 0)
    by (cunfold; ring).
  assert (Him : Cim (Cmul (Cmul (Cmul Ci (RtoC f)) (RtoC a)) (RtoC b))
                = f * a * b) by (cunfold; ring).
  rewrite Hre, Him, exp_0. unfold cis. apply C_eq; cunfold; ring.
Qed.

(** [np.exp(1j * phase)] *)
Lemma Cexp_i_phase (phase : R) : Cexp (Cmul Ci (RtoC phase)) = cis phase.
Proof.
  unfold Cexp.
  assert (Hre : Cre (Cmul Ci (RtoC phase)) = 0) by (cunfold; ring).
  assert (Him : Cim (Cmul Ci (RtoC phase)) = phase) by (cunfold; ring).
  rewrite Hre, Him, exp_0. unfold cis. apply C_eq; cunfold; ring.
Qed.

(** ** Finite sums *)

Lemma Csum_ext (f g : nat -> C) (n : nat) :
  (forall m, (m < n)%nat -> f m = g m) -> Csum f n = Csum g n.
Proof.
  induction n as [|n IH]; intros H; simpl; [reflexivity|].
  rewrite IH, H by (intros; try apply H; lia). reflexivity.
Qed.

Lemma Csum_zero (n : nat) : Csum (fun _ => Czero) n = Czero.
Proof.
  induction n as [|n IH]; simpl; [reflexivity|].
  rewrite IH. apply Cadd_zero_l.
Qed.

(** A sum with a single nonzero term. *)
Lemma Csum_single (f : nat -> C) (n j : nat) :
  (j < n)%nat ->
  (forall m, (m < n)%nat -> m <> j -> f m = Czero) ->
  Csum f n = f j.
Proof.
  induction n as [|n IH]; intros Hj Hz; [lia|]. simpl.
  destruct (decide (j = n)) as [->|Hne].
  - rewrite (Csum_ext f (fun _ => Czero)).
    + rewrite Csum_zero. apply Cadd_zero_l.
    + intros m Hm. apply Hz; lia.
  - rewrite IH by (try lia; intros; apply Hz; lia).
    rewrite (Hz n) by lia. apply Cadd_zero_r.
Qed.

Lemma fold_left_Rplus_acc (l : list R) (a : R) :
  fold_left Rplus l a = a + fold_left Rplus l 0.
Proof.
  revert a. induction l as [|x l IH]; intros a; simpl; [lra|].
  rewrite (IH (a + x)), (IH (0 + x)). lra.
Qed.

Lemma np_sum_cons (x : R) (l : list R) : np_sum (x :: l) = x + np_sum l.
Proof.
  unfold np_sum. simpl. rewrite fold_left_Rplus_acc. lra.
Qed.

(** The sum of an array whose only nonzero cell is cell [j]. *)
Lemma np_sum_point (plant : list R) (j : nat) (m : R) :
  plant !! j = Some m ->
  (forall (i : nat) (p : R), plant !! i = Some p -> i <> j -> p = 0) ->
  np_sum plant = m.
Proof.
  revert j. induction plant as [|x plant IH]; intros j Hj Hz;
    [discriminate|].
  rewrite np_sum_cons. destruct j as [|j]; simpl in Hj.
  - inversion Hj; subst x.
    assert (E : np_sum plant = 0).
    { clear -Hz. assert (Hz' : forall (i : nat) (p : R),
                           plant !! i = Some p -> p = 0).
      { intros i p Hp. apply (Hz (S i) p); [exact Hp|lia]. }
      clear Hz. induction plant as [|y plant IH]; [reflexivity|].
      rewrite np_sum_cons, IH.
      - rewrite (Hz' 0%nat y eq_refl). lra.
      - intros i p Hp. apply (Hz' (S i) p Hp). }
    lra.
  - rewrite (IH j Hj).
    + rewrite (Hz 0%nat x eq_refl) by lia. lra.
    + intros i p Hp Hi. apply (Hz (S i) p Hp). lia.
Qed.

(** ** Transform and frequency bins: shapes and entries *)

Lemma fft_length (a : list C) : length (fft a) = length a.
Proof. unfold fft. now rewrite length_map, length_seq. Qed.

Lemma ifft_length (a : list C) : length (ifft a) = length a.
Proof. unfold ifft. now rewrite length_map, length_seq. Qed.

Lemma fft_lookup (a : list C) (k : nat) :
  (k < length a)%nat ->
  fft a !! k =
    Some (Csum (fun m : nat =>
                  Cmul (nth m a Czero)
                       (cis (- (2 * PI * INR m * INR k / INR (length a)))))
               (length a)).
Proof.
  intros Hk. unfold fft. rewrite lookup_map_seq.
  destruct (decide _); [reflexivity|contradiction].
Qed.

Lemma half_bins (n : nat) : (1 <= n)%nat -> ((n - 1) / 2 + 1 + n / 2 = n)%nat.
Proof.
  intros Hn.
  pose proof (Nat.div_mod_eq n 2) as H1.
  pose proof (Nat.div_mod_eq (n - 1) 2) as H2.
  pose proof (Nat.mod_upper_bound n 2) as H3.
  pose proof (Nat.mod_upper_bound (n - 1) 2) as H4.
  lia.
Qed.

Lemma fftfreq_length (n : nat) (d : R) :
  (1 <= n)%nat -> length (fftfreq n d) = n.
Proof.
  intros Hn. unfold fftfreq.
  rewrite length_map, length_app, !length_map, !length_seq.
  now apply half_bins.
Qed.

Lemma fftfreq_first (n : nat) (d : R) : fftfreq n d !! 0%nat = Some 0.
Proof.
  unfold fftfreq. rewrite Nat.add_1_r.
  simpl. f_equal. change (Z.of_nat 0) with 0%Z. apply Rmult_0_l.
Qed.

Lemma nth_RtoC (l : list R) (i : nat) (p : R) :
  l !! i = Some p -> nth i (map RtoC l) Czero = RtoC p.
Proof.
  intros H. rewrite nth_lookup.
  change (map RtoC l) with (RtoC <$> l).
  now rewrite list_lookup_fmap, H.
Qed.

(** The transform of a unit impulse at cell [j] is a pure phase. *)
Lemma fft_impulse (a : list R) (j k : nat) :
  a !! j = Some 1 ->
  (forall (i : nat) (p : R), a !! i = Some p -> i <> j -> p = 0) ->
  (k < length a)%nat ->
  fft (map RtoC a) !! k
  = Some (cis (- (2 * PI * INR j * INR k / INR (length a)))).
Proof.
  intros Hj Hz Hk.
  rewrite fft_lookup by now rewrite length_map.
  rewrite length_map. f_equal.
  rewrite (Csum_single _ (length a) j).
  - rewrite (nth_RtoC a j 1 Hj). apply Cmul_one_l.
  - now apply lookup_lt_Some in Hj.
  - intros m Hm Hne.
    destruct (lookup_lt_is_Some_2 a m Hm) as [p Hp].
    rewrite (nth_RtoC a m p Hp), (Hz m p Hp Hne). apply Cmul_zero_l.
Qed.

(** ** plant1d_to_camfilter on a point source *)

Lemma normalized_point (plant : list R) (j : nat) (m : R) :
  plant !! j = Some m -> m <> 0 ->
  (forall (i : nat) (p : R), plant !! i = Some p -> i <> j -> p = 0) ->
  map (fun p => p / m) plant !! j = Some 1 /\
  (forall (i : nat) (p : R),
      map (fun p => p / m) plant !! i = Some p -> i <> j -> p = 0).
Proof.
  intros Hj Hm Hz.
  change (map (fun p => p / m) plant) with ((fun p => p / m) <$> plant).
  split.
  - rewrite list_lookup_fmap, Hj. simpl. f_equal. now field.
  - intros i p Hp Hi. rewrite list_lookup_fmap in Hp.
    destruct (plant !! i) as [q|] eqn:E; [|discriminate].
    simpl in Hp. inversion Hp. rewrite (Hz i q E Hi). unfold Rdiv. ring.
Qed.

Lemma plant1d_to_camfilter_point plant x_plant cloud_speed (j : nat) m x0 x1 :
  length plant = length x_plant ->
  x_plant !! 0%nat = Some x0 ->
  x_plant !! 1%nat = Some x1 ->
  x1 <> x0 ->
  plant !! j = Some m ->
  m <> 0 ->
  (forall (i : nat) (p : R), plant !! i = Some p -> i <> j -> p = 0) ->
  cloud_speed <> 0 ->
  exists x_min delay,
    is_min x_min x_plant /\
    (delay = x_min / cloud_speed \/ delay = - (x_min / cloud_speed)) /\
    let n := length plant in
    let camfreq := fftfreq n ((x1 - x0) / Rabs cloud_speed) in
    let phase (k : nat) (f : R) : C :=
      Cmul (cis (- (2 * PI * INR j * INR k / INR n)))
           (cis (f * (2 * PI) * delay)) in
    exists camfilt,
      plant1d_to_camfilter plant x_plant cloud_speed
        = Ok (mkSeries camfreq camfilt) /\
      length camfilt = n /\
      forall (k : nat) (z : C),
        camfilt !! k = Some z ->
        exists f, camfreq !! k = Some f /\
                  (z = phase k f \/ z = Cconj (phase k f)).
Proof.
  intros Hlen H0 H1 Hdx Hj Hm Hz Hv.
  assert (Hn : (2 <= length plant)%nat).
  { rewrite Hlen. apply lookup_lt_Some in H1. lia. }
  assert (Hsum : np_sum plant = m) by now apply (np_sum_point plant j m).
  assert (Habs : Rabs cloud_speed <> 0) by now apply Rabs_no_R0.
  destruct (np_min_nonempty x_plant) as (x_min & Emin & Hmin).
  { intros E. rewrite E in H0. discriminate. }
  destruct (normalized_point plant j m Hj Hm Hz) as [Hj' Hz'].
  set (n := length plant).
  set (camfreq := fftfreq n ((x1 - x0) / Rabs cloud_speed)).
  assert (Hfl : length camfreq = n).
  { apply fftfreq_length. unfold n. lia. }
  assert (Hnl : length (map (fun p => p / m) plant) = n)
    by now rewrite length_map.
  assert (Hcl : length (fft (map RtoC (map (fun p => p / m) plant))) = n).
  { now rewrite fft_length, length_map. }
  assert (Hstep :
    plant1d_to_camfilter plant x_plant cloud_speed =
      (Ok (mkSeries camfreq
          (if Rgt_dec cloud_speed 0
           then zip_with
                  (fun z f => Cmul z (Cexp (Cmul (Cmul (Cmul Ci (RtoC f))
                                                   (RtoC (2 * PI)))
                                             (RtoC (x_min / cloud_speed)))))
                  (fft (map RtoC (map (fun p => p / m) plant))) camfreq
           else map Cconj
                  (zip_with
                     (fun z f => Cmul z (Cexp (Cmul (Cmul (Cmul Ci (RtoC f))
                                                      (RtoC (2 * PI)))
                                              (RtoC (- (x_min / cloud_speed))))))
                     (fft (map RtoC (map (fun p => p / m) plant)))
                     camfreq))))).
  { unfold plant1d_to_camfilter.
    rewrite (getitem_lookup _ _ _ H1), (getitem_lookup _ _ _ H0). simpl.
    rewrite Hsum.
    destruct (Req_dec_T m 0) as [|_]; [contradiction|].
    destruct (Req_dec_T (Rabs cloud_speed) 0) as [|_]; [contradiction|].
    rewrite length_map. fold n.
    destruct (Req_dec_T _ 0) as [E|_].
    { exfalso. apply Rmult_integral in E. destruct E as [E|E].
      - assert (0 < INR n) by (apply lt_0_INR; unfold n; lia). lra.
      - unfold Rdiv in E. apply Rmult_integral in E. destruct E as [E|E].
        + lra.
        + now apply Rinv_neq_0_compat in Habs. }
    fold camfreq. rewrite Emin. simpl. reflexivity. }
  assert (Hval : forall delay (k : nat) (z : C),
    zip_with (fun z f => Cmul z (Cexp (Cmul (Cmul (Cmul Ci (RtoC f))
                                            (RtoC (2 * PI))) (RtoC delay))))
             (fft (map RtoC (map (fun p => p / m) plant))) camfreq !! k
      = Some z ->
    exists f, camfreq !! k = Some f /\
      z = Cmul (cis (- (2 * PI * INR j * INR k / INR n)))
               (cis (f * (2 * PI) * delay))).
  { intros delay k z Hk. apply lookup_zip_with_Some in Hk.
    destruct Hk as (c & f & -> & Hc & Hf). exists f. split; [exact Hf|].
    rewrite Cexp_imag.
    rewrite (fft_impulse (map (fun p => p / m) plant) j k Hj' Hz') in Hc.
    - rewrite Hnl in Hc. inversion Hc. reflexivity.
    - rewrite Hnl. apply lookup_lt_Some in Hf. lia. }
  exists x_min.
  destruct (Rgt_dec cloud_speed 0) as [Hpos|Hneg].
  - exists (x_min / cloud_speed). split; [exact Hmin|]. split; [now left|].
    eexists. split; [rewrite Hstep; reflexivity|]. split.
    + rewrite length_zip_with. lia.
    + intros k z Hk. apply Hval in Hk. destruct Hk as (f & Hf & ->).
      exists f. split; [exact Hf|now left].
  - exists (- (x_min / cloud_speed)). split; [exact Hmin|].
    split; [now right|].
    eexists. split; [rewrite Hstep; reflexivity|]. split.
    + rewrite length_map, length_zip_with. lia.
    + intros k z Hk.
      change (map Cconj ?l) with (Cconj <$> l) in Hk.
      rewrite list_lookup_fmap in Hk.
      destruct (zip_with _ _ _ !! k) as [w|] eqn:Ew; [|discriminate].
      simpl in Hk. inversion Hk. apply Hval in Ew.
      destruct Ew as (f & Hf & ->). exists f. split; [exact Hf|now right].
Qed.

Lemma Cconj_cis (theta : R) : Cconj (cis theta) = cis (- theta).
Proof.
  unfold cis. apply C_eq; cunfold; [now rewrite cos_neg|now rewrite sin_neg].
Qed.

(** C4: for a plant profile (at least two grid positions, distinct first
    two positions) whose density is nonzero at a single grid cell, and a
    nonzero cloud speed, plant1d_to_camfilter returns a filter on the
    frequencies fftfreq(n, dx/|speed|) whose every value is a pure phase
    exp(i theta), of magnitude 1; the value at zero frequency is 1. *)
Theorem plant1d_to_camfilter_C4_point_source plant x_plant cloud_speed
    (j : nat) m x0 x1 :
  length plant = length x_plant ->
  x_plant !! 0%nat = Some x0 ->
  x_plant !! 1%nat = Some x1 ->
  x1 <> x0 ->
  plant !! j = Some m ->
  m <> 0 ->
  (forall (i : nat) (p : R), plant !! i = Some p -> i <> j -> p = 0) ->
  cloud_speed <> 0 ->
  exists filt,
    plant1d_to_camfilter plant x_plant cloud_speed = Ok filt /\
    index filt = fftfreq (length plant) ((x1 - x0) / Rabs cloud_speed) /\
    length (values filt) = length plant /\
    (forall (k : nat) (z : C),
        values filt !! k = Some z ->
        Cmod z = 1 /\ exists theta, z = cis theta) /\
    index filt !! 0%nat = Some 0 /\
    values filt !! 0%nat = Some Cone.
Proof.
  intros Hlen H0 H1 Hdx Hj Hm Hz Hv.
  destruct (plant1d_to_camfilter_point plant x_plant cloud_speed j m x0 x1
              Hlen H0 H1 Hdx Hj Hm Hz Hv)
    as (x_min & delay & _ & _ & camfilt & E & Hcl & Hval).
  assert (Hphase : forall (k : nat) (z : C),
            camfilt !! k = Some z ->
            exists f theta,
              fftfreq (length plant) ((x1 - x0) / Rabs cloud_speed) !! k
                = Some f /\
              z = cis theta /\
              (theta = - (2 * PI * INR j * INR k / INR (length plant))
                       + f * (2 * PI) * delay \/
               theta = - (- (2 * PI * INR j * INR k / INR (length plant))
                          + f * (2 * PI) * delay))).
  { intros k z Hk. destruct (Hval k z Hk) as (f & Hf & [-> | ->]);
      exists f; eexists; (split; [exact Hf|]).
    - split; [symmetry; apply cis_add|now left].
    - split; [rewrite <- cis_add; apply Cconj_cis|now right]. }
  eexists. split; [exact E|]. cbn [index values].
  split; [reflexivity|]. split; [exact Hcl|]. split; [|split].
  - intros k z Hk. destruct (Hphase k z Hk) as (f & theta & _ & -> & _).
    split; [apply Cmod_cis|now exists theta].
  - apply fftfreq_first.
  - assert (Hn : (0 < length camfilt)%nat).
    { rewrite Hcl, Hlen. apply lookup_lt_Some in H0. lia. }
    destruct (lookup_lt_is_Some_2 camfilt 0%nat Hn) as [z Hk].
    rewrite Hk. f_equal.
    destruct (Hphase 0%nat z Hk) as (f & theta & Hf & -> & Htheta).
    rewrite fftfreq_first in Hf. inversion Hf; subst f.
    rewrite <- cis_0. f_equal. simpl INR in Htheta.
    destruct Htheta as [-> | ->]; unfold Rdiv; ring.
Qed.

Lemma plant1d_to_camfilter_C4_point_source_witness :
  exists filt,
    plant1d_to_camfilter point_plant point_x 2 = Ok filt /\
    index filt = fftfreq (length point_plant) ((-1 - -2) / Rabs 2) /\
    length (values filt) = length point_plant /\
    (forall (k : nat) (z : C),
        values filt !! k = Some z ->
        Cmod z = 1 /\ exists theta, z = cis theta) /\
    index filt !! 0%nat = Some 0 /\
    values filt !! 0%nat = Some Cone.
Proof.
  apply (plant1d_to_camfilter_C4_point_source
           point_plant point_x 2 1%nat 3 (-2) (-1)).
  - reflexivity.
  - reflexivity.
  - reflexivity.
  - lra.
  - reflexivity.
  - lra.
  - intros [|[|[|[|i]]]] p Hp Hi; simpl in Hp; try congruence;
      inversion Hp; reflexivity.
  - lra.
Defined.

(** ** Sorting *)

Lemma insert_key_perm k i l : insert_key k i l ≡ₚ (k, i) :: l.
Proof.
  induction l as [|[k' i'] l IH]; simpl; [reflexivity|].
  destruct (Rle_dec k k'); [reflexivity|].
  rewrite IH. apply Permutation_swap.
Qed.

Lemma insert_key_sorted k i l :
  StronglySorted key_le l -> StronglySorted key_le (insert_key k i l).
Proof.
  induction l as [|[k' i'] l IH]; simpl; intros Hs.
  - repeat constructor.
  - apply StronglySorted_inv in Hs. destruct Hs as [Hs Hall].
    destruct (Rle_dec k k') as [Hle|Hgt].
    + constructor; [now constructor|].
      constructor; [exact Hle|].
      eapply Forall_impl; [exact Hall|].
      intros [k'' i''] H. unfold key_le in *. simpl in *. lra.
    + constructor; [now apply IH|].
      rewrite insert_key_perm. constructor; [|exact Hall].
      unfold key_le. simpl. lra.
Qed.

Lemma sort_keys_perm l : sort_keys l ≡ₚ l.
Proof.
  induction l as [|[k i] l IH]; simpl; [reflexivity|].
  rewrite insert_key_perm. now rewrite IH.
Qed.

Lemma sort_keys_sorted l : StronglySorted key_le (sort_keys l).
Proof.
  induction l as [|[k i] l IH]; simpl; [constructor|].
  now apply insert_key_sorted.
Qed.

(** Sorting leaves an ascending array as it is. *)
Lemma sort_keys_ascending (l : list R) (s : nat) :
  StronglySorted Rle l ->
  sort_keys (zip l (seq s (length l))) = zip l (seq s (length l)).
Proof.
  revert s. induction l as [|x l IH]; intros s Hs; [reflexivity|].
  apply StronglySorted_inv in Hs. destruct Hs as [Hs Hall].
  simpl. rewrite (IH (S s) Hs).
  destruct l as [|y l]; [reflexivity|]. simpl.
  apply Forall_inv in Hall. destruct (Rle_dec x y); [reflexivity|lra].
Qed.

Lemma zip_seq_positions (l : list R) :
  Forall (fun ki : R * nat => l !! snd ki = Some (fst ki))
         (zip l (seq 0 (length l))).
Proof.
  apply Forall_lookup. intros i [k j] H.
  apply lookup_zip_with_Some in H. destruct H as (x & y & E & Hx & Hy).
  inversion E; subst. apply lookup_seq in Hy. destruct Hy as [-> _].
  exact Hx.
Qed.

Lemma argsort_positions (l : list R) :
  Forall (fun ki : R * nat => l !! snd ki = Some (fst ki))
         (sort_keys (zip l (seq 0 (length l)))).
Proof.
  rewrite sort_keys_perm. apply zip_seq_positions.
Qed.

Lemma argsort_length (l : list R) : length (argsort l) = length l.
Proof.
  unfold argsort. rewrite length_map, sort_keys_perm, length_zip_with.
  rewrite length_seq. lia.
Qed.

Lemma argsort_in_range (l : list R) :
  Forall (fun i => (i < length l)%nat) (argsort l).
Proof.
  unfold argsort. apply Forall_fmap.
  eapply Forall_impl; [apply argsort_positions|].
  intros [k i] H. simpl in *. now apply lookup_lt_Some in H.
Qed.

(** The array taken at its own argsort is the list of sorted keys. *)
Lemma take_argsort (l : list R) :
  take_inds 0 l (argsort l) = map fst (sort_keys (zip l (seq 0 (length l)))).
Proof.
  unfold take_inds, argsort. rewrite map_map.
  apply Forall_fmap_ext_1.
  eapply Forall_impl; [apply argsort_positions|].
  intros [k i] H. simpl in *. rewrite nth_lookup, H. reflexivity.
Qed.

Lemma take_argsort_perm (l : list R) : take_inds 0 l (argsort l) ≡ₚ l.
Proof.
  rewrite take_argsort.
  change (map fst ?x) with (fst <$> x).
  rewrite sort_keys_perm. rewrite fst_zip; [reflexivity|].
  rewrite length_seq. lia.
Qed.

Lemma take_argsort_sorted (l : list R) :
  StronglySorted Rle (take_inds 0 l (argsort l)).
Proof.
  rewrite take_argsort.
  change (map fst ?x) with (fst <$> x).
  apply StronglySorted_fmap with (R1 := key_le).
  - intros a b H. exact H.
  - apply sort_keys_sorted.
Qed.

Lemma argsort_ascending (l : list R) :
  StronglySorted Rle l -> argsort l = seq 0 (length l).
Proof.
  intros Hs. unfold argsort. rewrite (sort_keys_ascending l 0 Hs).
  change (map snd ?x) with (snd <$> x).
  apply snd_zip. rewrite length_seq. lia.
Qed.

Lemma take_inds_seq {A : Type} (d : A) (l : list A) :
  take_inds d l (seq 0 (length l)) = l.
Proof.
  unfold take_inds. apply list_eq. intros i.
  rewrite lookup_map_seq. destruct (decide _) as [Hi|Hi].
  - destruct (lookup_lt_is_Some_2 l i Hi) as [x Hx].
    rewrite Hx, nth_lookup, Hx. reflexivity.
  - symmetry. apply lookup_ge_None. lia.
Qed.

(** ** Ascending arrays *)

Lemma sorted_nodup_strict (l : list R) :
  StronglySorted Rle l -> NoDup l -> StronglySorted Rlt l.
Proof.
  induction l as [|x l IH]; intros Hs Hn; [constructor|].
  apply StronglySorted_inv in Hs. destruct Hs as [Hs Hall].
  apply NoDup_cons in Hn. destruct Hn as [Hx Hn].
  constructor; [now apply IH|].
  apply Forall_forall. intros y Hy.
  rewrite Forall_forall in Hall. specialize (Hall y Hy).
  destruct (Req_dec_T x y) as [->|Hne]; [contradiction|lra].
Qed.

Lemma strict_lookup_lt (l : list R) (i j : nat) (a b : R) :
  StronglySorted Rlt l -> (i < j)%nat ->
  l !! i = Some a -> l !! j = Some b -> a < b.
Proof.
  revert i j. induction l as [|x l IH]; intros i j Hs Hij Ha Hb;
    [discriminate|].
  apply StronglySorted_inv in Hs. destruct Hs as [Hs Hall].
  destruct j as [|j]; [lia|]. simpl in Hb. destruct i as [|i].
  - simpl in Ha. inversion Ha; subst x.
    rewrite Forall_forall in Hall. apply Hall.
    apply list_elem_of_lookup. now exists j.
  - simpl in Ha. apply (IH i j); [exact Hs|lia|exact Ha|exact Hb].
Qed.

Lemma sorted_first_le (x : R) (l : list R) (y : R) :
  StronglySorted Rle (x :: l) -> y ∈ x :: l -> x <= y.
Proof.
  intros Hs Hy. apply StronglySorted_inv in Hs. destruct Hs as [_ Hall].
  apply elem_of_cons in Hy. destruct Hy as [->|Hy]; [lra|].
  rewrite Forall_forall in Hall. now apply Hall.
Qed.

Lemma sorted_le_last (l : list R) (y : R) :
  StronglySorted Rle l -> y ∈ l -> y <= List.last l 0.
Proof.
  revert y. induction l as [|x l IH]; intros y Hs Hy;
    [now apply elem_of_nil in Hy|].
  destruct l as [|x' l].
  - apply list_elem_of_singleton in Hy. subst. simpl. lra.
  - change (List.last (x :: x' :: l) 0) with (List.last (x' :: l) 0).
    pose proof Hs as Hs'.
    apply StronglySorted_inv in Hs. destruct Hs as [Hs Hall].
    apply elem_of_cons in Hy. destruct Hy as [->|Hy]; [|now apply IH].
    assert (Hx' : x <= x').
    { apply Forall_inv in Hall. exact Hall. }
    assert (x' <= List.last (x' :: l) 0).
    { apply IH; [exact Hs|]. apply elem_of_cons. now left. }
    lra.
Qed.

Lemma nth_repeat_lt (c d : R) (n i : nat) :
  (i < n)%nat -> nth i (repeat c n) d = c.
Proof.
  revert i. induction n as [|n IH]; intros [|i] Hi; simpl; try lia;
    [reflexivity|]. apply IH. lia.
Qed.

(** ** Interpolating a constant *)

Lemma clip_range (i n : nat) :
  (2 <= n)%nat -> (1 <= clip i 1 (n - 1) <= n - 1)%nat.
Proof. unfold clip. lia. Qed.

Lemma interp_linear_constant (x : list R) (c v : R) :
  StronglySorted Rlt x -> (2 <= length x)%nat ->
  interp_linear x (repeat c (length x)) v = Ok c.
Proof.
  intros Hs Hn. unfold interp_linear.
  set (hi := clip (searchsorted x v) 1 (length x - 1)).
  assert (Hhi : (1 <= hi <= length x - 1)%nat) by now apply clip_range.
  destruct (lookup_lt_is_Some_2 x (hi - 1)%nat) as [a Ha]; [lia|].
  destruct (lookup_lt_is_Some_2 x hi) as [b Hb]; [lia|].
  assert (Hab : a < b).
  { apply (strict_lookup_lt x (hi - 1) hi a b Hs); [lia|exact Ha|exact Hb]. }
  rewrite !nth_repeat_lt by lia.
  rewrite !nth_lookup, Ha, Hb. simpl.
  destruct (Req_dec_T (b - a) 0) as [E|_]; [lra|].
  f_equal. unfold Rdiv. ring.
Qed.

Lemma map_result_constant (x : list R) (c : R) (x_new : list R) :
  StronglySorted Rlt x -> (2 <= length x)%nat ->
  map_result (interp_linear x (repeat c (length x))) x_new
  = Ok (repeat c (length x_new)).
Proof.
  intros Hs Hn. induction x_new as [|v x_new IH]; [reflexivity|].
  simpl. rewrite (interp_linear_constant x c v Hs Hn). simpl.
  rewrite IH. reflexivity.
Qed.

Lemma existsb_false {A : Type} (p : A -> bool) (l : list A) :
  Forall (fun a => p a = false) l -> existsb p l = false.
Proof.
  induction 1 as [|a l Ha _ IH]; [reflexivity|]. simpl. now rewrite Ha, IH.
Qed.

(** [interp1d] of a constant column on an ascending, duplicate-free
    frequency axis that brackets every new frequency. *)
Lemma interp1d_constant (x : list R) (c : R) (x_new : list R) :
  StronglySorted Rle x -> NoDup x -> (2 <= length x)%nat ->
  Forall (fun v => exists lo hi, lo ∈ x /\ hi ∈ x /\ lo <= v <= hi) x_new ->
  interp1d x (repeat c (length x)) x_new = Ok (repeat c (length x_new)).
Proof.
  intros Hs Hnd Hn Hcov. unfold interp1d.
  rewrite repeat_length, Nat.eqb_refl. simpl.
  rewrite (argsort_ascending x Hs).
  rewrite take_inds_seq.
  replace (take_inds 0 (repeat c (length x)) (seq 0 (length x)))
    with (repeat c (length x)).
  2:{ rewrite <- (repeat_length c (length x)) at 3.
      now rewrite take_inds_seq. }
  destruct x as [|x_first xs] eqn:Ex; [simpl in Hn; lia|].
  rewrite <- Ex in *.
  rewrite existsb_false.
  2:{ eapply Forall_impl; [exact Hcov|].
      intros v (lo & hi & Hlo & _ & Hv & _). unfold Rlt_b.
      destruct (Rlt_dec v x_first) as [Hlt|]; [|reflexivity].
      rewrite Ex in Hs, Hlo.
      pose proof (sorted_first_le x_first xs lo Hs Hlo). lra. }
  rewrite existsb_false.
  2:{ eapply Forall_impl; [exact Hcov|].
      intros v (lo & hi & _ & Hhi & _ & Hv). unfold Rgt_b.
      destruct (Rgt_dec v (List.last x 0)) as [Hgt|]; [|reflexivity].
      pose proof (sorted_le_last x hi Hs Hhi). lra. }
  apply map_result_constant; [|exact Hn].
  now apply sorted_nodup_strict.
Qed.

(** ** interp_tf on a unity filter *)

Lemma Carg_one : Carg Cone = 0.
Proof.
  unfold Carg, atan2, Cone, Cre, Cim. simpl.
  destruct (Rlt_dec 0 1) as [_|H]; [|lra].
  replace (0 / 1) with 0 by lra. apply atan_0.
Qed.

Lemma ph_correct_zero : ph_correct (0 - 0) = 0.
Proof.
  unfold ph_correct. destruct (Rlt_dec _ PI) as [_|H]; [reflexivity|].
  exfalso. apply H. replace (0 - 0) with 0 by lra.
  rewrite Rabs_R0. apply PI_RGT_0.
Qed.

Lemma unwrap_from_zeros (n : nat) (acc : R) :
  acc = 0 -> unwrap_from 0 acc (repeat 0 n) = repeat 0 n.
Proof.
  revert acc. induction n as [|n IH]; intros acc ->; [reflexivity|].
  simpl. rewrite ph_correct_zero. f_equal; [lra|]. apply IH. lra.
Qed.

Lemma unwrap_zeros (n : nat) : unwrap (repeat 0 n) = repeat 0 n.
Proof.
  destruct n as [|n]; [reflexivity|]. simpl. f_equal.
  now apply unwrap_from_zeros.
Qed.

Lemma map_repeat {A B : Type} (f : A -> B) (a : A) (n : nat) :
  map f (repeat a n) = repeat (f a) n.
Proof. induction n as [|n IH]; simpl; [reflexivity|]. now rewrite IH. Qed.

Lemma take_inds_constant {A : Type} (d c : A) (l : list A) (inds : list nat) :
  Forall (fun a => a = c) l ->
  Forall (fun i => (i < length l)%nat) inds ->
  take_inds d l inds = repeat c (length inds).
Proof.
  intros Hc Hin. unfold take_inds.
  induction Hin as [|i inds Hi _ IH]; [reflexivity|]. simpl. f_equal;
    [|exact IH].
  destruct (lookup_lt_is_Some_2 l i Hi) as [a Ha].
  rewrite nth_lookup, Ha. simpl.
  rewrite Forall_lookup in Hc. exact (Hc i a Ha).
Qed.

Lemma zip_unity (n : nat) :
  zip_with (fun mag phase => Cmul (RtoC mag) (Cexp (Cmul Ci (RtoC phase))))
           (repeat 1 n) (repeat 0 n)
  = repeat Cone n.
Proof.
  induction n as [|n IH]; [reflexivity|]. simpl. rewrite IH. f_equal.
  rewrite Cexp_i_phase, cis_0. apply Cmul_one_r.
Qed.

Lemma interp_tf_unity (new_freq : list R) (comp_filt : Series R C) :
  length (index comp_filt) = length (values comp_filt) ->
  NoDup (index comp_filt) ->
  (2 <= length (index comp_filt))%nat ->
  Forall (fun z => z = Cone) (values comp_filt) ->
  Forall (fun v => exists lo hi,
              lo ∈ index comp_filt /\ hi ∈ index comp_filt /\ lo <= v <= hi)
         new_freq ->
  interp_tf new_freq comp_filt
  = Ok (mkSeries new_freq (repeat Cone (length new_freq))).
Proof.
  intros Hlen Hnd Hn Hone Hcov. unfold interp_tf.
  set (xs := take_inds 0 (index comp_filt) (argsort (index comp_filt))).
  assert (Hperm : xs ≡ₚ index comp_filt) by apply take_argsort_perm.
  assert (Hsorted : StronglySorted Rle xs) by apply take_argsort_sorted.
  assert (Hxn : length xs = length (index comp_filt))
    by now rewrite Hperm.
  assert (Hxnd : NoDup xs) by now rewrite Hperm.
  assert (Hxcov : Forall (fun v => exists lo hi,
                             lo ∈ xs /\ hi ∈ xs /\ lo <= v <= hi) new_freq).
  { eapply Forall_impl; [exact Hcov|].
    intros v (lo & hi & Hlo & Hhi & Hv). exists lo, hi.
    rewrite Hperm. auto. }
  rewrite (take_inds_constant Czero Cone).
  2:{ exact Hone. }
  2:{ rewrite <- Hlen. apply argsort_in_range. }
  rewrite argsort_length, <- Hxn.
  rewrite !map_repeat, Cmod_one, Carg_one, unwrap_zeros.
  rewrite (interp1d_constant xs 1 new_freq Hsorted Hxnd) by (lia || exact Hxcov).
  rewrite (interp1d_constant xs 0 new_freq Hsorted Hxnd) by (lia || exact Hxcov).
  simpl. now rewrite zip_unity.
Qed.

(** ** Sums of roots of unity *)

Lemma cis_neq_one (theta : R) : 0 < theta < 2 * PI -> cis theta <> Cone.
Proof.
  intros [Hlo Hhi] E.
  assert (Hc : cos theta = 1) by (apply (f_equal fst) in E; exact E).
  assert (Hs : 0 < sin (theta / 2)) by (apply sin_gt_0; lra).
  replace theta with (2 * (theta / 2)) in Hc by field.
  rewrite cos_2a_sin in Hc. nra.
Qed.

Lemma cis_neg (theta : R) : cis (- theta) = Cconj (cis theta).
Proof. symmetry. apply Cconj_cis. Qed.

Lemma cis_turns (k : nat) : cis (2 * PI * INR k) = Cone.
Proof.
  unfold cis, Cone.
  replace (2 * PI * INR k) with (0 + 2 * INR k * PI) by ring.
  now rewrite cos_period, sin_period, cos_0, sin_0.
Qed.

Lemma cis_turns_diff (a b : nat) : cis (2 * PI * (INR a - INR b)) = Cone.
Proof.
  replace (2 * PI * (INR a - INR b))
    with (2 * PI * INR a + - (2 * PI * INR b)) by ring.
  rewrite cis_add, cis_neg, !cis_turns. apply C_eq; cunfold; ring.
Qed.

(** The geometric sum: w S_n + 1 = S_n + w^n. *)
Lemma geometric_sum (theta : R) (n : nat) :
  Cadd (Cmul (cis theta) (Csum (fun k => cis (theta * INR k)) n)) Cone
  = Cadd (Csum (fun k => cis (theta * INR k)) n) (cis (theta * INR n)).
Proof.
  induction n as [|n IH].
  - simpl. rewrite Rmult_0_r, cis_0, Cmul_zero_r. reflexivity.
  - change (Csum (fun k => cis (theta * INR k)) (S n))
      with (Cadd (Csum (fun k => cis (theta * INR k)) n)
                 (cis (theta * INR n))).
    rewrite Cmul_add_distr_l.
    rewrite <- (cis_add theta (theta * INR n)).
    replace (theta + theta * INR n) with (theta * INR (S n))
      by (rewrite S_INR; ring).
    rewrite <- IH.
    set (S := Csum (fun k => cis (theta * INR k)) n).
    set (w := cis (theta * INR (Datatypes.S n))).
    apply C_eq; cunfold; ring.
Qed.

Lemma Cmul_cancel_one (w s : C) : w <> Cone -> Cmul w s = s -> s = Czero.
Proof.
  destruct w as [c d], s as [x y]. intros Hw E.
  assert (E1 : c * x - d * y = x) by (apply (f_equal fst) in E; exact E).
  assert (E2 : c * y + d * x = y) by (apply (f_equal snd) in E; exact E).
  assert (Hd : 0 < (c - 1) * (c - 1) + d * d).
  { destruct (Req_dec_T c 1) as [->|Hc].
    - destruct (Req_dec_T d 0) as [->|Hd0]; [now exfalso; apply Hw|].
      nra.
    - nra. }
  assert (A : c * x - d * y - x = 0) by lra.
  assert (B : c * y + d * x - y = 0) by lra.
  assert (Hx : ((c - 1) * (c - 1) + d * d) * x = 0).
  { replace (((c - 1) * (c - 1) + d * d) * x)
      with ((c - 1) * (c * x - d * y - x) + d * (c * y + d * x - y)) by ring.
    rewrite A, B. ring. }
  assert (Hy : ((c - 1) * (c - 1) + d * d) * y = 0).
  { replace (((c - 1) * (c - 1) + d * d) * y)
      with ((c - 1) * (c * y + d * x - y) - d * (c * x - d * y - x)) by ring.
    rewrite A, B. ring. }
  apply Rmult_integral in Hx, Hy.
  unfold Czero. f_equal; lra.
Qed.

(** The n-th roots of unity cis(2 pi d k / n), 0 <= k < n, sum to zero
    when d = a - b for two distinct positions a, b below n. *)
Lemma roots_sum_zero (n a b : nat) :
  (a < n)%nat -> (b < n)%nat -> a <> b ->
  Csum (fun k => cis (2 * PI * (INR a - INR b) / INR n * INR k)) n = Czero.
Proof.
  intros Ha Hb Hab.
  set (theta := 2 * PI * (INR a - INR b) / INR n).
  assert (Hn : 0 < INR n) by (apply lt_0_INR; lia).
  assert (Hturn : cis (theta * INR n) = Cone).
  { replace (theta * INR n) with (2 * PI * (INR a - INR b))
      by (unfold theta; field; lra).
    apply cis_turns_diff. }
  pose proof (geometric_sum theta n) as G. rewrite Hturn in G.
  assert (E : Cmul (cis theta) (Csum (fun k => cis (theta * INR k)) n)
              = Csum (fun k => cis (theta * INR k)) n).
  { revert G. generalize (Cmul (cis theta)
                            (Csum (fun k => cis (theta * INR k)) n)).
    generalize (Csum (fun k => cis (theta * INR k)) n).
    intros [x y] [u v] G. cunfold. inversion G. f_equal; lra. }
  apply (Cmul_cancel_one (cis theta)); [|exact E].
  pose proof PI_RGT_0 as Hpi.
  assert (Hbound : forall p q : nat, (p < n)%nat -> (q < p)%nat ->
            0 < 2 * PI * (INR p - INR q) / INR n < 2 * PI).
  { intros p q Hp Hq.
    assert (H1 : 1 <= INR p - INR q).
    { rewrite <- minus_INR by lia.
      change 1 with (INR 1). apply le_INR. lia. }
    assert (H2 : INR p - INR q < INR n).
    { assert (INR p < INR n) by (apply lt_INR; lia).
      pose proof (pos_INR q). lra. }
    split.
    - apply Rdiv_lt_0_compat; [nra|exact Hn].
    - apply Rmult_lt_reg_r with (INR n); [exact Hn|].
      unfold Rdiv. rewrite Rmult_assoc, Rinv_l by lra. nra. }
  destruct (Nat.lt_ge_cases b a) as [Hlt|Hge].
  - apply cis_neq_one. unfold theta. now apply Hbound.
  - intros Hone.
    assert (Hneg : cis (- theta) = Cone).
    { rewrite cis_neg, Hone. apply C_eq; cunfold; ring. }
    revert Hneg. apply cis_neq_one.
    replace (- theta) with (2 * PI * (INR b - INR a) / INR n)
      by (unfold theta; field; lra).
    apply Hbound; lia.
Qed.

Lemma roots_sum_same (n : nat) (theta : R) :
  theta = 0 -> Csum (fun k => cis (theta * INR k)) n = RtoC (INR n).
Proof.
  intros ->. induction n as [|n IH]; [reflexivity|].
  change (Csum (fun k => cis (0 * INR k)) (S n))
    with (Cadd (Csum (fun k => cis (0 * INR k)) n) (cis (0 * INR n))).
  rewrite IH, Rmult_0_l, cis_0, S_INR. apply C_eq; cunfold; ring.
Qed.

(** ** Algebra of finite sums *)

Lemma Csum_add (f g : nat -> C) (n : nat) :
  Csum (fun k => Cadd (f k) (g k)) n = Cadd (Csum f n) (Csum g n).
Proof.
  induction n as [|n IH]; simpl; [now rewrite Cadd_zero_l|].
  rewrite IH. apply C_eq; cunfold; ring.
Qed.

Lemma Csum_mul_r (f : nat -> C) (c : C) (n : nat) :
  Cmul (Csum f n) c = Csum (fun k => Cmul (f k) c) n.
Proof.
  induction n as [|n IH]; simpl; [apply Cmul_zero_l|].
  rewrite Cmul_add_distr_r, IH. reflexivity.
Qed.

Lemma Csum_mul_l (f : nat -> C) (c : C) (n : nat) :
  Cmul c (Csum f n) = Csum (fun k => Cmul c (f k)) n.
Proof.
  induction n as [|n IH]; simpl; [apply Cmul_zero_r|].
  rewrite Cmul_add_distr_l, IH. reflexivity.
Qed.

Lemma Csum_swap (g : nat -> nat -> C) (n m : nat) :
  Csum (fun k => Csum (fun p => g k p) m) n
  = Csum (fun p => Csum (fun k => g k p) n) m.
Proof.
  induction n as [|n IH]; simpl.
  - now rewrite Csum_zero.
  - rewrite IH, <- Csum_add. reflexivity.
Qed.

(** ** The inverse transform undoes the transform *)

Lemma fft_nth (a : list C) (k : nat) :
  (k < length a)%nat ->
  nth k (fft a) Czero =
    Csum (fun p : nat =>
            Cmul (nth p a Czero)
                 (cis (- (2 * PI * INR p * INR k / INR (length a)))))
         (length a).
Proof.
  intros Hk. rewrite nth_lookup, (fft_lookup a k Hk). reflexivity.
Qed.

Lemma ifft_fft_entry (a : list C) (m : nat) :
  (m < length a)%nat ->
  Csum (fun k : nat =>
          Cmul (nth k (fft a) Czero)
               (cis (2 * PI * INR m * INR k / INR (length a))))
       (length a)
  = Cmul (nth m a Czero) (RtoC (INR (length a))).
Proof.
  intros Hm. set (n := length a).
  assert (Hn : 0 < INR n) by (apply lt_0_INR; unfold n; lia).
  rewrite (Csum_ext _
    (fun k => Csum (fun p =>
       Cmul (nth p a Czero)
            (cis (2 * PI * (INR m - INR p) / INR n * INR k))) n)).
  2:{ intros k Hk. rewrite (fft_nth a k Hk). fold n.
      rewrite Csum_mul_r. apply Csum_ext. intros p _.
      rewrite <- Cmul_assoc, <- cis_add. do 2 f_equal. field. lra. }
  rewrite Csum_swap.
  rewrite (Csum_ext _
    (fun p => Cmul (nth p a Czero)
                (Csum (fun k =>
                   cis (2 * PI * (INR m - INR p) / INR n * INR k)) n))).
  2:{ intros p _. now rewrite Csum_mul_l. }
  rewrite (Csum_single _ n m Hm).
  - f_equal. apply roots_sum_same. unfold Rdiv. ring.
  - intros p Hp Hne. rewrite roots_sum_zero by (lia || congruence).
    apply Cmul_zero_r.
Qed.

Theorem ifft_fft (a : list C) : ifft (fft a) = a.
Proof.
  apply list_eq. intros m. unfold ifft. rewrite fft_length.
  rewrite lookup_map_seq. destruct (decide _) as [Hm|Hm].
  - rewrite (ifft_fft_entry a m Hm).
    destruct (lookup_lt_is_Some_2 a m Hm) as [z Hz].
    rewrite Hz, nth_lookup, Hz. simpl. f_equal.
    assert (Hn : 0 < INR (length a)) by (apply lt_0_INR; lia).
    destruct z as [x y]. apply C_eq; cunfold; field; lra.
  - symmetry. apply lookup_ge_None. lia.
Qed.

(** ** apply_filter with a unity filter *)

Lemma is_max_nonempty (l : list R) : l <> [] -> exists m, is_max m l.
Proof.
  destruct l as [|x l]; [congruence|]. intros _.
  exists (fold_left Rmax l x). apply fold_left_Rmax_spec.
Qed.

Lemma scale_cancel (z : C) (n : R) :
  n <> 0 -> Cdivr (Cmulr (Cdivr (Cmulr z 2) n) n) 2 = z.
Proof. intros Hn. destruct z as [x y]. apply C_eq; cunfold; field; lra. Qed.

Lemma zip_mul_ones (l : list C) (n : nat) :
  length l = n -> zip_with Cmul l (repeat Cone n) = l.
Proof.
  intros <-. induction l as [|z l IH]; [reflexivity|]. simpl.
  now rewrite IH, Cmul_one_r.
Qed.

Lemma map_Cre_RtoC (l : list R) : map Cre (map RtoC l) = l.
Proof.
  induction l as [|x l IH]; [reflexivity|]. simpl. now rewrite IH.
Qed.

(** The last bin is -1/(n d). *)
Lemma fftfreq_minus_one (n : nat) (d : R) :
  (2 <= n)%nat -> In (IZR (-1) * (1 / (INR n * d))) (fftfreq n d).
Proof.
  intros Hn. unfold fftfreq.
  apply (in_map (fun k : Z => IZR k * (1 / (INR n * d)))).
  apply in_or_app. right.
  assert (Hh : (1 <= n / 2)%nat).
  { apply Nat.div_le_lower_bound; lia. }
  replace (-1)%Z with (Z.of_nat (n / 2 - 1) - Z.of_nat (n / 2))%Z by lia.
  apply (in_map (fun j : nat => (Z.of_nat j - Z.of_nat (n / 2))%Z)).
  apply in_seq. lia.
Qed.

Lemma fftfreq_zero_in (n : nat) (d : R) : In 0 (fftfreq n d).
Proof.
  apply list_elem_of_In. apply list_elem_of_lookup. exists 0%nat.
  apply fftfreq_first.
Qed.

(** A filter axis that brackets every bin of a signal with two or more
    samples holds at least two frequencies. *)
Lemma covering_axis_length (idx : list R) (n : nat) (d : R) :
  (2 <= n)%nat -> INR n * d <> 0 ->
  Forall (fun v => exists lo hi, In lo idx /\ In hi idx /\ lo <= v <= hi)
         (fftfreq n d) ->
  (2 <= length idx)%nat.
Proof.
  intros Hn Hnd Hcov.
  rewrite List.Forall_forall in Hcov.
  destruct (Hcov 0 (fftfreq_zero_in n d)) as (lo & hi & Hlo & Hhi & H0).
  destruct (Hcov _ (fftfreq_minus_one n d Hn))
    as (lo' & hi' & Hlo' & Hhi' & H1).
  destruct idx as [|x [|y idx]]; simpl; try lia.
  - destruct Hlo.
  - simpl in *.
    destruct Hlo as [<-|[]], Hhi as [<-|[]], Hlo' as [<-|[]], Hhi' as [<-|[]].
    assert (E : IZR (-1) * (1 / (INR n * d)) = 0) by lra.
    apply Rmult_integral in E. destruct E as [E|E]; [lra|].
    unfold Rdiv in E. rewrite Rmult_1_l in E.
    now apply Rinv_neq_0_compat in Hnd.
Qed.

Lemma series_eta {K V : Type} (s : Series K V) :
  mkSeries (index s) (values s) = s.
Proof. now destruct s. Qed.

(** C1: for a uniformly sampled time signal (at least two samples, a
    nonzero sampling interval) and a unity filter (value 1 at each of its
    distinct frequencies) whose frequencies bracket every FFT bin of the
    signal, apply_filter returns the original signal: the forward scale
    2/N and the inverse compensation N/2 cancel, and the inverse
    transform is the signal itself, with zero imaginary part. *)
Theorem apply_filter_C1_all_pass input_tsig comp_filt t0 t1 :
  length (index input_tsig) = length (values input_tsig) ->
  index input_tsig !! 0%nat = Some t0 ->
  index input_tsig !! 1%nat = Some t1 ->
  t1 <> t0 ->
  length (index comp_filt) = length (values comp_filt) ->
  NoDup (index comp_filt) ->
  Forall (fun z => z = Cone) (values comp_filt) ->
  Forall (fun v => exists lo hi,
              In lo (index comp_filt) /\ In hi (index comp_filt) /\
              lo <= v <= hi)
         (fftfreq (length (values input_tsig)) (t1 - t0)) ->
  apply_filter input_tsig comp_filt = Ok input_tsig /\
  apply_filter_complex input_tsig comp_filt
    = Ok (map RtoC (values input_tsig)) /\
  (forall z : C,
      Cdivr (Cmulr (Cdivr (Cmulr z 2) (INR (length (values input_tsig))))
                   (INR (length (values input_tsig)))) 2 = z).
Proof.
  intros Hlen H0 H1 Hdt Hflen Hnd Hone Hcov.
  set (n := length (values input_tsig)) in *.
  assert (Hn : (2 <= n)%nat).
  { apply lookup_lt_Some in H1. lia. }
  assert (HnR : 0 < INR n) by (apply lt_0_INR; lia).
  assert (Hnd0 : INR n * (t1 - t0) <> 0) by nra.
  assert (Hfl : length (fftfreq n (t1 - t0)) = n)
    by (apply fftfreq_length; lia).
  destruct (is_max_nonempty (fftfreq n (t1 - t0))) as [f_max Hf].
  { intros E. rewrite E in Hfl. simpl in Hfl. lia. }
  assert (Hfn : (2 <= length (index comp_filt))%nat)
    by exact (covering_axis_length _ n (t1 - t0) Hn Hnd0 Hcov).
  destruct (is_max_nonempty (index comp_filt)) as [filt_max Hc].
  { intros E. rewrite E in Hfn. simpl in Hfn. lia. }
  assert (Hle : ~ f_max > filt_max).
  { destruct Hf as [Hin _]. rewrite List.Forall_forall in Hcov.
    destruct (Hcov f_max Hin) as (lo & hi & _ & Hhi & _ & Hv).
    destruct Hc as [_ Hall]. rewrite List.Forall_forall in Hall.
    specialize (Hall hi Hhi). lra. }
  assert (Hcov' : Forall (fun v => exists lo hi,
              lo ∈ index comp_filt /\ hi ∈ index comp_filt /\ lo <= v <= hi)
            (fftfreq n (t1 - t0))).
  { eapply Forall_impl; [exact Hcov|].
    intros v (lo & hi & Hlo & Hhi & Hv). exists lo, hi.
    rewrite !list_elem_of_In. auto. }
  assert (Hscale : forall z : C,
            Cdivr (Cmulr (Cdivr (Cmulr z 2) (INR n)) (INR n)) 2 = z).
  { intros z. apply scale_cancel. lra. }
  assert (E : apply_filter_complex input_tsig comp_filt
              = Ok (map RtoC (values input_tsig))).
  { rewrite (apply_filter_complex_steps _ _ t0 t1 f_max filt_max
               H0 H1 Hnd0 Hf Hc).
    fold n. destruct (Rgt_dec f_max filt_max) as [Hgt|_]; [contradiction|].
    rewrite (interp_tf_unity _ comp_filt Hflen Hnd Hfn Hone Hcov').
    simpl. f_equal. rewrite Hfl.
    rewrite zip_mul_ones
      by (rewrite length_map, fft_length, length_map; reflexivity).
    rewrite map_map.
    rewrite (map_ext _ (fun z => z)) by (intros z; apply Hscale).
    rewrite map_id. apply ifft_fft. }
  split; [|split; [exact E|exact Hscale]].
  unfold apply_filter. rewrite E. simpl.
  rewrite map_Cre_RtoC. f_equal. apply series_eta.
Qed.

Lemma apply_filter_C1_all_pass_witness :
  apply_filter sig4_ramp filt_unity = Ok sig4_ramp /\
  apply_filter_complex sig4_ramp filt_unity
    = Ok (map RtoC (values sig4_ramp)) /\
  (forall z : C,
      Cdivr (Cmulr (Cdivr (Cmulr z 2) (INR (length (values sig4_ramp))))
                   (INR (length (values sig4_ramp)))) 2 = z).
Proof.
  apply (apply_filter_C1_all_pass sig4_ramp filt_unity 0 1).
  - reflexivity.
  - reflexivity.
  - reflexivity.
  - lra.
  - reflexivity.
  - simpl. repeat (apply NoDup_cons; split;
                   [rewrite ?elem_of_cons, elem_of_nil; lra|]).
    apply NoDup_nil_2.
  - simpl. repeat constructor.
  - simpl length. rewrite fftfreq_4_1. simpl.
    repeat (apply List.Forall_cons;
            [exists (- (1 / 2)), (1 / 2); simpl; split; [tauto|];
             split; [tauto|lra]|]).
    apply List.Forall_nil.
Defined.

(** ** Averaged spectral estimates of a signal against itself *)

Lemma bind_ok {A B : Type} (m : result A) (k : A -> result B) (b : B) :
  bind m k = Ok b -> exists a, m = Ok a /\ k a = Ok b.
Proof. destruct m as [a| |]; simpl; [eauto|discriminate|discriminate]. Qed.

Lemma map_result_total {A B : Type} (f : A -> result B) (l : list A) :
  (forall a, exists b, f a = Ok b) -> exists bs, map_result f l = Ok bs.
Proof.
  intros Hf. induction l as [|a l [bs IH]]; [now exists []|].
  destruct (Hf a) as [b Hb]. exists (b :: bs). simpl.
  now rewrite Hb, IH.
Qed.

Lemma Cim_conj_mul (z : C) : Cim (Cmul (Cconj z) z) = 0.
Proof. destruct z as [a b]. cunfold. ring. Qed.

Lemma self_bin_real scale nperseg k z : Cim (self_bin scale nperseg k z) = 0.
Proof.
  unfold self_bin, Cmulr. cbn [Cim Cre fst snd].
  rewrite Cim_conj_mul. ring.
Qed.

Lemma zip_self {A B : Type} (f : A -> A -> B) (l : list A) :
  zip_with f l l = map (fun a => f a a) l.
Proof.
  induction l as [|a l IH]; [reflexivity|]. simpl. now rewrite IH.
Qed.

Lemma imap_map {A B D : Type} (f : nat -> B -> D) (g : A -> B) (l : list A) :
  imap f (map g l) = imap (fun k a => f k (g a)) l.
Proof.
  revert f. induction l as [|a l IH]; intros f; [reflexivity|].
  simpl. f_equal. apply IH.
Qed.

Section SpectralFacts.
Variable get_window : string -> nat -> result (list R).
Variable detrend_func : string -> list R -> result (list R).

(** The cross spectra of a signal against itself, segment by segment. *)
Lemma spectral_helper_self x fs window nperseg noverlap detrend scaling
    freqs P :
  spectral_helper get_window detrend_func x x fs window nperseg noverlap
    detrend scaling = Ok (freqs, P) ->
  P = [] \/
  exists scale win np ns pad rx,
    fft_helper detrend_func (x ++ repeat 0 pad) win detrend np ns = Ok rx /\
    P = map (imap (self_bin scale np)) rx.
Proof.
  unfold spectral_helper. destruct x as [|a l].
  { intros H. inversion H. now left. }
  set (x := a :: l). intros H. right.
  destruct (nperseg <? 1)%Z; [discriminate|].
  apply bind_ok in H. destruct H as (win & _ & H).
  destruct (_ <=? noverlap)%Z; [discriminate|].
  apply bind_ok in H. destruct H as (scale & _ & H).
  apply bind_ok in H. destruct H as (rx & Hx & H).
  apply bind_ok in H. destruct H as (ry & Hy & H).
  rewrite Hx in Hy. inversion Hy; subst ry. inversion H; subst.
  eexists scale, win, _, _, _, rx. split; [exact Hx|].
  rewrite zip_self. apply map_ext. intros sx.
  rewrite zip_self, imap_map. reflexivity.
Qed.

Lemma fft_helper_total x win detrend nperseg nstep :
  (forall seg, exists d, detrend_func detrend seg = Ok d) ->
  exists rx, fft_helper detrend_func x win detrend nperseg nstep = Ok rx.
Proof.
  intros Hd. unfold fft_helper. apply map_result_total. intros seg.
  destruct (Hd seg) as [d ->]. simpl. eauto.
Qed.

Lemma csd_self_total x fs window nperseg noverlap detrend win :
  x <> [] ->
  fs <> 0 ->
  (1 <= nperseg <= Z.of_nat (length x))%Z ->
  (noverlap < nperseg)%Z ->
  get_window window (Z.to_nat nperseg) = Ok win ->
  np_sum (zip_with Rmult win win) <> 0 ->
  (forall seg, exists d, detrend_func detrend seg = Ok d) ->
  exists freqs P,
    csd get_window detrend_func x x fs window nperseg noverlap detrend
        "density" = Ok (freqs, P).
Proof.
  intros Hx Hfs Hnp Hno Hwin Hsum Hd. unfold csd, spectral_helper.
  destruct x as [|a l]; [contradiction|]. set (x := a :: l) in *.
  destruct (nperseg <? 1)%Z eqn:E1; [apply Z.ltb_lt in E1; lia|].
  rewrite Nat.max_id, Nat.min_l by lia. rewrite Hwin.
  cbn [bind].
  destruct (Z.of_nat (Z.to_nat nperseg) <=? noverlap)%Z eqn:E2;
    [apply Z.leb_le in E2; lia|].
  change (String.eqb "density" "density") with true. cbv iota.
  destruct (Req_dec_T (fs * np_sum (zip_with Rmult win win)) 0) as [E|_].
  { apply Rmult_integral in E. tauto. }
  cbn [bind].
  destruct (fft_helper_total (x ++ repeat 0 (length x - length x)) win
              detrend (Z.to_nat nperseg)
              (Z.to_nat (Z.of_nat (Z.to_nat nperseg) - noverlap)) Hd)
    as [rx Hrx].
  rewrite Hrx. cbn [bind fst snd]. eauto.
Qed.

Lemma nth_nth_real (P : list (list C)) (s k : nat) :
  Forall (Forall (fun z => Cim z = 0)) P ->
  Cim (nth k (nth s P []) Czero) = 0.
Proof.
  intros HP. rewrite Forall_lookup in HP.
  rewrite (nth_lookup P s). destruct (P !! s) as [p|] eqn:Ep; simpl.
  - specialize (HP s p Ep). rewrite Forall_lookup in HP.
    rewrite nth_lookup. destruct (p !! k) as [z|] eqn:Ez; simpl;
      [exact (HP k z Ez)|reflexivity].
  - now destruct k.
Qed.

Lemma Csum_real (f : nat -> C) (n : nat) :
  (forall s, Cim (f s) = 0) -> Cim (Csum f n) = 0.
Proof.
  intros Hf. induction n as [|n IH]; [reflexivity|]. simpl.
  unfold Cadd. cbn [Cim snd]. rewrite IH, Hf. ring.
Qed.

Lemma segment_mean_real (nfreq : nat) (P : list (list C)) :
  Forall (Forall (fun z => Cim z = 0)) P ->
  Forall (fun z => Cim z = 0) (segment_mean nfreq P).
Proof.
  intros HP. unfold segment_mean.
  destruct P as [|p [|q P]]; [constructor|now inversion HP|].
  set (Q := p :: q :: P) in *.
  apply Forall_fmap. apply Forall_forall. intros k _. cbv beta.
  unfold Cdivr, compose. cbn [Cim snd].
  rewrite Csum_real; [unfold Rdiv; ring|].
  intros s. now apply nth_nth_real.
Qed.

Lemma csd_self_real x fs window nperseg noverlap detrend scaling freqs P :
  csd get_window detrend_func x x fs window nperseg noverlap detrend scaling
    = Ok (freqs, P) ->
  Forall (fun z => Cim z = 0) P.
Proof.
  unfold csd. intros H. apply bind_ok in H.
  destruct H as ([f Q] & HQ & H). inversion H; subst. cbn [fst snd].
  apply segment_mean_real.
  apply spectral_helper_self in HQ.
  destruct HQ as [->|(scale & win & np & ns & pad & rx & _ & ->)];
    [constructor|].
  apply Forall_fmap. apply Forall_forall. intros sx _. simpl.
  apply Forall_lookup. intros k z Hz.
  rewrite list_lookup_imap in Hz.
  destruct (sx !! k) as [w|]; [|discriminate].
  simpl in Hz. inversion Hz. apply self_bin_real.
Qed.

(** Both estimates of a signal against itself, from its averaged cross
    spectrum. *)
Lemma averaged_tf_self input_tsig navgs overlap window detrend t0 t1
    freqs P :
  index input_tsig !! 0%nat = Some t0 ->
  index input_tsig !! 1%nat = Some t1 ->
  t1 <> t0 ->
  navgs <> 0%Z ->
  csd get_window detrend_func (values input_tsig) (values input_tsig)
      (1 / (t1 - t0)) window
      (Z.of_nat (length (values input_tsig)) / navgs)
      (py_int (IZR (Z.of_nat (length (values input_tsig)) / navgs) * overlap))
      detrend "density" = Ok (freqs, P) ->
  averaged_psd get_window detrend_func input_tsig navgs overlap window
    detrend "density" = Ok (mkSeries freqs (map Cre P)) /\
  averaged_tf get_window detrend_func input_tsig input_tsig navgs overlap
    window detrend =
    Ok (mkTFFrame freqs
          (zip_with cdiv P (map Cre P))
          (zip_with (fun pxy pp =>
                       match fdiv (Cmod pxy ^ 2) (fst pp) with
                       | Some q => fdiv q (snd pp)
                       | None => None
                       end)
                    P (zip (map Cre P) (map Cre P)))).
Proof.
  intros H0 H1 Hdt Hnavgs Hcsd.
  assert (Hpsd : averaged_psd get_window detrend_func input_tsig navgs
                   overlap window detrend "density"
                 = Ok (mkSeries freqs (map Cre P))).
  { unfold averaged_psd.
    rewrite (getitem_lookup _ _ _ H1), (getitem_lookup _ _ _ H0).
    cbn [bind].
    destruct (Req_dec_T (t1 - t0) 0) as [E|_]; [lra|].
    destruct (navgs =? 0)%Z eqn:En; [apply Z.eqb_eq in En; contradiction|].
    unfold welch. rewrite Hcsd. reflexivity. }
  split; [exact Hpsd|].
  unfold averaged_tf.
  rewrite (getitem_lookup _ _ _ H1), (getitem_lookup _ _ _ H0).
  cbn [bind].
  destruct (Req_dec_T (t1 - t0) 0) as [E|_]; [lra|].
  destruct (navgs =? 0)%Z eqn:En; [apply Z.eqb_eq in En; contradiction|].
  rewrite Hpsd. cbn [bind]. rewrite Hcsd. cbn [bind].
  unfold coherence, welch. rewrite Hcsd. reflexivity.
Qed.
End SpectralFacts.

(** The estimates at one bin whose cross spectrum is real. *)
Lemma self_estimates_at (P : list C) (k : nat) (p : R) :
  Forall (fun z => Cim z = 0) P ->
  map Cre P !! k = Some p ->
  zip_with cdiv P (map Cre P) !! k
    = Some (if Req_dec_T p 0 then None else Some Cone) /\
  zip_with (fun pxy pp =>
              match fdiv (Cmod pxy ^ 2) (fst pp) with
              | Some q => fdiv q (snd pp)
              | None => None
              end)
           P (zip (map Cre P) (map Cre P)) !! k
    = Some (if Req_dec_T p 0 then None else Some 1).
Proof.
  intros Hreal Hp.
  change (map Cre P) with (Cre <$> P) in *.
  rewrite list_lookup_fmap in Hp.
  destruct (P !! k) as [z|] eqn:Ez; [|discriminate].
  simpl in Hp. inversion Hp; subst p.
  rewrite Forall_lookup in Hreal. pose proof (Hreal k z Ez) as Him.
  assert (Hz : Cre <$> P !! k = Some (Cre z)) by now rewrite Ez.
  split.
  - rewrite lookup_zip_with, Ez. simpl.
    rewrite list_lookup_fmap, Ez. simpl. f_equal.
    unfold cdiv. destruct (Req_dec_T (Cre z) 0) as [|Hne]; [reflexivity|].
    f_equal. destruct z as [a b]. cunfold. subst b.
    apply C_eq; cunfold; field; exact Hne.
  - rewrite lookup_zip_with, Ez. simpl.
    rewrite lookup_zip_with, list_lookup_fmap, Ez. simpl.
    f_equal. unfold fdiv.
    destruct (Req_dec_T (Cre z) 0) as [|Hne]; [reflexivity|].
    destruct (Req_dec_T (Cre z) 0) as [|_]; [contradiction|].
    f_equal. unfold Cmod. rewrite Him.
    replace (Cre z * Cre z + 0 * 0) with (Cre z * Cre z) by ring.
    rewrite Rmult_1_r, sqrt_sqrt by nra. field. exact Hne.
Qed.

(** ** The number of averages and the overlap *)

Lemma py_int_overlap (n : Z) (overlap : R) :
  (1 <= n)%Z -> 0 <= overlap < 1 ->
  (0 <= py_int (IZR n * overlap) < n)%Z.
Proof.
  intros Hn [Hlo Hhi].
  assert (HnR : 1 <= IZR n) by now apply IZR_le.
  assert (Hx : 0 <= IZR n * overlap) by nra.
  unfold py_int. destruct (Rle_dec 0 (IZR n * overlap)) as [_|H];
    [|contradiction].
  destruct (Zfloor_bound (IZR n * overlap)) as [Hf1 Hf2]. split.
  - apply Zfloor_lub. exact Hx.
  - apply lt_IZR. nra.
Qed.

Lemma nperseg_bounds (n navgs : Z) :
  (1 <= navgs <= n)%Z -> (1 <= n / navgs <= n)%Z.
Proof.
  intros H. split.
  - apply Z.div_le_lower_bound; lia.
  - apply Z.div_le_upper_bound; nia.
Qed.

(** ** The zero signal *)

Lemma py_int_half_4 : py_int (IZR (Z.of_nat 4 / 1) * 0.5) = 2%Z.
Proof.
  change (Z.of_nat 4 / 1)%Z with 4%Z.
  unfold py_int. destruct (Rle_dec 0 (4 * 0.5)) as [_|H]; [|lra].
  apply Zfloor_eq. lra.
Qed.

(** The averaged cross spectrum of four zero samples against themselves
    (one average, boxcar window, mean removed) vanishes at bin 0. *)
Lemma csd_zero_signal :
  exists freqs P,
    csd boxcar_window constant_detrend (values sig4) (values sig4)
        (1 / (1 - 0)) "boxcar" (Z.of_nat (length (values sig4)) / 1)
        (py_int (IZR (Z.of_nat (length (values sig4)) / 1) * 0.5))
        "constant" "density" = Ok (freqs, P) /\
    exists z, P !! 0%nat = Some z /\ Cre z = 0.
Proof.
  simpl length. rewrite py_int_half_4.
  unfold csd, spectral_helper.
  cbn -[Rmult Rplus Rminus Rdiv INR np_sum fft rfftfreq IZR Rinv].
  change (Z.to_nat (Z.of_nat 4 `div` 1) `min` 4)%nat with 4%nat.
  change (Z.of_nat 4 `div` 1 <? 1)%Z with false.
  change (Z.of_nat 4 <=? 2)%Z with false.
  cbv iota.
  destruct (Req_dec_T _ 0) as [E|_].
  { exfalso. unfold np_sum in E. simpl in E. lra. }
  cbn [bind].
  unfold fft_helper, segments.
  change ((length [0; 0; 0; 0] - 4) `div` Z.to_nat (Z.of_nat 4 - 2) + 1)%nat
    with 1%nat.
  cbn -[Rmult Rplus Rminus Rdiv INR np_sum fft rfftfreq IZR Rinv rfft].
  eexists _, _. split; [reflexivity|].
  unfold rfft.
  cbn -[Rmult Rplus Rminus Rdiv INR np_sum rfftfreq IZR Rinv cis Cmul Cconj
        Cmulr RtoC Csum].
  eexists. split; [reflexivity|].
  unfold np_sum. cunfold. simpl. field.
Qed.

(** C3 (as stated) fails on the zero signal: its averaged PSD is zero,
    the division CSD / PSD is 0/0, and the transfer function estimate and
    the coherence at bin 0 are non-finite, not 1+0i and 1. *)
Lemma averaged_tf_C3_zero_signal :
  exists out,
    averaged_tf boxcar_window constant_detrend sig4 sig4 1 0.5
                "boxcar" "constant" = Ok out /\
    tf out !! 0%nat = Some None /\
    coh out !! 0%nat = Some None /\
    tf out !! 0%nat <> Some (Some Cone) /\
    coh out !! 0%nat <> Some (Some 1).
Proof.
  destruct csd_zero_signal as (freqs & P & Hcsd & z & Hz & Hre).
  destruct (averaged_tf_self boxcar_window constant_detrend sig4 1 0.5
              "boxcar" "constant" 0 1 freqs P)
    as [_ Hout]; try reflexivity; try lra; try lia; [exact Hcsd|].
  eexists. split; [exact Hout|]. cbn [tf coh].
  destruct (self_estimates_at P 0%nat 0) as [Htf Hcoh].
  - now apply csd_self_real in Hcsd.
  - change (map Cre P) with (Cre <$> P).
    rewrite list_lookup_fmap, Hz. simpl. now rewrite Hre.
  - destruct (Req_dec_T 0 0) as [_|H]; [|contradiction].
    rewrite Htf, Hcoh. repeat split; discriminate.
Qed.

(** C3 (amended): for every uniformly sampled real signal x (two or more
    samples, nonzero sampling interval), every number of averages navgs
    with 1 <= navgs <= len(x), an overlap in [0, 1), a window of nonzero
    energy and a known detrend type, averaged_tf(x, x) returns, at every
    frequency bin where the averaged PSD of x is nonzero, the transfer
    function estimate 1+0i and the coherence 1; at a bin where the PSD is
    zero both are non-finite. *)
Theorem averaged_tf_C3_self_identity
    (get_window : string -> nat -> result (list R))
    (detrend_func : string -> list R -> result (list R))
    input_tsig (navgs : Z) (overlap : R) (window detrend : string)
    (t0 t1 : R) (win : list R) :
  index input_tsig !! 0%nat = Some t0 ->
  index input_tsig !! 1%nat = Some t1 ->
  t1 <> t0 ->
  (1 <= navgs <= Z.of_nat (length (values input_tsig)))%Z ->
  0 <= overlap < 1 ->
  get_window window
    (Z.to_nat (Z.of_nat (length (values input_tsig)) / navgs)) = Ok win ->
  np_sum (zip_with Rmult win win) <> 0 ->
  (forall seg, exists d, detrend_func detrend seg = Ok d) ->
  exists psd out,
    averaged_psd get_window detrend_func input_tsig navgs overlap window
                 detrend "density" = Ok psd /\
    averaged_tf get_window detrend_func input_tsig input_tsig navgs overlap
                window detrend = Ok out /\
    tf_index out = index psd /\
    forall (k : nat) (p : R),
      values psd !! k = Some p ->
      (p <> 0 ->
       tf out !! k = Some (Some Cone) /\ coh out !! k = Some (Some 1)) /\
      (p = 0 -> tf out !! k = Some None /\ coh out !! k = Some None).
Proof.
  intros H0 H1 Hdt Hnavgs Hov Hwin Hsum Hdet.
  set (n := Z.of_nat (length (values input_tsig))) in *.
  pose proof (nperseg_bounds n navgs Hnavgs) as Hnp.
  pose proof (py_int_overlap (n / navgs) overlap (proj1 Hnp) Hov) as Hno.
  assert (Hfs : 1 / (t1 - t0) <> 0).
  { unfold Rdiv. rewrite Rmult_1_l. apply Rinv_neq_0_compat. lra. }
  assert (Hx : values input_tsig <> []).
  { intros E. unfold n in Hnavgs. rewrite E in Hnavgs. simpl in Hnavgs. lia. }
  destruct (csd_self_total get_window detrend_func (values input_tsig)
              (1 / (t1 - t0)) window (n / navgs)
              (py_int (IZR (n / navgs) * overlap)) detrend win
              Hx Hfs Hnp (proj2 Hno) Hwin Hsum Hdet)
    as (freqs & P & Hcsd).
  destruct (averaged_tf_self get_window detrend_func input_tsig navgs overlap
              window detrend t0 t1 freqs P H0 H1 Hdt)
    as [Hpsd Hout]; [lia|exact Hcsd|].
  eexists _, _. split; [exact Hpsd|]. split; [exact Hout|].
  cbn [tf_index index values tf coh]. split; [reflexivity|].
  intros k p Hp.
  destruct (self_estimates_at P k p) as [Htf Hcoh];
    [now apply csd_self_real in Hcsd|exact Hp|].
  rewrite Htf, Hcoh.
  destruct (Req_dec_T p 0) as [E|E]; split; intros H;
    try contradiction; split; reflexivity.
Qed.

Lemma averaged_tf_C3_self_identity_witness :
  exists psd out,
    averaged_psd boxcar_window constant_detrend sig4_ramp 1 0.5 "boxcar"
                 "constant" "density" = Ok psd /\
    averaged_tf boxcar_window constant_detrend sig4_ramp sig4_ramp 1 0.5
                "boxcar" "constant" = Ok out /\
    tf_index out = index psd /\
    forall (k : nat) (p : R),
      values psd !! k = Some p ->
      (p <> 0 ->
       tf out !! k = Some (Some Cone) /\ coh out !! k = Some (Some 1)) /\
      (p = 0 -> tf out !! k = Some None /\ coh out !! k = Some None).
Proof.
  apply (averaged_tf_C3_self_identity boxcar_window constant_detrend
           sig4_ramp 1 0.5 "boxcar" "constant" 0 1 (repeat 1 4)).
  - reflexivity.
  - reflexivity.
  - lra.
  - simpl. lia.
  - lra.
  - reflexivity.
  - unfold np_sum. simpl. lra.
  - intros seg. eexists. reflexivity.
Defined.

(** * Further properties of the module *)

(** ** get_1d_plant: shapes, lengths, bounds *)

Lemma for_each_gaussian_length (x_vec : list R) w cs (plant plant' : list R) :
  length plant = length x_vec ->
  for_each (gaussian_step x_vec w) cs plant = Ok plant' ->
  length plant' = length x_vec.
Proof.
  revert plant. induction cs as [|c cs IH]; intros plant Hl H; simpl in H.
  - inversion H. now subst.
  - apply bind_ok in H. destruct H as (p1 & H1 & H).
    apply (IH p1); [|exact H].
    unfold gaussian_step in H1. destruct (Req_dec_T _ _); [discriminate|].
    inversion H1. rewrite length_zip_with, length_map. lia.
Qed.

Lemma get_1d_plant_grid centers ref_center width shape dx xmax plant x_vec :
  get_1d_plant centers ref_center width shape dx xmax = Ok (plant, x_vec) ->
  dx <> 0 /\ x_vec = plant_grid dx xmax.
Proof.
  unfold get_1d_plant, arange. destruct (Req_dec_T dx 0) as [|Hdx];
    [discriminate|]. cbn [bind]. intros H.
  split; [exact Hdx|].
  destruct (String.eqb (lower shape) "square"); [now inversion H|].
  destruct (String.eqb (lower shape) "triangle"); [now inversion H|].
  destruct (String.eqb (lower shape) "gaussian"); [|discriminate].
  apply bind_ok in H. destruct H as (p & _ & H). now inversion H.
Qed.

(** X: an unsupported shape tag is reported with the tag as it was given. *)
Theorem get_1d_plant_unsupported_shape
    centers ref_center width shape dx xmax :
  dx <> 0 ->
  lower shape <> "square"%string ->
  lower shape <> "triangle"%string ->
  lower shape <> "gaussian"%string ->
  get_1d_plant centers ref_center width shape dx xmax
  = Raise (ValueError (no_info_msg shape)).
Proof.
  intros Hdx H1 H2 H3. unfold get_1d_plant.
  rewrite (arange_nonzero _ _ _ Hdx). cbn [bind].
  apply String.eqb_neq in H1, H2, H3. now rewrite H1, H2, H3.
Qed.

Lemma get_1d_plant_unsupported_shape_witness :
  get_1d_plant [0] 0 None "Circle" 1 100
  = Raise (ValueError (no_info_msg "Circle")).
Proof.
  apply (get_1d_plant_unsupported_shape [0] 0 None "Circle" 1 100).
  - lra.
  - discriminate.
  - discriminate.
  - discriminate.
Defined.

(** X: the shape tag is matched without regard to letter case. *)
Theorem get_1d_plant_case_insensitive
    centers ref_center width shape1 shape2 dx xmax :
  lower shape1 = lower shape2 ->
  lower shape1 = "square"%string \/ lower shape1 = "triangle"%string \/
    lower shape1 = "gaussian"%string ->
  get_1d_plant centers ref_center width shape1 dx xmax
  = get_1d_plant centers ref_center width shape2 dx xmax.
Proof.
  intros Heq Hs. unfold get_1d_plant. rewrite <- Heq.
  destruct (arange _ _ dx); cbn [bind]; try reflexivity.
  destruct Hs as [-> | [-> | ->]]; reflexivity.
Qed.

Lemma get_1d_plant_case_insensitive_witness :
  get_1d_plant [0; 3] 0 (Some 2) "Square" 1 100
  = get_1d_plant [0; 3] 0 (Some 2) "SQUARE" 1 100.
Proof.
  apply (get_1d_plant_case_insensitive [0; 3] 0 (Some 2) "Square" "SQUARE").
  - reflexivity.
  - left. reflexivity.
Defined.

Lemma get_1d_plant_lengths
    centers ref_center width shape dx xmax plant x_vec :
  get_1d_plant centers ref_center width shape dx xmax = Ok (plant, x_vec) ->
  length plant = length x_vec.
Proof.
  unfold get_1d_plant. destruct (arange _ _ dx) as [xv| |]; cbn [bind];
    try discriminate.
  destruct (String.eqb (lower shape) "square").
  { intros H. inversion H; subst.
    rewrite fold_square_length. apply repeat_length. }
  destruct (String.eqb (lower shape) "triangle").
  { intros H. inversion H; subst.
    rewrite fold_triangle_length. apply repeat_length. }
  destruct (String.eqb (lower shape) "gaussian"); [|discriminate].
  intros H. apply bind_ok in H. destruct H as (p & Hp & H).
  inversion H; subst.
  apply (for_each_gaussian_length _ _ _ _ _ (repeat_length _ _) Hp).
Qed.

(** X: the density and the position axis returned by get_1d_plant have
    the same length, whatever the shape. *)
Theorem get_1d_plant_same_length
    centers ref_center width shape dx xmax plant x_vec :
  get_1d_plant centers ref_center width shape dx xmax = Ok (plant, x_vec) ->
  length plant = length x_vec.
Proof. apply get_1d_plant_lengths. Qed.

Lemma get_1d_plant_same_length_witness :
  length (fold_left (square_step (plant_grid 1 100) (plant_width None 1))
                    (map (fun c => c - 0) [0])
                    (repeat 0 (length (plant_grid 1 100))))
  = length (plant_grid 1 100).
Proof.
  apply (get_1d_plant_same_length [0] 0 None "square" 1 100).
  apply get_1d_plant_square; [lra|reflexivity].
Defined.

(** X: the reference position only shifts the centers: the call with
    reference r is the call on the centers minus r with reference 0. *)
Theorem get_1d_plant_recenter centers ref_center width shape dx xmax :
  get_1d_plant centers ref_center width shape dx xmax
  = get_1d_plant (map (fun c => c - ref_center) centers) 0 width shape dx xmax.
Proof.
  unfold get_1d_plant. rewrite map_map.
  rewrite (map_ext (fun c => c - ref_center - 0) (fun c => c - ref_center))
    by (intros c; lra).
  reflexivity.
Qed.

(** X: with no site at all the density is zero on the whole grid, for
    each of the three shapes. *)
Theorem get_1d_plant_no_sites ref_center width shape dx xmax :
  dx <> 0 ->
  lower shape = "square"%string \/ lower shape = "triangle"%string \/
    lower shape = "gaussian"%string ->
  get_1d_plant [] ref_center width shape dx xmax
  = Ok (repeat 0 (length (plant_grid dx xmax)), plant_grid dx xmax).
Proof.
  intros Hdx [Hs|[Hs|Hs]].
  - now rewrite get_1d_plant_square.
  - now rewrite get_1d_plant_triangle.
  - now rewrite get_1d_plant_gaussian.
Qed.

Lemma get_1d_plant_no_sites_witness :
  get_1d_plant [] 0 None "gaussian" 1 100
  = Ok (repeat 0 (length (plant_grid 1 100)), plant_grid 1 100).
Proof.
  apply (get_1d_plant_no_sites 0 None "gaussian" 1 100).
  - lra.
  - right. right. reflexivity.
Defined.

Lemma gaussian_bump_bounds w c x : 0 < gaussian_bump w c x <= 1.
Proof.
  unfold gaussian_bump. split; [apply exp_pos|].
  rewrite <- exp_0.
  assert (H : - (x - c) ^ 2 / (2 * (w / 2.355) ^ 2) <= 0).
  { destruct (Req_dec_T (2 * (w / 2.355) ^ 2) 0) as [E|E].
    - rewrite E. unfold Rdiv. rewrite Rinv_0. lra.
    - assert (Hd : 0 < 2 * (w / 2.355) ^ 2).
      { pose proof (pow2_ge_0 (w / 2.355)). lra. }
      pose proof (pow2_ge_0 (x - c)) as Hn.
      apply Rmult_le_reg_r with (2 * (w / 2.355) ^ 2); [exact Hd|].
      unfold Rdiv. rewrite Rmult_assoc, Rinv_l by exact E. lra. }
  destruct H as [H|H]; [left; now apply exp_increasing|right; now rewrite H].
Qed.

Lemma gaussian_value_bounds w x cs :
  0 <= gaussian_value w x cs <= INR (length cs).
Proof.
  unfold gaussian_value. induction cs as [|c cs IH].
  - simpl. lra.
  - change (length (c :: cs)) with (S (length cs)). rewrite S_INR.
    simpl fold_right. pose proof (gaussian_bump_bounds w c x). simpl. lra.
Qed.

Lemma last_placed_in_span w x cs c :
  last_placed w x cs = Some c -> in_span w c x.
Proof.
  unfold last_placed. intros H. apply find_some in H.
  now apply in_span_b_true.
Qed.

(** X: the values of the density are bounded by the shape: 0 or 1 for
    Square, 0 or a ramp value in [0, w) for Triangle, and between 0 and
    the number of sites for Gaussian. *)
Theorem get_1d_plant_density_bounds
    centers ref_center width shape dx xmax plant x_vec (i : nat) (v : R) :
  get_1d_plant centers ref_center width shape dx xmax = Ok (plant, x_vec) ->
  plant !! i = Some v ->
  (lower shape = "square"%string -> v = 0 \/ v = 1) /\
  (lower shape = "triangle"%string ->
     v = 0 \/ 0 <= v < plant_width width dx) /\
  (lower shape = "gaussian"%string -> plant_width width dx <> 0 ->
     0 <= v <= INR (length centers)).
Proof.
  intros Hget Hv.
  pose proof (get_1d_plant_lengths _ _ _ _ _ _ _ _ Hget) as Hlen.
  destruct (get_1d_plant_grid _ _ _ _ _ _ _ _ Hget) as [Hdx ->].
  destruct (lookup_lt_is_Some_2 (plant_grid dx xmax) i) as [x Hx].
  { rewrite <- Hlen. now apply lookup_lt_Some in Hv. }
  split; [|split].
  - intros Hs. rewrite get_1d_plant_square in Hget by assumption.
    inversion Hget; subst plant.
    rewrite (fold_square_lookup _ _ _ _ i 0 x
               (repeat_zero_at_grid _ _ _ Hx) Hx) in Hv.
    inversion Hv. destruct (last_placed _ _ _); auto.
  - intros Hs. rewrite get_1d_plant_triangle in Hget by assumption.
    inversion Hget; subst plant.
    rewrite (fold_triangle_lookup _ _ _ _ i 0 x
               (repeat_zero_at_grid _ _ _ Hx) Hx) in Hv.
    inversion Hv. destruct (last_placed _ _ _) as [c|] eqn:E; [|now left].
    right. apply last_placed_in_span in E. unfold in_span in E. lra.
  - intros Hs Hw. rewrite get_1d_plant_gaussian in Hget by assumption.
    destruct (for_each_gaussian (plant_grid dx xmax) (plant_width width dx)
                (map (fun c => c - ref_center) centers)
                (repeat 0 (length (plant_grid dx xmax))) Hw)
      as (plant' & E & _ & Hval); [apply repeat_length|].
    rewrite E in Hget. cbn [bind] in Hget. inversion Hget; subst plant'.
    rewrite (Hval i 0 x (repeat_zero_at_grid _ _ _ Hx) Hx) in Hv.
    inversion Hv.
    pose proof (gaussian_value_bounds (plant_width width dx) x
                  (map (fun c => c - ref_center) centers)) as Hb.
    rewrite length_map in Hb. lra.
Qed.

Lemma plant_grid_1_100_lookup (i : nat) (x : R) :
  plant_grid 1 100 !! i = Some x <-> x = -50 + INR i /\ x < 50.
Proof.
  rewrite plant_grid_lookup by lra.
  replace (floordiv2 (Ropp 100)) with (-50)
    by (rewrite <- opp_IZR; symmetry; exact (floordiv2_even (-50))).
  replace (floordiv2 100) with 50 by (symmetry; exact (floordiv2_even 50)).
  rewrite Rmult_1_r. reflexivity.
Qed.

(** Two overlapping triangles of width 4 at 0 and 1: at the position 0
    the second site has overwritten the first (ramp value 1, not 2). *)
Lemma overlapping_triangles_at_origin :
  fold_left (triangle_step (plant_grid 1 100) (plant_width (Some 4) 1))
            (map (fun c => c - 0) [0; 1])
            (repeat 0 (length (plant_grid 1 100))) !! 50%nat = Some 1.
Proof.
  assert (Hx : plant_grid 1 100 !! 50%nat = Some 0).
  { apply plant_grid_1_100_lookup. simpl. lra. }
  rewrite (fold_triangle_lookup _ _ _ _ 50 0 0
             (repeat_zero_at_grid _ _ _ Hx) Hx).
  unfold last_placed, plant_width. cbn [map rev app find].
  assert (E : in_span_b 4 (1 - 0) 0 = true).
  { apply in_span_b_true. unfold in_span. lra. }
  rewrite E. f_equal. lra.
Qed.

Lemma get_1d_plant_density_bounds_witness :
  (lower "Triangle" = "square"%string -> 1 = 0 \/ 1 = 1) /\
  (lower "Triangle" = "triangle"%string ->
     1 = 0 \/ 0 <= 1 < plant_width (Some 4) 1) /\
  (lower "Triangle" = "gaussian"%string -> plant_width (Some 4) 1 <> 0 ->
     0 <= 1 <= INR (@length R [0; 1])).
Proof.
  apply (get_1d_plant_density_bounds [0; 1] 0 (Some 4) "Triangle" 1 100
           (fold_left
              (triangle_step (plant_grid 1 100) (plant_width (Some 4) 1))
              (map (fun c => c - 0) [0; 1])
              (repeat 0 (length (plant_grid 1 100))))
           (plant_grid 1 100) 50 1).
  - apply get_1d_plant_triangle; [lra|reflexivity].
  - exact overlapping_triangles_at_origin.
Defined.

(** ** get_1d_plant and plant1d_to_camfilter together *)

Lemma plant1d_to_camfilter_short plant x_plant cloud_speed :
  (length x_plant < 2)%nat ->
  plant1d_to_camfilter plant x_plant cloud_speed = Raise IndexError.
Proof.
  intros Hn. unfold plant1d_to_camfilter, getitem.
  rewrite (lookup_ge_None_2 x_plant 1) by lia. reflexivity.
Qed.

Lemma np_sum_zeros (l : list R) : Forall (fun v => v = 0) l -> np_sum l = 0.
Proof.
  induction 1 as [|v l Hv _ IH]; [reflexivity|].
  rewrite np_sum_cons, IH, Hv. lra.
Qed.

Lemma plant1d_to_camfilter_zero_sum plant x_plant cloud_speed :
  (2 <= length x_plant)%nat ->
  np_sum plant = 0 ->
  plant1d_to_camfilter plant x_plant cloud_speed = NonFinite.
Proof.
  intros Hn Hsum. unfold plant1d_to_camfilter.
  destruct (lookup_lt_is_Some_2 x_plant 1) as [x1 H1]; [lia|].
  destruct (lookup_lt_is_Some_2 x_plant 0) as [x0 H0]; [lia|].
  rewrite (getitem_lookup _ _ _ H1), (getitem_lookup _ _ _ H0). cbn [bind].
  destruct (Req_dec_T (np_sum plant) 0); [reflexivity|contradiction].
Qed.

Lemma last_placed_none w x cs :
  (forall c, In c cs -> ~ in_span w c x) -> last_placed w x cs = None.
Proof.
  intros H. unfold last_placed.
  destruct (find _ (rev cs)) as [c|] eqn:E; [|reflexivity].
  apply find_some in E. destruct E as [Hin Hb].
  apply in_rev in Hin. apply in_span_b_true in Hb.
  now apply H in Hin.
Qed.

(** X: when no site's span reaches the grid (Square or Triangle), the
    density is zero everywhere, and the CAM filter built from it is
    non-finite: the normalisation divides by a zero sum. *)
Theorem get_1d_plant_off_grid_camfilter
    centers ref_center width shape dx xmax plant x_vec cloud_speed :
  lower shape = "square"%string \/ lower shape = "triangle"%string ->
  get_1d_plant centers ref_center width shape dx xmax = Ok (plant, x_vec) ->
  (forall c x, In c centers -> In x x_vec ->
               ~ in_span (plant_width width dx) (c - ref_center) x) ->
  (2 <= length x_vec)%nat ->
  Forall (fun v => v = 0) plant /\
  plant1d_to_camfilter plant x_vec cloud_speed = NonFinite.
Proof.
  intros Hs Hget Hoff Hn.
  destruct (get_1d_plant_grid _ _ _ _ _ _ _ _ Hget) as [Hdx ->].
  assert (Hz : Forall (fun v => v = 0) plant).
  { pose proof (get_1d_plant_lengths _ _ _ _ _ _ _ _ Hget) as Hlen.
    apply Forall_lookup. intros i v Hv.
    destruct (lookup_lt_is_Some_2 (plant_grid dx xmax) i) as [x Hx].
    { rewrite <- Hlen. now apply lookup_lt_Some in Hv. }
    assert (Hnone : last_placed (plant_width width dx) x
                      (map (fun c => c - ref_center) centers) = None).
    { apply last_placed_none. intros c' Hc'.
      apply in_map_iff in Hc'. destruct Hc' as (c & <- & Hc).
      apply Hoff; [exact Hc|].
      apply list_elem_of_In. apply list_elem_of_lookup. now exists i. }
    destruct Hs as [Hs|Hs].
    - rewrite get_1d_plant_square in Hget by assumption.
      inversion Hget; subst plant.
      rewrite (fold_square_lookup _ _ _ _ i 0 x
                 (repeat_zero_at_grid _ _ _ Hx) Hx), Hnone in Hv.
      now inversion Hv.
    - rewrite get_1d_plant_triangle in Hget by assumption.
      inversion Hget; subst plant.
      rewrite (fold_triangle_lookup _ _ _ _ i 0 x
                 (repeat_zero_at_grid _ _ _ Hx) Hx), Hnone in Hv.
      now inversion Hv. }
  split; [exact Hz|].
  apply plant1d_to_camfilter_zero_sum; [exact Hn|].
  now apply np_sum_zeros.
Qed.

Lemma plant_grid_1_100_length : length (plant_grid 1 100) = 100%nat.
Proof.
  unfold plant_grid. rewrite length_map, length_seq.
  replace (floordiv2 (Ropp 100)) with (-50)
    by (rewrite <- opp_IZR; symmetry; exact (floordiv2_even (-50))).
  replace (floordiv2 100) with 50 by (symmetry; exact (floordiv2_even 50)).
  replace ((50 - -50) / 1) with (IZR 100) by lra.
  rewrite (Zceil_eq 100); [reflexivity|lra].
Qed.

Lemma get_1d_plant_off_grid_camfilter_witness :
  Forall (fun v => v = 0)
         (fold_left (square_step (plant_grid 1 100) (plant_width None 1))
                    (map (fun c => c - 0) [1000; -1000])
                    (repeat 0 (length (plant_grid 1 100)))) /\
  plant1d_to_camfilter
    (fold_left (square_step (plant_grid 1 100) (plant_width None 1))
               (map (fun c => c - 0) [1000; -1000])
               (repeat 0 (length (plant_grid 1 100))))
    (plant_grid 1 100) 5 = NonFinite.
Proof.
  apply (get_1d_plant_off_grid_camfilter [1000; -1000] 0 None "square" 1
           100).
  - now left.
  - apply get_1d_plant_square; [lra|reflexivity].
  - intros c x Hc Hx Hspan.
    apply list_elem_of_In, list_elem_of_lookup_1 in Hx.
    destruct Hx as [i Hi]. apply plant_grid_1_100_lookup in Hi.
    destruct Hi as [Hi Hhi].
    assert (Hlo : -50 <= x) by (pose proof (pos_INR i); lra).
    unfold in_span, plant_width in Hspan.
    destruct Hc as [<- | [<- | []]]; lra.
  - rewrite plant_grid_1_100_length. lia.
Defined.

(** X: a negative step gives an empty grid and an empty density; the CAM
    filter of such a profile cannot be built (IndexError). *)
Theorem get_1d_plant_negative_step
    centers ref_center width shape dx xmax plant x_vec cloud_speed :
  dx < 0 -> 0 <= xmax ->
  get_1d_plant centers ref_center width shape dx xmax = Ok (plant, x_vec) ->
  plant = [] /\ x_vec = [] /\
  plant1d_to_camfilter plant x_vec cloud_speed = Raise IndexError.
Proof.
  intros Hdx Hx Hget.
  pose proof (get_1d_plant_lengths _ _ _ _ _ _ _ _ Hget) as Hlen.
  destruct (get_1d_plant_grid _ _ _ _ _ _ _ _ Hget) as [_ ->].
  assert (Hg : plant_grid dx xmax = []).
  { unfold plant_grid.
    assert (Hfl : floordiv2 (- xmax) <= floordiv2 xmax).
    { unfold floordiv2. apply IZR_le. apply Zfloor_le. lra. }
    set (q := (floordiv2 xmax - floordiv2 (- xmax)) / dx).
    assert (Hq : q <= 0).
    { unfold q, Rdiv.
      assert (/ dx < 0) by now apply Rinv_lt_0_compat.
      nra. }
    destruct (Zceil_bound q) as [Hlo _].
    assert (Hz : (Zceil q < 1)%Z) by (apply lt_IZR; lra).
    replace (Z.to_nat (Zceil q)) with 0%nat by lia. reflexivity. }
  rewrite Hg in *. destruct plant; [|discriminate].
  split; [reflexivity|]. split; [reflexivity|].
  apply plant1d_to_camfilter_short. simpl. lia.
Qed.

Lemma get_1d_plant_negative_step_witness :
  fold_left (square_step (plant_grid (-1) 100) (plant_width None (-1)))
            (map (fun c => c - 0) [0])
            (repeat 0 (length (plant_grid (-1) 100))) = [] /\
  plant_grid (-1) 100 = [] /\
  plant1d_to_camfilter
    (fold_left (square_step (plant_grid (-1) 100) (plant_width None (-1)))
               (map (fun c => c - 0) [0])
               (repeat 0 (length (plant_grid (-1) 100))))
    (plant_grid (-1) 100) 5 = Raise IndexError.
Proof.
  apply (get_1d_plant_negative_step [0] 0 None "square" (-1) 100).
  - lra.
  - lra.
  - apply get_1d_plant_square; [lra|reflexivity].
Defined.

(** ** plant1d_to_camfilter in general *)

Lemma plant1d_to_camfilter_ok plant x_plant cloud_speed x0 x1 :
  x_plant !! 0%nat = Some x0 ->
  x_plant !! 1%nat = Some x1 ->
  x1 <> x0 ->
  np_sum plant <> 0 ->
  plant <> [] ->
  cloud_speed <> 0 ->
  exists x_min,
    is_min x_min x_plant /\
    plant1d_to_camfilter plant x_plant cloud_speed =
      let camfilt :=
        fft (map RtoC (map (fun p => p / np_sum plant) plant)) in
      let camfreq :=
        fftfreq (length plant) ((x1 - x0) / Rabs cloud_speed) in
      Ok (mkSeries camfreq
            (if Rgt_dec cloud_speed 0
             then zip_with (cam_shift (x_min / cloud_speed)) camfilt camfreq
             else map Cconj
                    (zip_with (cam_shift (- (x_min / cloud_speed)))
                              camfilt camfreq))).
Proof.
  intros H0 H1 Hdx Hsum Hne Hv.
  assert (Habs : Rabs cloud_speed <> 0) by now apply Rabs_no_R0.
  destruct (np_min_nonempty x_plant) as (x_min & Emin & Hmin).
  { intros E. rewrite E in H0. discriminate. }
  exists x_min. split; [exact Hmin|].
  unfold plant1d_to_camfilter.
  rewrite (getitem_lookup _ _ _ H1), (getitem_lookup _ _ _ H0). cbn [bind].
  destruct (Req_dec_T (np_sum plant) 0) as [|_]; [contradiction|].
  destruct (Req_dec_T (Rabs cloud_speed) 0) as [|_]; [contradiction|].
  rewrite length_map.
  destruct (Req_dec_T _ 0) as [E|_].
  { exfalso. apply Rmult_integral in E. destruct E as [E|E].
    - assert (0 < INR (length plant)).
      { apply lt_0_INR. destruct plant; [contradiction|simpl; lia]. }
      lra.
    - unfold Rdiv in E. apply Rmult_integral in E. destruct E as [E|E].
      + lra.
      + now apply Rinv_neq_0_compat in Habs. }
  rewrite Emin. reflexivity.
Qed.

Lemma np_sum_app (l1 l2 : list R) : np_sum (l1 ++ l2) = np_sum l1 + np_sum l2.
Proof.
  unfold np_sum. rewrite fold_left_app, fold_left_Rplus_acc. reflexivity.
Qed.

Lemma np_sum_scale (c : R) (l : list R) :
  np_sum (map (fun p => c * p) l) = c * np_sum l.
Proof.
  induction l as [|x l IH]; [unfold np_sum; simpl; lra|].
  simpl map. rewrite !np_sum_cons, IH. ring.
Qed.

Lemma np_sum_div (t : R) (l : list R) :
  np_sum (map (fun p => p / t) l) = np_sum l / t.
Proof.
  induction l as [|x l IH]; [unfold np_sum; simpl; unfold Rdiv; ring|].
  simpl map. rewrite !np_sum_cons, IH. unfold Rdiv. ring.
Qed.

(** The sum of the entries of a real array, as a complex sum. *)
Lemma Csum_RtoC (l : list R) :
  Csum (fun m => nth m (map RtoC l) Czero) (length l) = RtoC (np_sum l).
Proof.
  induction l as [|a l IH] using rev_ind; [reflexivity|].
  rewrite length_app, Nat.add_1_r. simpl Csum.
  rewrite (Csum_ext _ (fun m => nth m (map RtoC l) Czero)).
  2:{ intros m Hm. rewrite map_app, app_nth1; [reflexivity|].
      now rewrite length_map. }
  rewrite IH, map_app, app_nth2 by (rewrite length_map; lia).
  rewrite length_map, Nat.sub_diag, np_sum_app. simpl.
  unfold np_sum. simpl. apply C_eq; cunfold; ring.
Qed.

Lemma fft_first (l : list R) :
  l <> [] -> fft (map RtoC l) !! 0%nat = Some (RtoC (np_sum l)).
Proof.
  intros Hne.
  assert (Hn : (0 < length (map RtoC l))%nat).
  { rewrite length_map. destruct l; [contradiction|simpl; lia]. }
  rewrite (fft_lookup _ 0 Hn). f_equal.
  rewrite (Csum_ext _ (fun m => nth m (map RtoC l) Czero)).
  - rewrite length_map. apply Csum_RtoC.
  - intros m _. simpl INR.
    replace (- (2 * PI * INR m * 0 / INR (length (map RtoC l)))) with 0
      by (unfold Rdiv; ring).
    rewrite cis_0. apply Cmul_one_r.
Qed.

Lemma cam_shift_zero delay z : cam_shift delay z 0 = z.
Proof.
  unfold cam_shift. rewrite Cexp_imag.
  replace (0 * (2 * PI) * delay) with 0 by ring.
  rewrite cis_0. apply Cmul_one_r.
Qed.

(** X: the zero-frequency gain of the CAM filter is exactly 1 for every
    profile whose density has a nonzero sum, not only for a point
    source: the density is normalised before it is transformed. *)
Theorem plant1d_to_camfilter_dc_gain plant x_plant cloud_speed x0 x1 :
  x_plant !! 0%nat = Some x0 ->
  x_plant !! 1%nat = Some x1 ->
  x1 <> x0 ->
  np_sum plant <> 0 ->
  cloud_speed <> 0 ->
  exists filt,
    plant1d_to_camfilter plant x_plant cloud_speed = Ok filt /\
    index filt !! 0%nat = Some 0 /\
    values filt !! 0%nat = Some Cone.
Proof.
  intros H0 H1 Hdx Hsum Hv.
  assert (Hne : plant <> []) by (intros ->; now apply Hsum).
  destruct (plant1d_to_camfilter_ok plant x_plant cloud_speed x0 x1
              H0 H1 Hdx Hsum Hne Hv) as (x_min & _ & E).
  eexists. split; [exact E|]. cbn [index values].
  split; [apply fftfreq_first|].
  assert (Hfirst : forall delay,
    zip_with (cam_shift delay)
      (fft (map RtoC (map (fun p => p / np_sum plant) plant)))
      (fftfreq (length plant) ((x1 - x0) / Rabs cloud_speed)) !! 0%nat
    = Some Cone).
  { intros delay. rewrite lookup_zip_with, fft_first.
    2:{ destruct plant; [contradiction|discriminate]. }
    simpl. rewrite fftfreq_first. simpl. f_equal.
    rewrite cam_shift_zero, np_sum_div. unfold RtoC, Cone.
    f_equal. now field. }
  destruct (Rgt_dec cloud_speed 0).
  - apply Hfirst.
  - change (map Cconj ?l) with (Cconj <$> l).
    rewrite list_lookup_fmap, Hfirst. simpl. f_equal.
    apply C_eq; cunfold; ring.
Qed.

Lemma plant1d_to_camfilter_dc_gain_witness :
  exists filt,
    plant1d_to_camfilter [1; 3; 2; 0] point_x (-2) = Ok filt /\
    index filt !! 0%nat = Some 0 /\
    values filt !! 0%nat = Some Cone.
Proof.
  apply (plant1d_to_camfilter_dc_gain [1; 3; 2; 0] point_x (-2) (-2) (-1)).
  - reflexivity.
  - reflexivity.
  - lra.
  - unfold np_sum. simpl. lra.
  - lra.
Defined.

(** X: a profile with fewer than two positions has no grid step: the
    call raises IndexError, whatever the density and the speed. *)
Theorem plant1d_to_camfilter_needs_two_positions plant x_plant cloud_speed :
  (length x_plant < 2)%nat ->
  plant1d_to_camfilter plant x_plant cloud_speed = Raise IndexError.
Proof. apply plant1d_to_camfilter_short. Qed.

Lemma plant1d_to_camfilter_needs_two_positions_witness :
  plant1d_to_camfilter [1] [0] 5 = Raise IndexError.
Proof.
  apply (plant1d_to_camfilter_needs_two_positions [1] [0] 5). simpl. lia.
Defined.

(** X: a density with at least one cell whose sum is zero cannot be
    normalised: the filter is non-finite. *)
Theorem plant1d_to_camfilter_zero_density plant x_plant cloud_speed :
  plant <> [] ->
  (2 <= length x_plant)%nat ->
  np_sum plant = 0 ->
  plant1d_to_camfilter plant x_plant cloud_speed = NonFinite.
Proof. intros _. apply plant1d_to_camfilter_zero_sum. Qed.

Lemma plant1d_to_camfilter_zero_density_witness :
  plant1d_to_camfilter [1; -1; 0; 0] point_x 5 = NonFinite.
Proof.
  apply (plant1d_to_camfilter_zero_density [1; -1; 0; 0] point_x 5).
  - discriminate.
  - simpl. lia.
  - unfold np_sum. simpl. lra.
Defined.

(** X: reversing the direction of the cloud motion conjugates the filter
    and keeps its frequency axis. *)
Theorem plant1d_to_camfilter_reverse plant x_plant cloud_speed :
  0 < cloud_speed ->
  plant1d_to_camfilter plant x_plant (- cloud_speed) =
    (do filt <- plant1d_to_camfilter plant x_plant cloud_speed;
     Ok (mkSeries (index filt) (map Cconj (values filt)))).
Proof.
  intros Hv. unfold plant1d_to_camfilter.
  destruct (getitem x_plant 1) as [x1| |]; cbn [bind]; try reflexivity.
  destruct (getitem x_plant 0) as [x0| |]; cbn [bind]; try reflexivity.
  destruct (Req_dec_T (np_sum plant) 0); [reflexivity|].
  rewrite Rabs_Ropp.
  destruct (Req_dec_T (Rabs cloud_speed) 0); [reflexivity|].
  destruct (Req_dec_T _ 0); [reflexivity|].
  destruct (np_min x_plant) as [x_min| |]; cbn [bind]; try reflexivity.
  destruct (Rgt_dec (- cloud_speed) 0) as [H|_]; [lra|].
  destruct (Rgt_dec cloud_speed 0) as [_|H]; [|lra].
  cbn [bind index values].
  replace (- (x_min / - cloud_speed)) with (x_min / cloud_speed)
    by (field; lra).
  reflexivity.
Qed.

Lemma plant1d_to_camfilter_reverse_witness :
  plant1d_to_camfilter point_plant point_x (- 2) =
    (do filt <- plant1d_to_camfilter point_plant point_x 2;
     Ok (mkSeries (index filt) (map Cconj (values filt)))).
Proof.
  apply (plant1d_to_camfilter_reverse point_plant point_x 2). lra.
Defined.

(** X: the filter does not depend on the scale of the density: a density
    multiplied by a nonzero constant gives the same filter. *)
Theorem plant1d_to_camfilter_scale_invariant plant x_plant cloud_speed c :
  c <> 0 ->
  plant1d_to_camfilter (map (fun p => c * p) plant) x_plant cloud_speed
  = plant1d_to_camfilter plant x_plant cloud_speed.
Proof.
  intros Hc. unfold plant1d_to_camfilter.
  destruct (getitem x_plant 1) as [x1| |]; cbn [bind]; try reflexivity.
  destruct (getitem x_plant 0) as [x0| |]; cbn [bind]; try reflexivity.
  rewrite np_sum_scale.
  destruct (Req_dec_T (c * np_sum plant) 0) as [E|E],
           (Req_dec_T (np_sum plant) 0) as [E'|E']; try reflexivity.
  - apply Rmult_integral in E. tauto.
  - exfalso. apply E. rewrite E'. ring.
  - rewrite map_map.
    rewrite (map_ext (fun p => c * p / (c * np_sum plant))
                     (fun p => p / np_sum plant))
      by (intros p; field; tauto).
    rewrite !length_map. reflexivity.
Qed.

Lemma plant1d_to_camfilter_scale_invariant_witness :
  plant1d_to_camfilter (map (fun p => 7 * p) point_plant) point_x 2
  = plant1d_to_camfilter point_plant point_x 2.
Proof.
  apply (plant1d_to_camfilter_scale_invariant point_plant point_x 2 7). lra.
Defined.

(** X: a filter that is returned has one frequency and one value for
    every cell of the density. *)
Theorem plant1d_to_camfilter_shape plant x_plant cloud_speed filt :
  plant1d_to_camfilter plant x_plant cloud_speed = Ok filt ->
  length (index filt) = length plant /\
  length (values filt) = length plant.
Proof.
  unfold plant1d_to_camfilter. intros H.
  apply bind_ok in H. destruct H as (x1 & _ & H).
  apply bind_ok in H. destruct H as (x0 & _ & H).
  destruct (Req_dec_T (np_sum plant) 0) as [|Hsum]; [discriminate|].
  destruct (Req_dec_T (Rabs cloud_speed) 0); [discriminate|].
  destruct (Req_dec_T _ 0); [discriminate|].
  apply bind_ok in H. destruct H as (x_min & _ & H).
  rewrite length_map in H.
  assert (Hn : (1 <= length plant)%nat).
  { destruct plant; [now exfalso; apply Hsum|simpl; lia]. }
  assert (Hfl := fftfreq_length (length plant)
                   ((x1 - x0) / Rabs cloud_speed) Hn).
  inversion H; subst filt. cbn [index values]. split; [exact Hfl|].
  destruct (Rgt_dec cloud_speed 0);
    rewrite ?length_map, length_zip_with, fft_length, !length_map, Hfl; lia.
Qed.

Lemma plant1d_to_camfilter_shape_witness :
  exists filt,
    plant1d_to_camfilter [1; 3; 2; 0] point_x 2 = Ok filt /\
    length (index filt) = length [1; 3; 2; 0] /\
    length (values filt) = length [1; 3; 2; 0].
Proof.
  destruct (plant1d_to_camfilter_ok [1; 3; 2; 0] point_x 2 (-2) (-1))
    as (x_min & _ & E); try reflexivity; try lra; try discriminate.
  { unfold np_sum. simpl. lra. }
  eexists. split; [exact E|].
  apply (plant1d_to_camfilter_shape [1; 3; 2; 0] point_x 2). exact E.
Defined.

(** ** interp_tf: shape and range *)

Lemma map_result_length {A B : Type} (f : A -> result B) (l : list A)
    (bs : list B) :
  map_result f l = Ok bs -> length bs = length l.
Proof.
  revert bs. induction l as [|a l IH]; intros bs H; simpl in H.
  - now inversion H.
  - apply bind_ok in H. destruct H as (b & _ & H).
    apply bind_ok in H. destruct H as (bs' & Hbs & H).
    inversion H. simpl. now rewrite (IH bs' Hbs).
Qed.

Lemma interp1d_length x y x_new y_new :
  interp1d x y x_new = Ok y_new -> length y_new = length x_new.
Proof.
  unfold interp1d. destruct (negb _); [discriminate|].
  destruct (take_inds 0 x (argsort x)); [discriminate|].
  destruct (existsb _ x_new); [discriminate|].
  destruct (existsb _ x_new); [discriminate|].
  apply map_result_length.
Qed.

Lemma interp_tf_ok_shape new_freq input_tf out :
  interp_tf new_freq input_tf = Ok out ->
  index out = new_freq /\ length (values out) = length new_freq.
Proof.
  unfold interp_tf. intros H.
  apply bind_ok in H. destruct H as (mag & Hmag & H).
  apply bind_ok in H. destruct H as (ph & Hph & H).
  inversion H. cbn [index values]. split; [reflexivity|].
  rewrite length_zip_with.
  apply interp1d_length in Hmag, Hph. lia.
Qed.

(** X: an interpolated transfer function is indexed by the new
    frequencies and has one value for each of them. *)
Theorem interp_tf_shape new_freq input_tf out :
  interp_tf new_freq input_tf = Ok out ->
  index out = new_freq /\ length (values out) = length new_freq.
Proof. apply interp_tf_ok_shape. Qed.

Lemma take_inds_length {A : Type} (d : A) (l : list A) (inds : list nat) :
  length (take_inds d l inds) = length inds.
Proof. unfold take_inds. apply length_map. Qed.

Lemma existsb_true {A : Type} (p : A -> bool) (l : list A) (a : A) :
  In a l -> p a = true -> existsb p l = true.
Proof. intros Hin Hp. apply existsb_exists. eauto. Qed.

(** [interp1d] refuses a new frequency below the source axis. *)
Lemma interp1d_below (x y x_new : list R) (v : R) :
  StronglySorted Rle x -> length x = length y -> x <> [] ->
  In v x_new -> (forall a, a ∈ x -> v < a) ->
  interp1d x y x_new = Raise (ValueError below_msg).
Proof.
  intros Hs Hlen Hne Hv Hlow. unfold interp1d.
  rewrite Hlen, Nat.eqb_refl. cbn [negb].
  rewrite (argsort_ascending x Hs), take_inds_seq.
  destruct x as [|x_first xs]; [contradiction|].
  rewrite (existsb_true _ x_new v Hv); [reflexivity|].
  unfold Rlt_b. destruct (Rlt_dec v x_first) as [_|H]; [reflexivity|].
  exfalso. apply H, Hlow. apply elem_of_cons. now left.
Qed.

Lemma interp_tf_below_range new_freq input_tf (v : R) :
  index input_tf <> [] ->
  In v new_freq ->
  (forall a, In a (index input_tf) -> v < a) ->
  interp_tf new_freq input_tf = Raise (ValueError below_msg).
Proof.
  intros Hne Hv Hlow. unfold interp_tf.
  rewrite (interp1d_below _ _ new_freq v); [reflexivity| | | |exact Hv|].
  - apply take_argsort_sorted.
  - now rewrite length_map, !take_inds_length.
  - intros E. apply (f_equal length) in E.
    rewrite take_inds_length, argsort_length in E.
    destruct (index input_tf); [contradiction|discriminate].
  - intros a Ha. rewrite take_argsort_perm in Ha.
    apply Hlow. now apply list_elem_of_In.
Qed.

(** X: interpolation does not extrapolate: a new frequency below every
    frequency of the source makes interp_tf fail with the range error
    of the interpolator, whatever the values. *)
Theorem interp_tf_below new_freq input_tf (v : R) :
  index input_tf <> [] ->
  In v new_freq ->
  (forall a, In a (index input_tf) -> v < a) ->
  interp_tf new_freq input_tf = Raise (ValueError below_msg).
Proof. apply interp_tf_below_range. Qed.

Lemma interp_tf_below_witness :
  interp_tf [-1; 0] filt_unity = Raise (ValueError below_msg).
Proof.
  apply (interp_tf_below [-1; 0] filt_unity (-1)).
  - discriminate.
  - now left.
  - simpl. intros a [<-|[<-|[<-|[]]]]; lra.
Defined.

Lemma interp_tf_shape_witness :
  index (mkSeries [0] (repeat Cone (length [0]))) = [0] /\
  length (values (mkSeries [0] (repeat Cone (length [0])))) = length [0].
Proof.
  apply (interp_tf_shape [0] filt_unity).
  apply interp_tf_unity.
  - reflexivity.
  - simpl. repeat (apply NoDup_cons; split;
                   [rewrite ?elem_of_cons, elem_of_nil; lra|]).
    apply NoDup_nil_2.
  - simpl. lia.
  - simpl. repeat constructor.
  - constructor; [|constructor].
    exists (- (1 / 2)), (1 / 2). simpl.
    rewrite !elem_of_cons. split; [tauto|]. split; [tauto|lra].
Defined.

(** ** apply_filter: errors, shape, one-sided filters *)

(** X: a signal with fewer than two timestamps has no sampling interval:
    apply_filter raises IndexError, whatever the filter. *)
Theorem apply_filter_needs_two_samples input_tsig comp_filt :
  (length (index input_tsig) < 2)%nat ->
  apply_filter input_tsig comp_filt = Raise IndexError.
Proof.
  intros Hn. unfold apply_filter, apply_filter_complex, getitem.
  rewrite (lookup_ge_None_2 (index input_tsig) 1) by lia. reflexivity.
Qed.

Lemma apply_filter_needs_two_samples_witness :
  apply_filter (mkSeries [0] [5]) filt_unity = Raise IndexError.
Proof.
  apply (apply_filter_needs_two_samples (mkSeries [0] [5]) filt_unity).
  simpl. lia.
Defined.

(** X: two equal first timestamps give a zero sampling interval, and the
    frequency axis of the signal cannot be built: ZeroDivisionError. *)
Theorem apply_filter_zero_interval input_tsig comp_filt (t : R) :
  index input_tsig !! 0%nat = Some t ->
  index input_tsig !! 1%nat = Some t ->
  apply_filter input_tsig comp_filt = Raise ZeroDivisionError.
Proof.
  intros H0 H1. unfold apply_filter, apply_filter_complex.
  rewrite (getitem_lookup _ _ _ H1), (getitem_lookup _ _ _ H0). cbn [bind].
  destruct (Req_dec_T _ 0) as [_|H]; [reflexivity|].
  exfalso. apply H. ring.
Qed.

Lemma apply_filter_zero_interval_witness :
  apply_filter (mkSeries [2; 2; 3] [5; 1; 4]) filt_unity
  = Raise ZeroDivisionError.
Proof.
  apply (apply_filter_zero_interval (mkSeries [2; 2; 3] [5; 1; 4])
           filt_unity 2); reflexivity.
Defined.

Lemma apply_filter_complex_length input_tsig comp_filt out :
  apply_filter_complex input_tsig comp_filt = Ok out ->
  length out = length (values input_tsig).
Proof.
  unfold apply_filter_complex. intros H.
  apply bind_ok in H. destruct H as (t1 & _ & H).
  apply bind_ok in H. destruct H as (t0 & _ & H).
  destruct (Req_dec_T _ 0) as [|Hnd]; [discriminate|].
  apply bind_ok in H. destruct H as (f_max & _ & H).
  apply bind_ok in H. destruct H as (filt_max & _ & H).
  destruct (Rgt_dec f_max filt_max); [discriminate|].
  apply bind_ok in H. destruct H as (interp_filt & Hi & H).
  apply interp_tf_ok_shape in Hi. destruct Hi as [_ Hl].
  assert (Hn : (1 <= length (values input_tsig))%nat).
  { destruct (values input_tsig); [|simpl; lia].
    exfalso. apply Hnd. simpl. ring. }
  rewrite fftfreq_length in Hl by exact Hn.
  inversion H.
  rewrite ifft_length, length_map, length_zip_with, length_map, fft_length,
    length_map, Hl. lia.
Qed.

(** X: a filtered signal keeps the timestamps of the input and has as
    many samples as the input. *)
Theorem apply_filter_shape input_tsig comp_filt out :
  apply_filter input_tsig comp_filt = Ok out ->
  index out = index input_tsig /\
  length (values out) = length (values input_tsig).
Proof.
  unfold apply_filter. intros H.
  apply bind_ok in H. destruct H as (sig & Hsig & H).
  inversion H. cbn [index values]. split; [reflexivity|].
  rewrite length_map. now apply apply_filter_complex_length in Hsig.
Qed.

(** Every signal with two or more samples has a negative frequency bin. *)
Lemma fftfreq_negative_bin (n : nat) (d : R) :
  (2 <= n)%nat -> 0 < d ->
  In (IZR (-1) * (1 / (INR n * d))) (fftfreq n d) /\
  IZR (-1) * (1 / (INR n * d)) < 0.
Proof.
  intros Hn Hd. split; [now apply fftfreq_minus_one|].
  assert (0 < INR n) by (apply lt_0_INR; lia).
  assert (0 < 1 / (INR n * d)) by (apply Rdiv_lt_0_compat; nra).
  lra.
Qed.

Lemma apply_filter_one_sided_fails input_tsig comp_filt t0 t1 :
  index input_tsig !! 0%nat = Some t0 ->
  index input_tsig !! 1%nat = Some t1 ->
  t0 < t1 ->
  (2 <= length (values input_tsig))%nat ->
  index comp_filt <> [] ->
  (forall a, In a (index comp_filt) -> 0 <= a) ->
  apply_filter input_tsig comp_filt = Raise (ValueError coverage_msg) \/
  apply_filter input_tsig comp_filt = Raise (ValueError below_msg).
Proof.
  intros H0 H1 Hdt Hn Hne Hpos.
  set (n := length (values input_tsig)) in *.
  assert (HnR : 0 < INR n) by (apply lt_0_INR; lia).
  assert (Hnd : INR n * (t1 - t0) <> 0) by nra.
  destruct (is_max_nonempty (fftfreq n (t1 - t0))) as [f_max Hf].
  { intros E. apply (f_equal length) in E.
    rewrite fftfreq_length in E by lia. simpl in E. lia. }
  destruct (is_max_nonempty (index comp_filt) Hne) as [filt_max Hc].
  unfold apply_filter.
  rewrite (apply_filter_complex_steps _ _ t0 t1 f_max filt_max
             H0 H1 Hnd Hf Hc).
  destruct (Rgt_dec f_max filt_max); [now left|]. right.
  destruct (fftfreq_negative_bin n (t1 - t0)) as [Hin Hneg]; [lia|lra|].
  fold n.
  rewrite (interp_tf_below_range _ comp_filt _ Hne Hin); [reflexivity|].
  intros a Ha. specialize (Hpos a Ha). lra.
Qed.

(** X: a filter given on non-negative frequencies only can never be
    applied to a signal: the signal's FFT bins include negative
    frequencies, so the call fails with the coverage error or, past the
    coverage check, with the range error of the interpolation. *)
Theorem apply_filter_one_sided input_tsig comp_filt t0 t1 :
  index input_tsig !! 0%nat = Some t0 ->
  index input_tsig !! 1%nat = Some t1 ->
  t0 < t1 ->
  (2 <= length (values input_tsig))%nat ->
  index comp_filt <> [] ->
  (forall a, In a (index comp_filt) -> 0 <= a) ->
  apply_filter input_tsig comp_filt = Raise (ValueError coverage_msg) \/
  apply_filter input_tsig comp_filt = Raise (ValueError below_msg).
Proof. apply apply_filter_one_sided_fails. Qed.

Lemma apply_filter_one_sided_witness :
  apply_filter sig4_ramp (mkSeries [0; 1] [Cone; Cone])
    = Raise (ValueError coverage_msg) \/
  apply_filter sig4_ramp (mkSeries [0; 1] [Cone; Cone])
    = Raise (ValueError below_msg).
Proof.
  apply (apply_filter_one_sided sig4_ramp (mkSeries [0; 1] [Cone; Cone]) 0 1).
  - reflexivity.
  - reflexivity.
  - lra.
  - simpl. lia.
  - discriminate.
  - simpl. intros a [<-|[<-|[]]]; lra.
Defined.

Lemma linspace_nonneg (stop : R) (num : nat) (a : R) :
  0 <= stop -> (2 <= num)%nat -> In a (linspace 0 stop num) -> 0 <= a.
Proof.
  intros Hs Hn Ha. unfold linspace in Ha. apply in_map_iff in Ha.
  destruct Ha as (i & <- & _).
  assert (0 < INR (num - 1)) by (apply lt_0_INR; lia).
  assert (0 <= (stop - 0) / INR (num - 1)).
  { apply Rmult_le_pos; [lra|]. left. now apply Rinv_0_lt_compat. }
  pose proof (pos_INR i). nra.
Qed.

(** X: the Marcos filter on its default grid (0 to 0.5) is one-sided, so
    apply_filter rejects it for every signal: get_marcosfilter and
    apply_filter do not compose without a two-sided grid. *)
Theorem apply_filter_marcos_default_grid
    (to_complex64 : C -> C) input_tsig (s t0 t1 : R) :
  0 < s ->
  index input_tsig !! 0%nat = Some t0 ->
  index input_tsig !! 1%nat = Some t1 ->
  t0 < t1 ->
  (2 <= length (values input_tsig))%nat ->
  exists filt,
    get_marcosfilter to_complex64 s None = Ok filt /\
    (apply_filter input_tsig filt = Raise (ValueError coverage_msg) \/
     apply_filter input_tsig filt = Raise (ValueError below_msg)).
Proof.
  intros Hs H0 H1 Hdt Hn.
  eexists. split.
  { unfold get_marcosfilter.
    destruct (Rle_dec s 0) as [Hle|_]; [exfalso; lra|]. reflexivity. }
  apply (apply_filter_one_sided_fails _ _ t0 t1 H0 H1 Hdt Hn);
    cbn [index].
  - intros E. apply (f_equal length) in E.
    rewrite linspace_length in E. discriminate.
  - intros a Ha. apply (linspace_nonneg 0.5 100 a); [lra|lia|exact Ha].
Qed.

Lemma apply_filter_marcos_default_grid_witness :
  exists filt,
    get_marcosfilter (fun z => z) 4 None = Ok filt /\
    (apply_filter sig4_ramp filt = Raise (ValueError coverage_msg) \/
     apply_filter sig4_ramp filt = Raise (ValueError below_msg)).
Proof.
  apply (apply_filter_marcos_default_grid (fun z => z) sig4_ramp 4 0 1).
  - lra.
  - reflexivity.
  - reflexivity.
  - lra.
  - simpl. lia.
Defined.

(** The inverse transform of a signal filtered by a covering unity
    filter. *)
Lemma apply_filter_complex_unity input_tsig comp_filt t0 t1 :
  index input_tsig !! 0%nat = Some t0 ->
  index input_tsig !! 1%nat = Some t1 ->
  t1 <> t0 ->
  (2 <= length (values input_tsig))%nat ->
  length (index comp_filt) = length (values comp_filt) ->
  NoDup (index comp_filt) ->
  Forall (fun z => z = Cone) (values comp_filt) ->
  Forall (fun v => exists lo hi,
              In lo (index comp_filt) /\ In hi (index comp_filt) /\
              lo <= v <= hi)
         (fftfreq (length (values input_tsig)) (t1 - t0)) ->
  apply_filter_complex input_tsig comp_filt
  = Ok (map RtoC (values input_tsig)).
Proof.
  intros H0 H1 Hdt Hn Hflen Hnd Hone Hcov.
  set (n := length (values input_tsig)) in *.
  assert (HnR : 0 < INR n) by (apply lt_0_INR; lia).
  assert (Hnd0 : INR n * (t1 - t0) <> 0) by nra.
  assert (Hfl : length (fftfreq n (t1 - t0)) = n)
    by (apply fftfreq_length; lia).
  destruct (is_max_nonempty (fftfreq n (t1 - t0))) as [f_max Hf].
  { intros E. rewrite E in Hfl. simpl in Hfl. lia. }
  assert (Hfn : (2 <= length (index comp_filt))%nat)
    by exact (covering_axis_length _ n (t1 - t0) Hn Hnd0 Hcov).
  destruct (is_max_nonempty (index comp_filt)) as [filt_max Hc].
  { intros E. rewrite E in Hfn. simpl in Hfn. lia. }
  assert (Hle : ~ f_max > filt_max).
  { destruct Hf as [Hin _]. rewrite List.Forall_forall in Hcov.
    destruct (Hcov f_max Hin) as (lo & hi & _ & Hhi & _ & Hv).
    destruct Hc as [_ Hall]. rewrite List.Forall_forall in Hall.
    specialize (Hall hi Hhi). lra. }
  assert (Hcov' : Forall (fun v => exists lo hi,
              lo ∈ index comp_filt /\ hi ∈ index comp_filt /\ lo <= v <= hi)
            (fftfreq n (t1 - t0))).
  { eapply Forall_impl; [exact Hcov|].
    intros v (lo & hi & Hlo & Hhi & Hv). exists lo, hi.
    rewrite !list_elem_of_In. auto. }
  rewrite (apply_filter_complex_steps _ _ t0 t1 f_max filt_max
             H0 H1 Hnd0 Hf Hc).
  fold n. destruct (Rgt_dec f_max filt_max) as [Hgt|_]; [contradiction|].
  rewrite (interp_tf_unity _ comp_filt Hflen Hnd Hfn Hone Hcov').
  simpl. f_equal. rewrite Hfl.
  rewrite zip_mul_ones
    by (rewrite length_map, fft_length, length_map; reflexivity).
  rewrite map_map.
  rewrite (map_ext _ (fun z => z)) by (intros z; apply scale_cancel; lra).
  rewrite map_id. apply ifft_fft.
Qed.

Lemma sig4_unity_ok (vals : list R) :
  length vals = 4%nat ->
  apply_filter (mkSeries [0; 1; 2; 3] vals) filt_unity
  = Ok (mkSeries [0; 1; 2; 3] vals).
Proof.
  intros Hl. unfold apply_filter.
  rewrite (apply_filter_complex_unity _ filt_unity 0 1); try reflexivity.
  - cbn [bind index values]. now rewrite map_Cre_RtoC.
  - lra.
  - cbn [values]. lia.
  - simpl. repeat (apply NoDup_cons; split;
                   [rewrite ?elem_of_cons, elem_of_nil; lra|]).
    apply NoDup_nil_2.
  - simpl. repeat constructor.
  - cbn [values]. rewrite Hl, fftfreq_4_1. simpl.
    repeat (apply List.Forall_cons;
            [exists (- (1 / 2)), (1 / 2); simpl; split; [tauto|];
             split; [tauto|lra]|]).
    apply List.Forall_nil.
Qed.

Lemma apply_filter_shape_witness :
  exists out,
    apply_filter sig4_ramp filt_unity = Ok out /\
    index out = index sig4_ramp /\
    length (values out) = length (values sig4_ramp).
Proof.
  exists sig4_ramp. split; [apply (sig4_unity_ok [5; 7; 6; 2]); reflexivity|].
  apply (apply_filter_shape sig4_ramp filt_unity sig4_ramp).
  apply (sig4_unity_ok [5; 7; 6; 2]). reflexivity.
Defined.

(** ** apply_filter is homogeneous in the signal *)

Lemma Cmulr_mul (z w : C) (a : R) : Cmul (Cmulr z a) w = Cmulr (Cmul z w) a.
Proof. apply C_eq; cunfold; ring. Qed.

Lemma Cmulr_add (z w : C) (a : R) :
  Cadd (Cmulr z a) (Cmulr w a) = Cmulr (Cadd z w) a.
Proof. apply C_eq; cunfold; ring. Qed.

Lemma Cmulr_zero (a : R) : Cmulr Czero a = Czero.
Proof. apply C_eq; cunfold; ring. Qed.

Lemma Cmulr_divr (z : C) (a r : R) :
  Cdivr (Cmulr z a) r = Cmulr (Cdivr z r) a.
Proof. apply C_eq; cunfold; unfold Rdiv; ring. Qed.

Lemma Cmulr_swap (z : C) (a b : R) : Cmulr (Cmulr z a) b = Cmulr (Cmulr z b) a.
Proof. apply C_eq; cunfold; ring. Qed.

Lemma Csum_Cmulr (f : nat -> C) (a : R) (n : nat) :
  Csum (fun m => Cmulr (f m) a) n = Cmulr (Csum f n) a.
Proof.
  induction n as [|n IH]; simpl; [now rewrite Cmulr_zero|].
  now rewrite IH, Cmulr_add.
Qed.

Lemma nth_Cmulr (l : list C) (a : R) (m : nat) :
  nth m (map (fun z => Cmulr z a) l) Czero = Cmulr (nth m l Czero) a.
Proof.
  rewrite <- (Cmulr_zero a) at 1.
  apply (map_nth (fun z => Cmulr z a)).
Qed.

Lemma fft_scale (l : list C) (a : R) :
  fft (map (fun z => Cmulr z a) l) = map (fun z => Cmulr z a) (fft l).
Proof.
  unfold fft. rewrite length_map, map_map. apply map_ext. intros k.
  rewrite <- Csum_Cmulr. apply Csum_ext. intros m _.
  now rewrite nth_Cmulr, Cmulr_mul.
Qed.

Lemma ifft_scale (l : list C) (a : R) :
  ifft (map (fun z => Cmulr z a) l) = map (fun z => Cmulr z a) (ifft l).
Proof.
  unfold ifft. rewrite length_map, map_map. apply map_ext. intros k.
  rewrite <- Cmulr_divr. f_equal.
  rewrite <- Csum_Cmulr. apply Csum_ext. intros m _.
  now rewrite nth_Cmulr, Cmulr_mul.
Qed.

Lemma zip_mul_scale (A B : list C) (a : R) :
  zip_with Cmul (map (fun z => Cmulr z a) A) B
  = map (fun z => Cmulr z a) (zip_with Cmul A B).
Proof.
  revert B. induction A as [|z A IH]; intros [|w B]; simpl; try reflexivity.
  now rewrite IH, Cmulr_mul.
Qed.

Lemma map_scale_commute (g : C -> C) (a : R) (l : list C) :
  (forall z, g (Cmulr z a) = Cmulr (g z) a) ->
  map g (map (fun z => Cmulr z a) l) = map (fun z => Cmulr z a) (map g l).
Proof. intros Hg. rewrite !map_map. apply map_ext. exact Hg. Qed.

(** The filtered spectrum of a scaled signal, inverted. *)
Lemma filtered_scale (vals : list R) (B : list C) (a n : R) :
  map Cre
    (ifft (map (fun z => Cdivr (Cmulr z n) 2)
               (zip_with Cmul
                  (map (fun z => Cdivr (Cmulr z 2) n)
                       (fft (map RtoC (map (fun v => a * v) vals))))
                  B)))
  = map (fun v => a * v)
      (map Cre
         (ifft (map (fun z => Cdivr (Cmulr z n) 2)
                    (zip_with Cmul
                       (map (fun z => Cdivr (Cmulr z 2) n)
                            (fft (map RtoC vals)))
                       B)))).
Proof.
  replace (map RtoC (map (fun v => a * v) vals))
    with (map (fun z => Cmulr z a) (map RtoC vals)).
  2:{ rewrite !map_map. apply map_ext. intros v.
      apply C_eq; cunfold; ring. }
  rewrite fft_scale.
  rewrite (map_scale_commute (fun z => Cdivr (Cmulr z 2) n))
    by (intros z; now rewrite (Cmulr_swap z a 2), Cmulr_divr).
  rewrite zip_mul_scale.
  rewrite (map_scale_commute (fun z => Cdivr (Cmulr z n) 2))
    by (intros z; now rewrite (Cmulr_swap z a n), Cmulr_divr).
  rewrite ifft_scale, !map_map. apply map_ext. intros z.
  cunfold. ring.
Qed.

(** X: apply_filter is homogeneous in the signal: scaling the samples by
    a constant scales the filtered samples by the same constant, and a
    call that fails fails in the same way. *)
Theorem apply_filter_homogeneous input_tsig comp_filt (a : R) :
  apply_filter
    (mkSeries (index input_tsig) (map (fun v => a * v) (values input_tsig)))
    comp_filt =
  (do out <- apply_filter input_tsig comp_filt;
   Ok (mkSeries (index out) (map (fun v => a * v) (values out)))).
Proof.
  unfold apply_filter, apply_filter_complex. cbn [index values].
  destruct (getitem (index input_tsig) 1) as [t1| |]; cbn [bind];
    try reflexivity.
  destruct (getitem (index input_tsig) 0) as [t0| |]; cbn [bind];
    try reflexivity.
  rewrite length_map.
  destruct (Req_dec_T _ 0); [reflexivity|].
  destruct (np_max (fftfreq _ _)) as [f_max| |]; cbn [bind];
    try reflexivity.
  destruct (np_max (index comp_filt)) as [filt_max| |]; cbn [bind];
    try reflexivity.
  destruct (Rgt_dec f_max filt_max); [reflexivity|].
  destruct (interp_tf _ comp_filt) as [interp_filt| |]; cbn [bind];
    try reflexivity.
  cbn [index values]. now rewrite filtered_scale.
Qed.

(** ** get_marcosfilter: a single-pole low-pass *)

Lemma get_marcosfilter_ok (to_complex64 : C -> C) (s : R) (grid : list R) :
  0 < s ->
  get_marcosfilter to_complex64 s (Some grid) =
    Ok (mkSeries grid
          (map to_complex64
             (map (fun f =>
                     (1 / (1 + (f / (0.02 / sqrt s)) ^ 2),
                      - (f / (0.02 / sqrt s))
                        / (1 + (f / (0.02 / sqrt s)) ^ 2)))
                  grid))).
Proof.
  intros Hs. unfold get_marcosfilter.
  destruct (Rle_dec s 0) as [Hle|_]; [exfalso; lra|].
  do 3 f_equal. apply map_ext. intros f. apply marcos_value.
  pose proof (marcos_cutoff_pos s Hs). lra.
Qed.

(** X: the Marcos filter is a low-pass of unit gain at zero frequency:
    before the conversion to complex64 the value at frequency f has
    squared modulus 1/(1 + (f/fc)^2), at most 1; it is 1 at f = 0 and
    (1 - i)/2, the half-power point, at the cutoff f = fc. *)
Theorem get_marcosfilter_lowpass (to_complex64 : C -> C) (s : R)
    (grid : list R) (i : nat) (f : R) :
  0 < s ->
  grid !! i = Some f ->
  let fc := 0.02 / sqrt s in
  exists filt v,
    get_marcosfilter to_complex64 s (Some grid) = Ok filt /\
    values filt !! i = Some (to_complex64 v) /\
    Cmod v * Cmod v = 1 / (1 + (f / fc) ^ 2) /\
    Cmod v <= 1 /\
    (f = 0 -> v = Cone) /\
    (f = fc -> v = (1 / 2, - (1 / 2))).
Proof.
  intros Hs Hf fc.
  assert (Hfc : 0 < fc) by now apply marcos_cutoff_pos.
  eexists _, _. split; [now apply get_marcosfilter_ok|].
  cbn [values]. fold fc.
  split.
  { change (map ?g (map ?h grid)) with (g <$> (h <$> grid)).
    rewrite !list_lookup_fmap, Hf. reflexivity. }
  set (a := f / fc).
  assert (Hd : 0 < 1 + a ^ 2) by (pose proof (pow2_ge_0 a); lra).
  assert (Hsq : Cmod (1 / (1 + a ^ 2), - a / (1 + a ^ 2))
                * Cmod (1 / (1 + a ^ 2), - a / (1 + a ^ 2))
                = 1 / (1 + a ^ 2)).
  { unfold Cmod. cbn [Cre Cim fst snd]. rewrite sqrt_sqrt.
    - field. lra.
    - apply Rplus_le_le_0_compat; apply Rle_0_sqr. }
  split; [exact Hsq|]. split; [|split].
  - assert (Hle : 1 / (1 + a ^ 2) <= 1).
    { apply Rmult_le_reg_r with (1 + a ^ 2); [exact Hd|].
      unfold Rdiv. rewrite Rmult_assoc, Rinv_l by lra.
      pose proof (pow2_ge_0 a). lra. }
    assert (Hm : 0 <= Cmod (1 / (1 + a ^ 2), - a / (1 + a ^ 2)))
      by apply sqrt_pos.
    destruct (Rle_dec (Cmod (1 / (1 + a ^ 2), - a / (1 + a ^ 2))) 1);
      [assumption|]. nra.
  - intros E. assert (Ha : a = 0) by (unfold a; rewrite E; field; lra).
    rewrite Ha. unfold Cone. f_equal; field.
  - intros E. assert (Ha : a = 1) by (unfold a; rewrite E; field; lra).
    rewrite Ha. f_equal; field.
Qed.

Lemma get_marcosfilter_lowpass_witness :
  let fc := 0.02 / sqrt 4 in
  exists filt v,
    get_marcosfilter (fun z => z) 4 (Some [0; 0.01; 0.5]) = Ok filt /\
    values filt !! 1%nat = Some v /\
    Cmod v * Cmod v = 1 / (1 + (0.01 / fc) ^ 2) /\
    Cmod v <= 1 /\
    (0.01 = 0 -> v = Cone) /\
    (0.01 = fc -> v = (1 / 2, - (1 / 2))).
Proof.
  apply (get_marcosfilter_lowpass (fun z => z) 4 [0; 0.01; 0.5] 1 0.01).
  - lra.
  - reflexivity.
Defined.

(** X: the filter depends on the frequency and the area only through
    f * sqrt(s): the filter of the area k^2 s at the frequencies f / k is
    the filter of the area s at the frequencies f (a plant four times as
    large has half the cutoff). *)
Theorem get_marcosfilter_area_scaling (to_complex64 : C -> C) (s k : R)
    (grid : list R) :
  0 < s -> 0 < k ->
  exists filt1 filt2,
    get_marcosfilter to_complex64 (k * k * s)
                     (Some (map (fun f => f / k) grid)) = Ok filt1 /\
    get_marcosfilter to_complex64 s (Some grid) = Ok filt2 /\
    values filt1 = values filt2 /\
    0.02 / sqrt (k * k * s) = 0.02 / sqrt s / k.
Proof.
  intros Hs Hk.
  assert (Hks : 0 < k * k * s) by (apply Rmult_lt_0_compat; nra).
  assert (Hsq : sqrt (k * k * s) = k * sqrt s).
  { rewrite sqrt_mult by nra. rewrite sqrt_square by lra. reflexivity. }
  assert (Hss : 0 < sqrt s) by now apply sqrt_lt_R0.
  eexists _, _.
  split; [now apply get_marcosfilter_ok|].
  split; [now apply get_marcosfilter_ok|].
  cbn [values]. split.
  - f_equal. rewrite map_map. apply map_ext. intros f. rewrite Hsq.
    replace (f / k / (0.02 / (k * sqrt s))) with (f / (0.02 / sqrt s))
      by (field; lra).
    reflexivity.
  - rewrite Hsq. field. lra.
Qed.

Lemma get_marcosfilter_area_scaling_witness :
  exists filt1 filt2,
    get_marcosfilter (fun z => z) (2 * 2 * 1)
                     (Some (map (fun f => f / 2) [0; 0.02; 0.5])) = Ok filt1 /\
    get_marcosfilter (fun z => z) 1 (Some [0; 0.02; 0.5]) = Ok filt2 /\
    values filt1 = values filt2 /\
    0.02 / sqrt (2 * 2 * 1) = 0.02 / sqrt 1 / 2.
Proof.
  apply (get_marcosfilter_area_scaling (fun z => z) 1 2 [0; 0.02; 0.5]); lra.
Defined.

(** ** cleanfreq: repeated calls, FFT-ordered axes *)

(** X: cleanfreq is idempotent: a second call on the same spectrum
    leaves the heap as the first call left it. *)
Theorem cleanfreq_idempotent {V : Type} (h h' : heap V) sig v :
  cleanfreq sig h = Ok (v, h') ->
  cleanfreq sig h' = Ok (v, h').
Proof.
  unfold cleanfreq. destruct (h !! sig) as [s|] eqn:Es; [|discriminate].
  unfold list_setitem. destruct (decide _) as [Hi|]; [|discriminate].
  cbn [bind]. intros H. inversion H; subst v h'.
  rewrite lookup_insert_eq. cbn [index values].
  rewrite length_insert.
  destruct (decide _) as [_|Hn]; [|contradiction]. cbn [bind].
  rewrite list_insert_insert_eq, insert_insert_eq. reflexivity.
Qed.

Lemma cleanfreq_idempotent_witness :
  cleanfreq 0%nat
    (<[0%nat := mkSeries (<[(length (index spectrum3) / 2)%nat := None]>
                            (index spectrum3)) (values spectrum3)]>
       nonempty_heap)
  = Ok (PyNone,
        <[0%nat := mkSeries (<[(length (index spectrum3) / 2)%nat := None]>
                               (index spectrum3)) (values spectrum3)]>
          nonempty_heap).
Proof.
  apply (cleanfreq_idempotent nonempty_heap _ 0%nat PyNone).
  apply (cleanfreq_nonempty nonempty_heap 0%nat spectrum3).
  - apply lookup_singleton_eq.
  - simpl. lia.
Defined.

Lemma fftfreq_middle_bin (n : nat) :
  (1 <= n)%nat ->
  exists k0 : Z,
    (map Z.of_nat (seq 0 ((n - 1) / 2 + 1)) ++
     map (fun j : nat => (Z.of_nat j - Z.of_nat (n / 2))%Z) (seq 0 (n / 2)))
      !! (n / 2)%nat = Some k0 /\
    Z.abs k0 = Z.of_nat (n / 2).
Proof.
  intros Hn.
  pose proof (Nat.div_mod_eq n 2) as H1.
  pose proof (Nat.div_mod_eq (n - 1) 2) as H2.
  pose proof (Nat.mod_upper_bound n 2) as H3.
  pose proof (Nat.mod_upper_bound (n - 1) 2) as H4.
  destruct (decide (n mod 2 = 0)%nat) as [Heven|Hodd].
  - exists (0 - Z.of_nat (n / 2))%Z. split; [|lia].
    rewrite lookup_app_r by (rewrite length_map, length_seq; lia).
    rewrite length_map, length_seq.
    replace (n / 2 - ((n - 1) / 2 + 1))%nat with 0%nat by lia.
    rewrite (lookup_map_seq (fun j : nat => (Z.of_nat j - Z.of_nat (n / 2))%Z)).
    destruct (decide _); [reflexivity|lia].
  - exists (Z.of_nat (n / 2)). split; [|lia].
    rewrite lookup_app_l by (rewrite length_map, length_seq; lia).
    rewrite (lookup_map_seq Z.of_nat).
    destruct (decide _); [reflexivity|lia].
Qed.

Lemma fftfreq_bins_bounded (n : nat) (k : Z) :
  In k (map Z.of_nat (seq 0 ((n - 1) / 2 + 1)) ++
        map (fun j : nat => (Z.of_nat j - Z.of_nat (n / 2))%Z)
            (seq 0 (n / 2))) ->
  (1 <= n)%nat ->
  (Z.abs k <= Z.of_nat (n / 2))%Z.
Proof.
  intros Hk Hn.
  pose proof (Nat.div_mod_eq n 2) as H1.
  pose proof (Nat.div_mod_eq (n - 1) 2) as H2.
  pose proof (Nat.mod_upper_bound n 2) as H3.
  pose proof (Nat.mod_upper_bound (n - 1) 2) as H4.
  apply in_app_or in Hk. destruct Hk as [Hk|Hk];
    apply in_map_iff in Hk; destruct Hk as (j & <- & Hj);
    apply in_seq in Hj; lia.
Qed.

(** X: on an FFT-ordered frequency axis (the axis of a CAM filter) the
    label cleanfreq replaces is a bin of largest magnitude: the place
    where the axis jumps from the positive to the negative
    frequencies. *)
Theorem cleanfreq_fft_axis {V : Type} (h : heap V) sig s (n : nat) (d : R) :
  h !! sig = Some s ->
  index s = map Some (fftfreq n d) ->
  (1 <= n)%nat ->
  exists f0 h',
    index s !! (length (index s) / 2)%nat = Some (Some f0) /\
    cleanfreq sig h = Ok (PyNone, h') /\
    forall f, In f (fftfreq n d) -> Rabs f <= Rabs f0.
Proof.
  intros Hs Hidx Hn.
  assert (Hlen : length (index s) = n).
  { now rewrite Hidx, length_map, fftfreq_length. }
  destruct (fftfreq_middle_bin n Hn) as (k0 & Hk0 & Habs).
  exists (IZR k0 * (1 / (INR n * d))). eexists. split; [|split].
  - rewrite Hlen, Hidx. unfold fftfreq.
    change (map ?g (map ?f ?l)) with (g <$> (f <$> l)).
    rewrite !list_lookup_fmap, Hk0. reflexivity.
  - apply (cleanfreq_nonempty h sig s Hs). lia.
  - intros f Hf. unfold fftfreq in Hf. apply in_map_iff in Hf.
    destruct Hf as (k & <- & Hk).
    apply fftfreq_bins_bounded in Hk; [|exact Hn].
    rewrite !Rabs_mult. apply Rmult_le_compat_r; [apply Rabs_pos|].
    rewrite <- !abs_IZR. apply IZR_le. lia.
Qed.

Lemma cleanfreq_fft_axis_witness :
  exists f0 h',
    index (mkSeries (map Some (fftfreq 4 1)) [1; 2; 3; 4])
      !! (length (index (mkSeries (map Some (fftfreq 4 1)) [1; 2; 3; 4]%R)) / 2)%nat
      = Some (Some f0) /\
    cleanfreq 0%nat
      ({[ 0%nat := mkSeries (map Some (fftfreq 4 1)) [1; 2; 3; 4] ]} : heap R)
      = Ok (PyNone, h') /\
    forall f, In f (fftfreq 4 1) -> Rabs f <= Rabs f0.
Proof.
  apply (cleanfreq_fft_axis _ 0%nat _ 4%nat 1).
  - apply lookup_singleton_eq.
  - reflexivity.
  - lia.
Defined.

(** ** averaged_psd, averaged_tf: the number of averages, the overlap *)

Section AveragedFacts.
Variable get_window : string -> nat -> result (list R).
Variable detrend_func : string -> list R -> result (list R).

Lemma spectral_helper_nperseg_low x y fs window nperseg noverlap detrend
    scaling :
  x <> [] -> y <> [] -> (nperseg < 1)%Z ->
  spectral_helper get_window detrend_func x y fs window nperseg noverlap
    detrend scaling = Raise (ValueError nperseg_msg).
Proof.
  intros Hx Hy Hn. unfold spectral_helper.
  destruct x as [|a x]; [contradiction|].
  destruct y as [|b y]; [contradiction|].
  destruct (nperseg <? 1)%Z eqn:E; [reflexivity|].
  apply Z.ltb_ge in E. lia.
Qed.

Lemma spectral_helper_noverlap_high x y fs window nperseg noverlap detrend
    scaling win :
  x <> [] -> y <> [] ->
  (1 <= nperseg)%Z ->
  get_window window
    (Nat.min (Z.to_nat nperseg) (Nat.max (length x) (length y))) = Ok win ->
  (Z.of_nat (Nat.min (Z.to_nat nperseg) (Nat.max (length x) (length y)))
     <= noverlap)%Z ->
  spectral_helper get_window detrend_func x y fs window nperseg noverlap
    detrend scaling = Raise (ValueError noverlap_msg).
Proof.
  intros Hx Hy Hn Hwin Hno. unfold spectral_helper.
  destruct x as [|a x]; [contradiction|].
  destruct y as [|b y]; [contradiction|].
  destruct (nperseg <? 1)%Z eqn:E; [apply Z.ltb_lt in E; lia|].
  rewrite Hwin. cbn [bind].
  destruct (_ <=? noverlap)%Z eqn:E2; [reflexivity|].
  apply Z.leb_gt in E2. lia.
Qed.

Lemma spectral_helper_freqs x y fs window nperseg noverlap detrend scaling
    freqs P :
  x <> [] -> y <> [] ->
  spectral_helper get_window detrend_func x y fs window nperseg noverlap
    detrend scaling = Ok (freqs, P) ->
  freqs = rfftfreq (Nat.min (Z.to_nat nperseg)
                            (Nat.max (length x) (length y))) (1 / fs).
Proof.
  intros Hx Hy. unfold spectral_helper.
  destruct x as [|a x]; [contradiction|].
  destruct y as [|b y]; [contradiction|].
  intros H.
  destruct (nperseg <? 1)%Z; [discriminate|].
  apply bind_ok in H. destruct H as (win & _ & H).
  destruct (_ <=? noverlap)%Z; [discriminate|].
  apply bind_ok in H. destruct H as (scale & _ & H).
  apply bind_ok in H. destruct H as (rx & _ & H).
  apply bind_ok in H. destruct H as (ry & _ & H).
  inversion H. reflexivity.
Qed.
End AveragedFacts.

(** X: asking for zero averages fails. With two or more samples,
    averaged_psd and averaged_tf called with navgs = 0 raise
    ZeroDivisionError, whatever the signal, the window, the detrend type
    and the overlap are. *)
Theorem averaged_zero_averages
    (get_window : string -> nat -> result (list R))
    (detrend_func : string -> list R -> result (list R))
    (input_tsig output_tsig : Series R R) (overlap : R)
    (window detrend scaling : string) (t0 t1 : R) :
  index input_tsig !! 0%nat = Some t0 ->
  index input_tsig !! 1%nat = Some t1 ->
  averaged_psd get_window detrend_func input_tsig 0 overlap window detrend
               scaling = Raise ZeroDivisionError /\
  averaged_tf get_window detrend_func input_tsig output_tsig 0 overlap
              window detrend = Raise ZeroDivisionError.
Proof.
  intros H0 H1. unfold averaged_tf, averaged_psd.
  rewrite (getitem_lookup _ _ _ H1), (getitem_lookup _ _ _ H0).
  cbn [bind]. destruct (Req_dec_T (t1 - t0) 0); split; reflexivity.
Qed.

Lemma averaged_zero_averages_witness :
  averaged_psd boxcar_window constant_detrend sig4_ramp 0 0.5 "boxcar"
               "constant" "density" = Raise ZeroDivisionError /\
  averaged_tf boxcar_window constant_detrend sig4_ramp sig4_ramp 0 0.5
              "boxcar" "constant" = Raise ZeroDivisionError.
Proof.
  apply (averaged_zero_averages boxcar_window constant_detrend sig4_ramp
           sig4_ramp 0.5 "boxcar" "constant" "density" 0 1);
    reflexivity.
Defined.

(** X: asking for more averages than there are samples, or for a negative
    number of averages, fails. The segment length len(x) // navgs is then
    below 1, and averaged_psd and averaged_tf raise ValueError 'nperseg
    must be a positive integer'. *)
Theorem averaged_too_many_averages
    (get_window : string -> nat -> result (list R))
    (detrend_func : string -> list R -> result (list R))
    (input_tsig output_tsig : Series R R) (navgs : Z) (overlap : R)
    (window detrend scaling : string) (t0 t1 : R) :
  index input_tsig !! 0%nat = Some t0 ->
  index input_tsig !! 1%nat = Some t1 ->
  t1 <> t0 ->
  values input_tsig <> [] ->
  (navgs < 0 \/ Z.of_nat (length (values input_tsig)) < navgs)%Z ->
  averaged_psd get_window detrend_func input_tsig navgs overlap window
               detrend scaling = Raise (ValueError nperseg_msg) /\
  averaged_tf get_window detrend_func input_tsig output_tsig navgs overlap
              window detrend = Raise (ValueError nperseg_msg).
Proof.
  intros H0 H1 Hdt Hx Hnavgs.
  assert (Hlen : (0 < Z.of_nat (length (values input_tsig)))%Z).
  { destruct (values input_tsig); [contradiction|simpl; lia]. }
  assert (Hnp : (Z.of_nat (length (values input_tsig)) / navgs < 1)%Z).
  { destruct Hnavgs as [Hneg|Hbig].
    - pose proof (Z.div_mod (Z.of_nat (length (values input_tsig))) navgs
                    ltac:(lia)) as Hdm.
      pose proof (Z.mod_neg_bound (Z.of_nat (length (values input_tsig)))
                    navgs Hneg) as Hmod.
      nia.
    - rewrite Z.div_small by lia. lia. }
  assert (Hpsd : forall sc,
             averaged_psd get_window detrend_func input_tsig navgs overlap
               window detrend sc = Raise (ValueError nperseg_msg)).
  { intros sc. unfold averaged_psd.
    rewrite (getitem_lookup _ _ _ H1), (getitem_lookup _ _ _ H0).
    cbn [bind].
    destruct (Req_dec_T (t1 - t0) 0) as [E|_]; [lra|].
    destruct (navgs =? 0)%Z eqn:En; [apply Z.eqb_eq in En; lia|].
    unfold welch, csd.
    rewrite spectral_helper_nperseg_low by assumption. reflexivity. }
  split; [apply Hpsd|].
  unfold averaged_tf.
  rewrite (getitem_lookup _ _ _ H1), (getitem_lookup _ _ _ H0).
  cbn [bind].
  destruct (Req_dec_T (t1 - t0) 0) as [E|_]; [lra|].
  destruct (navgs =? 0)%Z eqn:En; [apply Z.eqb_eq in En; lia|].
  rewrite Hpsd. reflexivity.
Qed.

Lemma averaged_too_many_averages_witness :
  averaged_psd boxcar_window constant_detrend sig4_ramp 5 0.5 "boxcar"
               "constant" "density" = Raise (ValueError nperseg_msg) /\
  averaged_tf boxcar_window constant_detrend sig4_ramp sig4_ramp 5 0.5
              "boxcar" "constant" = Raise (ValueError nperseg_msg).
Proof.
  apply (averaged_too_many_averages boxcar_window constant_detrend sig4_ramp
           sig4_ramp 5 0.5 "boxcar" "constant" "density" 0 1).
  - reflexivity.
  - reflexivity.
  - lra.
  - discriminate.
  - right. simpl. lia.
Defined.

Lemma py_int_full_overlap (n : Z) (overlap : R) :
  (1 <= n)%Z -> 1 <= overlap -> (n <= py_int (IZR n * overlap))%Z.
Proof.
  intros Hn Hov.
  assert (HnR : 1 <= IZR n) by now apply IZR_le.
  assert (Hx : IZR n <= IZR n * overlap) by nra.
  unfold py_int. destruct (Rle_dec 0 (IZR n * overlap)) as [_|H]; [|lra].
  apply Zfloor_lub. exact Hx.
Qed.

(** X: an overlap of 100 % or more fails. For 1 <= navgs <= len(x) and a
    known window, averaged_psd and averaged_tf called with overlap >= 1
    raise ValueError 'noverlap must be less than nperseg.'. *)
Theorem averaged_full_overlap
    (get_window : string -> nat -> result (list R))
    (detrend_func : string -> list R -> result (list R))
    (input_tsig output_tsig : Series R R) (navgs : Z) (overlap : R)
    (window detrend scaling : string) (t0 t1 : R) (win : list R) :
  index input_tsig !! 0%nat = Some t0 ->
  index input_tsig !! 1%nat = Some t1 ->
  t1 <> t0 ->
  (1 <= navgs <= Z.of_nat (length (values input_tsig)))%Z ->
  1 <= overlap ->
  get_window window
    (Z.to_nat (Z.of_nat (length (values input_tsig)) / navgs)) = Ok win ->
  averaged_psd get_window detrend_func input_tsig navgs overlap window
               detrend scaling = Raise (ValueError noverlap_msg) /\
  averaged_tf get_window detrend_func input_tsig output_tsig navgs overlap
              window detrend = Raise (ValueError noverlap_msg).
Proof.
  intros H0 H1 Hdt Hnavgs Hov Hwin.
  set (n := Z.of_nat (length (values input_tsig))) in *.
  pose proof (nperseg_bounds n navgs Hnavgs) as Hnp.
  pose proof (py_int_full_overlap (n / navgs) overlap (proj1 Hnp) Hov) as Hno.
  assert (Hx : values input_tsig <> []).
  { intros E. unfold n in Hnavgs. rewrite E in Hnavgs. simpl in Hnavgs. lia. }
  assert (Hmin : Nat.min (Z.to_nat (n / navgs))
                   (Nat.max (length (values input_tsig))
                            (length (values input_tsig)))
                 = Z.to_nat (n / navgs)).
  { rewrite Nat.max_id. apply Nat.min_l. unfold n in *. lia. }
  assert (Hpsd : forall sc,
             averaged_psd get_window detrend_func input_tsig navgs overlap
               window detrend sc = Raise (ValueError noverlap_msg)).
  { intros sc. unfold averaged_psd.
    rewrite (getitem_lookup _ _ _ H1), (getitem_lookup _ _ _ H0).
    cbn [bind].
    destruct (Req_dec_T (t1 - t0) 0) as [E|_]; [lra|].
    destruct (navgs =? 0)%Z eqn:En; [apply Z.eqb_eq in En; lia|].
    unfold welch, csd. fold n.
    rewrite (spectral_helper_noverlap_high get_window detrend_func _ _ _ _ _
               _ _ _ win Hx Hx (proj1 Hnp)).
    - reflexivity.
    - rewrite Hmin. exact Hwin.
    - rewrite Hmin. lia. }
  split; [apply Hpsd|].
  unfold averaged_tf.
  rewrite (getitem_lookup _ _ _ H1), (getitem_lookup _ _ _ H0).
  cbn [bind].
  destruct (Req_dec_T (t1 - t0) 0) as [E|_]; [lra|].
  destruct (navgs =? 0)%Z eqn:En; [apply Z.eqb_eq in En; lia|].
  rewrite Hpsd. reflexivity.
Qed.

Lemma averaged_full_overlap_witness :
  averaged_psd boxcar_window constant_detrend sig4_ramp 2 1 "boxcar"
               "constant" "density" = Raise (ValueError noverlap_msg) /\
  averaged_tf boxcar_window constant_detrend sig4_ramp sig4_ramp 2 1
              "boxcar" "constant" = Raise (ValueError noverlap_msg).
Proof.
  apply (averaged_full_overlap boxcar_window constant_detrend sig4_ramp
           sig4_ramp 2 1 "boxcar" "constant" "density" 0 1 (repeat 1 2)).
  - reflexivity.
  - reflexivity.
  - lra.
  - simpl. lia.
  - lra.
  - reflexivity.
Defined.

(** ** averaged_psd: the frequency axis, the sign of the estimate *)

Lemma fold_left_squares_nonneg (w : list R) (acc : R) :
  0 <= acc -> 0 <= fold_left Rplus (zip_with Rmult w w) acc.
Proof.
  revert acc. induction w as [|a w IH]; intros acc Hacc; [exact Hacc|].
  simpl. apply IH. nra.
Qed.

Lemma onesided_factor_pos (nfft k : nat) : 0 < onesided_factor nfft k.
Proof.
  unfold onesided_factor.
  destruct (k =? 0)%nat; [lra|].
  destruct (Nat.even nfft && (k =? nfft / 2)%nat); lra.
Qed.

Lemma self_bin_nonneg (scale : R) (nperseg k : nat) (z : C) :
  0 <= scale -> 0 <= Cre (self_bin scale nperseg k z).
Proof.
  intros Hs. pose proof (onesided_factor_pos nperseg k) as Hf.
  destruct z as [a b]. unfold self_bin. cunfold.
  apply Rmult_le_pos; [|lra]. apply Rmult_le_pos; [|exact Hs]. nra.
Qed.

Lemma Csum_nonneg (f : nat -> C) (n : nat) :
  (forall s, 0 <= Cre (f s)) -> 0 <= Cre (Csum f n).
Proof.
  intros Hf. induction n as [|n IH]; [simpl; lra|]. simpl.
  unfold Cadd. cbn [Cre fst]. specialize (Hf n). lra.
Qed.

Lemma nth_nth_nonneg (P : list (list C)) (s k : nat) :
  Forall (Forall (fun z => 0 <= Cre z)) P ->
  0 <= Cre (nth k (nth s P []) Czero).
Proof.
  intros HP. rewrite Forall_lookup in HP.
  rewrite (nth_lookup P s). destruct (P !! s) as [p|] eqn:Ep; simpl.
  - specialize (HP s p Ep). rewrite Forall_lookup in HP.
    rewrite nth_lookup. destruct (p !! k) as [z|] eqn:Ez; simpl;
      [exact (HP k z Ez)|lra].
  - destruct k; simpl; lra.
Qed.

Lemma segment_mean_nonneg (nfreq : nat) (P : list (list C)) :
  Forall (Forall (fun z => 0 <= Cre z)) P ->
  Forall (fun z => 0 <= Cre z) (segment_mean nfreq P).
Proof.
  intros HP. unfold segment_mean.
  destruct P as [|p [|q P]]; [constructor|now inversion HP|].
  set (Q := p :: q :: P) in *.
  apply Forall_fmap. apply Forall_forall. intros k _. cbv beta.
  unfold Cdivr, compose. cbn [Cre fst].
  assert (Hlen : 0 < INR (length Q)) by (apply lt_0_INR; simpl; lia).
  apply Rmult_le_pos.
  - apply Csum_nonneg. intros s. now apply nth_nth_nonneg.
  - apply Rlt_le, Rinv_0_lt_compat. exact Hlen.
Qed.

Section SpectralSign.
Variable get_window : string -> nat -> result (list R).
Variable detrend_func : string -> list R -> result (list R).

(** With a positive sampling rate no segment's spectrum of a signal
    against itself has a negative bin. *)
Lemma spectral_helper_self_nonneg x fs window nperseg noverlap detrend
    scaling freqs P :
  0 < fs ->
  spectral_helper get_window detrend_func x x fs window nperseg noverlap
    detrend scaling = Ok (freqs, P) ->
  Forall (Forall (fun z => 0 <= Cre z)) P.
Proof.
  intros Hfs. unfold spectral_helper. destruct x as [|a l].
  { intros H. inversion H. constructor. }
  set (x := a :: l). intros H.
  destruct (nperseg <? 1)%Z; [discriminate|].
  apply bind_ok in H. destruct H as (win & _ & H).
  destruct (_ <=? noverlap)%Z; [discriminate|].
  apply bind_ok in H. destruct H as (scale & Hscale & H).
  apply bind_ok in H. destruct H as (rx & Hx & H).
  apply bind_ok in H. destruct H as (ry & Hy & H).
  rewrite Hx in Hy. inversion Hy; subst ry. inversion H; subst.
  assert (Hs : 0 <= scale).
  { destruct (String.eqb scaling "density").
    - destruct (Req_dec_T _ 0) as [|Hne]; [discriminate|].
      inversion Hscale; subst scale.
      pose proof (fold_left_squares_nonneg win 0 (Rle_refl 0)) as Hsq.
      fold (np_sum (zip_with Rmult win win)) in Hsq.
      apply Rlt_le. unfold Rdiv. rewrite Rmult_1_l.
      apply Rinv_0_lt_compat.
      destruct (Rle_lt_or_eq_dec _ _ Hsq) as [Hpos|Hz].
      + now apply Rmult_lt_0_compat.
      + exfalso. apply Hne. rewrite <- Hz. ring.
    - destruct (String.eqb scaling "spectrum"); [|discriminate].
      destruct (Req_dec_T _ 0) as [|Hne]; [discriminate|].
      inversion Hscale; subst scale.
      apply Rlt_le. unfold Rdiv. rewrite Rmult_1_l.
      apply Rinv_0_lt_compat.
      pose proof (pow2_ge_0 (np_sum win)) as Hp. lra. }
  rewrite zip_self. apply Forall_fmap. apply Forall_forall. intros sx _.
  simpl. rewrite zip_self, imap_map.
  apply Forall_lookup. intros k z Hz.
  rewrite list_lookup_imap in Hz.
  destruct (sx !! k) as [w|]; [|discriminate].
  simpl in Hz. inversion Hz. now apply self_bin_nonneg.
Qed.
End SpectralSign.

(** X: the density spectrum of averaged_psd. For a signal sampled every
    dt = t1 - t0 > 0 seconds, 1 <= navgs <= len(x), an overlap in [0, 1), a
    window of nonzero energy and a known detrend type, averaged_psd
    returns a Series whose index holds the frequencies k / (nperseg * dt)
    for k = 0 .. nperseg // 2, with nperseg = len(x) // navgs, and none of
    whose values is negative. *)
Theorem averaged_psd_axis_and_sign
    (get_window : string -> nat -> result (list R))
    (detrend_func : string -> list R -> result (list R))
    (input_tsig : Series R R) (navgs : Z) (overlap : R)
    (window detrend : string) (t0 t1 : R) (win : list R) :
  index input_tsig !! 0%nat = Some t0 ->
  index input_tsig !! 1%nat = Some t1 ->
  t0 < t1 ->
  (1 <= navgs <= Z.of_nat (length (values input_tsig)))%Z ->
  0 <= overlap < 1 ->
  get_window window
    (Z.to_nat (Z.of_nat (length (values input_tsig)) / navgs)) = Ok win ->
  np_sum (zip_with Rmult win win) <> 0 ->
  (forall seg, exists d, detrend_func detrend seg = Ok d) ->
  exists psd,
    averaged_psd get_window detrend_func input_tsig navgs overlap window
                 detrend "density" = Ok psd /\
    index psd =
      map (fun k : nat =>
             INR k /
             (INR (Z.to_nat (Z.of_nat (length (values input_tsig)) / navgs))
              * (t1 - t0)))
          (seq 0 (Z.to_nat (Z.of_nat (length (values input_tsig)) / navgs)
                  / 2 + 1)) /\
    Forall (fun p => 0 <= p) (values psd).
Proof.
  intros H0 H1 Hdt Hnavgs Hov Hwin Hsum Hdet.
  set (n := Z.of_nat (length (values input_tsig))) in *.
  pose proof (nperseg_bounds n navgs Hnavgs) as Hnp.
  pose proof (py_int_overlap (n / navgs) overlap (proj1 Hnp) Hov) as Hno.
  assert (Hfs : 0 < 1 / (t1 - t0)).
  { unfold Rdiv. rewrite Rmult_1_l. apply Rinv_0_lt_compat. lra. }
  assert (Hx : values input_tsig <> []).
  { intros E. unfold n in Hnavgs. rewrite E in Hnavgs. simpl in Hnavgs. lia. }
  destruct (csd_self_total get_window detrend_func (values input_tsig)
              (1 / (t1 - t0)) window (n / navgs)
              (py_int (IZR (n / navgs) * overlap)) detrend win
              Hx (Rgt_not_eq _ _ Hfs) Hnp (proj2 Hno) Hwin Hsum Hdet)
    as (freqs & P & Hcsd).
  destruct (averaged_tf_self get_window detrend_func input_tsig navgs overlap
              window detrend t0 t1 freqs P H0 H1)
    as [Hpsd _]; [lra|lia|exact Hcsd|].
  exists (mkSeries freqs (map Cre P)). split; [exact Hpsd|].
  cbn [index values].
  unfold csd in Hcsd. apply bind_ok in Hcsd.
  destruct Hcsd as ([f Q] & HQ & Hret). cbn [fst snd] in Hret.
  inversion Hret; subst freqs P. split.
  - rewrite (spectral_helper_freqs get_window detrend_func _ _ _ _ _ _ _ _
               _ _ Hx Hx HQ).
    rewrite Nat.max_id, Nat.min_l by (unfold n in *; lia).
    unfold rfftfreq. apply map_ext_in. intros k _.
    assert (Hnz : INR (Z.to_nat (n / navgs)) <> 0).
    { apply not_0_INR. lia. }
    field. split; [lra|exact Hnz].
  - apply Forall_fmap.
    apply (Forall_impl (fun z => 0 <= Cre z)); [|intros z Hz; exact Hz].
    apply segment_mean_nonneg.
    exact (spectral_helper_self_nonneg get_window detrend_func _ _ _ _ _ _
             _ _ _ Hfs HQ).
Qed.

Lemma averaged_psd_axis_and_sign_witness :
  exists psd,
    averaged_psd boxcar_window constant_detrend sig4_ramp 1 0.5 "boxcar"
                 "constant" "density" = Ok psd /\
    index psd =
      map (fun k : nat =>
             INR k /
             (INR (Z.to_nat (Z.of_nat (length (values sig4_ramp)) / 1))
              * (1 - 0)))
          (seq 0 (Z.to_nat (Z.of_nat (length (values sig4_ramp)) / 1)
                  / 2 + 1)) /\
    Forall (fun p => 0 <= p) (values psd).
Proof.
  apply (averaged_psd_axis_and_sign boxcar_window constant_detrend
           sig4_ramp 1 0.5 "boxcar" "constant" 0 1 (repeat 1 4)).
  - reflexivity.
  - reflexivity.
  - lra.
  - simpl. lia.
  - lra.
  - reflexivity.
  - unfold np_sum. simpl. lra.
  - intros seg. eexists. reflexivity.
Defined.
